(** * webgl-operate: canvas binding life-cycle and label change tracking

  A shallow embedding of [source/canvas.ts] and [source/label.ts].

  Numbers.  The canvas is embedded at two levels of arithmetic.  Module
  [Canvas] has the whole class, with a JavaScript [number] as an exact
  rational ([Q]): binding, unbinding, disposal, the negotiation of the frame
  precision and the order of the calls to the collaborators do not depend on
  how a product is rounded.  Modules [Ieee], [Float32Array] and [FloatCanvas]
  have the two frame setters and the resize handler with the arithmetic the
  code performs: every operation on numbers rounds to double precision, every
  store into a gl-matrix vector (a [Float32Array]) rounds to single
  precision, and [NaN] and the infinities are numbers like the others.  What
  depends on how a value is rounded, or on a value that is not finite, is
  proved there; on [Canvas], frame sizes are stated for whole numbers of
  pixels.
  Where a method of [Label] can return [NaN] (the glyph-metric queries) the
  result type is [Label.number], which adds [NaN] to the rationals.

  Objects.  A renderer and a [Text] are objects that are referenced, not
  owned; they live in a store that maps references to object states, and
  [===] on them is equality of references. *)

From Stdlib Require Import ZArith QArith Qround Qminmax Qpower Qreduction.
From Stdlib Require Import Bool List String Ascii Lia Lqa.
From Stdlib Require Qcanon.
Import ListNotations.

(** ** gl-matrix: the [vec2] operations used by the canvas, in exact arithmetic *)

Module GlMatrix.

Local Open Scope Q_scope.

Definition vec2 : Type := (Q * Q)%type.

(** [Math.round(x)]: the integer nearest to [x], ties towards +infinity. *)
Definition Math_round (x : Q) : Q := inject_Z (Qfloor (x + (1 # 2))).

(** [vec2.mul(out, a, b)] *)
Definition mul (a b : vec2) : vec2 := (fst a * fst b, snd a * snd b).

(** [vec2.div(out, a, b)]; in [Q] a quotient by zero has the value 0, where
    the program has an infinity ([Ieee.div]). *)
Definition div (a b : vec2) : vec2 := (fst a / fst b, snd a / snd b).

(** [vec2.max(out, a, b)] *)
Definition max (a b : vec2) : vec2 := (Qmax (fst a) (fst b), Qmax (snd a) (snd b)).

(** [vec2.round(out, a)] *)
Definition round (a : vec2) : vec2 := (Math_round (fst a), Math_round (snd a)).

(** [vec2.exactEquals(a, b)]: [a[0] === b[0] && a[1] === b[1]] *)
Definition exactEquals (a b : vec2) : bool :=
  Qeq_bool (fst a) (fst b) && Qeq_bool (snd a) (snd b).

(** Modelled from the spec: [clamp2] of [core/gl-matrix-extensions], which
    is not part of the sources at hand; it clamps each component of [x] to
    the interval given by the same component of [lo] and [hi]. *)
Definition clamp (x lo hi : Q) : Q := Qmax lo (Qmin hi x).

Definition clamp2 (x lo hi : vec2) : vec2 :=
  (clamp (fst x) (fst lo) (fst hi), clamp (snd x) (snd lo) (snd hi)).

End GlMatrix.

(** ** Collaborators of the canvas *)

Module Core.

Import GlMatrix.
Local Open Scope Q_scope.

(** [a < b] on numbers, as a boolean. *)
Definition Qlt_bool (a b : Q) : bool := negb (Qle_bool b a).

(** Modelled from the spec: [Color] of [core/color], which is not part of
    the sources at hand: four components, compared by value. *)
Record Color : Type := mkColor { rgba : Q * Q * Q * Q }.

Definition Color_equals (a b : Color) : bool :=
  let '(r1, g1, b1, a1) := rgba a in
  let '(r2, g2, b2, a2) := rgba b in
  Qeq_bool r1 r2 && Qeq_bool g1 g2 && Qeq_bool b1 b2 && Qeq_bool a1 a2.

Inductive FramePrecisionString : Type := Pfloat | Phalf | Pbyte | Pauto.

(** The levels a diagnostic is logged at; line 432 of the canvas passes
    the bare number 2. *)
Inductive LogLevel : Type := Dev | ModuleDev | Level (n : nat).

(** One constructor per diagnostic of the canvas, carrying the values the
    message template prints; the template for the height of the scale prints
    the first component, [frameScale[0]], like the one for the width. *)
Inductive Message : Type :=
| frame_width_scale_clamped (given : Q)
| frame_height_scale_clamped (given : Q)
| frame_scale_adjusted (scale given : vec2)
| frame_width_size_clamped (bound given : Q)
| frame_height_size_clamped (bound given : Q)
| frame_size_adjusted (size given : vec2).

(** References to renderer objects. *)
Definition RendererRef : Type := nat.

(** The graphics context is an opaque handle. *)
Definition Context : Type := nat.

(** Modelled from the spec: [AbstractRenderer] of [core/renderer], which is
    not part of the sources at hand.  A renderer is initialised once,
    receives frame size, clear colour and debug texture, and negotiates the
    frame precision: writing [p] stores what the renderer can honour,
    [supportedPrecision p]. *)
Record AbstractRenderer : Type := mkRenderer {
  r_initialized : bool;
  r_onInitialize : bool;
  r_context : option Context;
  r_frameSize : vec2;
  r_clearColor : Q * Q * Q * Q;
  r_framePrecision : FramePrecisionString;
  r_debugTexture : Z;
  supportedPrecision : FramePrecisionString -> FramePrecisionString
}.

(** Modelled from the spec: [Controller] of [core/controller], which is not
    part of the sources at hand: a boolean gate ([block], [unblock]) and
    the controlled renderer. *)
Record Controller : Type := mkController {
  blocked : bool;
  controllable : option RendererRef;
  multiFrameNumber : Z;
  debugFrameNumber : Z
}.

(** What the canvas does to its collaborators, in order. *)
Inductive Event : Type :=
| Log (level : LogLevel) (msg : Message)
| SizeNext (v : vec2)
| FrameScaleNext (v : vec2)
| FrameSizeNext (v : vec2)
| FramePrecisionNext (p : FramePrecisionString)
| CtlBlock
| CtlUnblock
| CtlControllable (r : option RendererRef)
| RInitialize (r : RendererRef)
| RUninitialize (r : RendererRef)
| RFrameSize (r : RendererRef) (v : vec2)
| RClearColor (r : RendererRef) (c : Q * Q * Q * Q)
| RFramePrecision (r : RendererRef) (p : FramePrecisionString)
| RDebugTexture (r : RendererRef) (t : Z).

(** Faults a method can throw. *)
Inductive Fault : Type :=
| AssertionFailed (msg : string)
| AlreadyInitialized (r : RendererRef).

(** The canvas element: the size the host lays it out at (what
    [Resizable.elementSize] reads) and its [width] and [height]. *)
Record HTMLCanvasElement : Type := mkElement {
  clientSize : vec2;
  width : Q;
  height : Q
}.

End Core.

(** ** The canvas *)

Module Canvas.

Import GlMatrix Core.
Local Open Scope Q_scope.

Record Canvas : Type := mkCanvas {
  _context : Context;
  _controller : Controller;
  _renderer : option RendererRef;
  _clearColor : Color;
  _framePrecision : FramePrecisionString;
  _size : vec2;
  _frameScale : vec2;
  _frameSize : vec2;
  _favorSizeOverScale : bool;
  _element : HTMLCanvasElement
}.

(** The canvas, the renderer objects it may refer to, and the trace of
    what has been done to the collaborators so far (oldest first). *)
Record World : Type := mkWorld {
  canvas : Canvas;
  renderers : RendererRef -> AbstractRenderer;
  trace : list Event
}.

(** How a method call ends: normally, or by throwing; the state reached is
    kept in both cases. *)
Inductive Completion : Type :=
| Normal (w : World)
| Throws (f : Fault) (w : World).

Definition andThen (c : Completion) (k : World -> Completion) : Completion :=
  match c with
  | Normal w => k w
  | Throws f w => Throws f w
  end.

(** The defaults of the class. *)
Definition DEFAULT_CLEAR_COLOR : Color :=
  mkColor (203 # 1000, 227 # 1000, 250 # 1000, 1).

Definition DEFAULT_FRAME_PRECISION : FramePrecisionString := Pauto.

Definition DEFAULT_MULTI_FRAME_NUMBER : Z := 0%Z.

(** *** field updates *)

Definition with_canvas (f : Canvas -> Canvas) (w : World) : World :=
  mkWorld (f (canvas w)) (renderers w) (trace w).

Definition emit (e : Event) (w : World) : World :=
  mkWorld (canvas w) (renderers w) (trace w ++ [e]).

Definition set_controller (k : Controller) (c : Canvas) : Canvas :=
  mkCanvas (_context c) k (_renderer c) (_clearColor c) (_framePrecision c)
           (_size c) (_frameScale c) (_frameSize c) (_favorSizeOverScale c) (_element c).

Definition set_renderer (r : option RendererRef) (c : Canvas) : Canvas :=
  mkCanvas (_context c) (_controller c) r (_clearColor c) (_framePrecision c)
           (_size c) (_frameScale c) (_frameSize c) (_favorSizeOverScale c) (_element c).

Definition set_clearColor (x : Color) (c : Canvas) : Canvas :=
  mkCanvas (_context c) (_controller c) (_renderer c) x (_framePrecision c)
           (_size c) (_frameScale c) (_frameSize c) (_favorSizeOverScale c) (_element c).

Definition set_framePrecision (p : FramePrecisionString) (c : Canvas) : Canvas :=
  mkCanvas (_context c) (_controller c) (_renderer c) (_clearColor c) p
           (_size c) (_frameScale c) (_frameSize c) (_favorSizeOverScale c) (_element c).

Definition set_size (v : vec2) (c : Canvas) : Canvas :=
  mkCanvas (_context c) (_controller c) (_renderer c) (_clearColor c) (_framePrecision c)
           v (_frameScale c) (_frameSize c) (_favorSizeOverScale c) (_element c).

Definition set_frame (scale size : vec2) (favor : bool) (c : Canvas) : Canvas :=
  mkCanvas (_context c) (_controller c) (_renderer c) (_clearColor c) (_framePrecision c)
           (_size c) scale size favor (_element c).

Definition set_element (e : HTMLCanvasElement) (c : Canvas) : Canvas :=
  mkCanvas (_context c) (_controller c) (_renderer c) (_clearColor c) (_framePrecision c)
           (_size c) (_frameScale c) (_frameSize c) (_favorSizeOverScale c) e.

Definition update_renderer (r : RendererRef) (f : AbstractRenderer -> AbstractRenderer)
           (w : World) : World :=
  mkWorld (canvas w)
          (fun r' => if Nat.eqb r' r then f (renderers w r) else renderers w r')
          (trace w).

(** *** collaborators *)

(** Modelled from the spec: [log_if] of [core/auxiliaries], which is not
    part of the sources at hand: it reports the diagnostic when the
    condition holds and never throws. *)
Definition log_if (cond : bool) (level : LogLevel) (msg : Message) (w : World) : World :=
  if cond then emit (Log level msg) w else w.

(** Modelled from the spec: [Controller.block], [Controller.unblock] and the
    [controllable] setter; the gate is a boolean, so blocking a blocked
    controller changes nothing but is still a call. *)
Definition controller_block (w : World) : World :=
  let k := _controller (canvas w) in
  emit CtlBlock
    (with_canvas (set_controller
       (mkController true (controllable k) (multiFrameNumber k) (debugFrameNumber k))) w).

Definition controller_unblock (w : World) : World :=
  let k := _controller (canvas w) in
  emit CtlUnblock
    (with_canvas (set_controller
       (mkController false (controllable k) (multiFrameNumber k) (debugFrameNumber k))) w).

Definition controller_set_controllable (r : option RendererRef) (w : World) : World :=
  let k := _controller (canvas w) in
  emit (CtlControllable r)
    (with_canvas (set_controller
       (mkController (blocked k) r (multiFrameNumber k) (debugFrameNumber k))) w).

(** Modelled from the spec: [AbstractRenderer.initialize]; initialising an
    initialised renderer is a fault, otherwise the renderer keeps the
    context and is initialised if its own [onInitialize] succeeds. *)
Definition renderer_initialize (r : RendererRef) (ctx : Context) (w : World) : Completion :=
  if r_initialized (renderers w r) then Throws (AlreadyInitialized r) w
  else
    Normal (emit (RInitialize r)
      (update_renderer r (fun o =>
         mkRenderer (r_onInitialize o) (r_onInitialize o) (Some ctx) (r_frameSize o)
                    (r_clearColor o) (r_framePrecision o) (r_debugTexture o)
                    (supportedPrecision o)) w)).

(** Modelled from the spec: [AbstractRenderer.uninitialize]. *)
Definition renderer_uninitialize (r : RendererRef) (w : World) : World :=
  emit (RUninitialize r)
    (update_renderer r (fun o =>
       mkRenderer false (r_onInitialize o) None (r_frameSize o)
                  (r_clearColor o) (r_framePrecision o) (r_debugTexture o)
                  (supportedPrecision o)) w).

(** Modelled from the spec: the property setters of [AbstractRenderer]. *)
Definition renderer_set_frameSize (r : RendererRef) (v : vec2) (w : World) : World :=
  emit (RFrameSize r v)
    (update_renderer r (fun o =>
       mkRenderer (r_initialized o) (r_onInitialize o) (r_context o) v
                  (r_clearColor o) (r_framePrecision o) (r_debugTexture o)
                  (supportedPrecision o)) w).

Definition renderer_set_clearColor (r : RendererRef) (c : Q * Q * Q * Q) (w : World) : World :=
  emit (RClearColor r c)
    (update_renderer r (fun o =>
       mkRenderer (r_initialized o) (r_onInitialize o) (r_context o) (r_frameSize o)
                  c (r_framePrecision o) (r_debugTexture o)
                  (supportedPrecision o)) w).

Definition renderer_set_framePrecision (r : RendererRef) (p : FramePrecisionString)
           (w : World) : World :=
  emit (RFramePrecision r p)
    (update_renderer r (fun o =>
       mkRenderer (r_initialized o) (r_onInitialize o) (r_context o) (r_frameSize o)
                  (r_clearColor o) (supportedPrecision o p) (r_debugTexture o)
                  (supportedPrecision o)) w).

Definition renderer_set_debugTexture (r : RendererRef) (t : Z) (w : World) : World :=
  emit (RDebugTexture r t)
    (update_renderer r (fun o =>
       mkRenderer (r_initialized o) (r_onInitialize o) (r_context o) (r_frameSize o)
                  (r_clearColor o) (r_framePrecision o) t
                  (supportedPrecision o)) w).

(** Modelled from the spec: [assert] of [core/auxiliaries]: throws when the
    condition does not hold. *)
Definition assert (cond : bool) (msg : string) (w : World) : Completion :=
  if cond then Normal w else Throws (AssertionFailed msg) w.

(** *** the subjects *)

Definition framePrecisionNext (w : World) : World :=
  emit (FramePrecisionNext (_framePrecision (canvas w))) w.

Definition sizeNext (w : World) : World :=
  emit (SizeNext (_size (canvas w))) w.

Definition frameScaleNext (w : World) : World :=
  emit (FrameScaleNext (_frameScale (canvas w))) w.

Definition frameSizeNext (w : World) : World :=
  emit (FrameSizeNext (_frameSize (canvas w))) w.

(** *** [set frameScale] *)

Definition frameScale_set (frameScale : vec2) (w : World) : World :=
  let w := log_if (Qlt_bool (fst frameScale) 0 || Qlt_bool 1 (fst frameScale)) Dev
                  (frame_width_scale_clamped (fst frameScale)) w in
  let w := log_if (Qlt_bool (snd frameScale) 0 || Qlt_bool 1 (snd frameScale)) Dev
                  (frame_height_scale_clamped (fst frameScale)) w in
  let scale := clamp2 frameScale (0, 0) (1, 1) in
  let size := mul (_size (canvas w)) scale in
  let size := max (1, 1) size in
  let size := round size in
  let scale := div size (_size (canvas w)) in
  let w := log_if (negb (exactEquals scale frameScale)) (Level 2)
                  (frame_scale_adjusted scale frameScale) w in
  let w := with_canvas (set_frame scale size false) w in
  let w := frameScaleNext w in
  let w := frameSizeNext w in
  match _renderer (canvas w) with
  | Some r => renderer_set_frameSize r (_frameSize (canvas w)) w
  | None => w
  end.

(** *** [set frameSize] *)

Definition frameSize_set (frameSize : vec2) (w : World) : World :=
  let S := _size (canvas w) in
  let w := log_if (Qlt_bool (fst frameSize) 1 || Qlt_bool (fst S) (fst frameSize)) Dev
                  (frame_width_size_clamped (fst S) (fst frameSize)) w in
  let w := log_if (Qlt_bool (snd frameSize) 1 || Qlt_bool (snd S) (snd frameSize)) Dev
                  (frame_height_size_clamped (snd S) (snd frameSize)) w in
  let size := clamp2 frameSize (1, 1) S in
  let size := round size in
  let w := log_if (negb (exactEquals size frameSize)) ModuleDev
                  (frame_size_adjusted size frameSize) w in
  let scale := div size S in
  let w := with_canvas (set_frame scale size (negb (exactEquals size S))) w in
  let w := frameScaleNext w in
  let w := frameSizeNext w in
  match _renderer (canvas w) with
  | Some r => renderer_set_frameSize r (_frameSize (canvas w)) w
  | None => w
  end.

(** *** [retrieveSize], [onResize], [resize]

    Modelled from the spec: [Resizable.elementSize] of [core/resizable],
    which is not part of the sources at hand, reads the native pixel size of
    the element; it is the [clientSize] of the element here. *)

Definition retrieveSize (w : World) : World :=
  let size := clientSize (_element (canvas w)) in
  sizeNext (with_canvas (set_size (fst size, snd size)) w).

Definition isSome {A : Type} (o : option A) : bool :=
  match o with Some _ => true | None => false end.

Definition onResize (w : World) : World :=
  let w := retrieveSize w in
  let w := with_canvas (fun c =>
             set_element (mkElement (clientSize (_element c))
                                    (fst (_size c)) (snd (_size c))) c) w in
  let w := if isSome (_renderer (canvas w)) then controller_block w else w in
  let w := if _favorSizeOverScale (canvas w)
           then frameSize_set (_frameSize (canvas w)) w
           else frameScale_set (_frameScale (canvas w)) w in
  if isSome (_renderer (canvas w)) then controller_unblock w else w.

Definition resize (w : World) : World := onResize w.

(** The host lays the element out at a new size and the resize handler
    runs. *)
Definition hostResize (newSize : vec2) (w : World) : World :=
  onResize (with_canvas (fun c =>
    set_element (mkElement newSize (width (_element c)) (height (_element c))) c) w).

(** *** [unbind], [bind], [dispose] *)

Definition unbind (w : World) : World :=
  match _renderer (canvas w) with
  | None => w
  | Some _ =>
      let w := controller_block w in
      let w := controller_set_controllable None w in
      with_canvas (set_renderer None) w
  end.

(** [this._renderer === renderer] *)
Definition same_renderer (a b : option RendererRef) : bool :=
  match a, b with
  | None, None => true
  | Some x, Some y => Nat.eqb x y
  | _, _ => false
  end.

(** The statements of [bind] that follow the initialisation of the
    renderer: the canvas hands the renderer its frame size, clear colour and
    frame precision, switches the debug texture off, makes the renderer the
    controllable and unblocks the controller. *)
Definition bind_configure (r : RendererRef) (w : World) : World :=
  let w := renderer_set_frameSize r (_frameSize (canvas w)) w in
  let w := renderer_set_clearColor r (rgba (_clearColor (canvas w))) w in
  let w := renderer_set_framePrecision r (_framePrecision (canvas w)) w in
  let w := renderer_set_debugTexture r (-1)%Z w in
  let w := controller_set_controllable (Some r) w in
  controller_unblock w.

Definition bind (renderer : option RendererRef) (w : World) : Completion :=
  if same_renderer (_renderer (canvas w)) renderer then Normal w
  else
    let w := unbind w in
    match renderer with
    | None => Normal w
    | Some r =>
        andThen (assert (blocked (_controller (canvas w)))
                        "expected controller to be blocked" w) (fun w =>
        let w := with_canvas (set_renderer (Some r)) w in
        andThen (renderer_initialize r (_context (canvas w)) w) (fun w =>
        Normal (bind_configure r w)))
    end.

(** [super.dispose()] only removes the resize listener of the page. *)
Definition dispose (w : World) : World :=
  match _renderer (canvas w) with
  | Some r => unbind (renderer_uninitialize r w)
  | None => w
  end.

(** *** further accessors *)

Definition renderer_get (w : World) : option RendererRef := _renderer (canvas w).

Definition frameScale_get (w : World) : vec2 := _frameScale (canvas w).

Definition frameSize_get (w : World) : vec2 := _frameSize (canvas w).

Definition clearColor_set (clearColor : Color) (w : World) : World :=
  let w := with_canvas (set_clearColor clearColor) w in
  match _renderer (canvas w) with
  | Some r => renderer_set_clearColor r (rgba (_clearColor (canvas w))) w
  | None => w
  end.

Definition framePrecision_get (w : World) : FramePrecisionString :=
  _framePrecision (canvas w).

Definition framePrecision_set (precision : FramePrecisionString) (w : World) : World :=
  let w := with_canvas (set_framePrecision precision) w in
  let w := match _renderer (canvas w) with
           | Some r =>
               let w := renderer_set_framePrecision r (_framePrecision (canvas w)) w in
               with_canvas (set_framePrecision (r_framePrecision (renderers w r))) w
           | None => w
           end in
  framePrecisionNext w.

(** How often [initialize] ran on renderer [r] in a trace. *)
Definition initializations (r : RendererRef) (t : list Event) : nat :=
  List.length (List.filter (fun e => match e with RInitialize r' => Nat.eqb r' r | _ => false end) t).

Definition is_gate (e : Event) : bool :=
  match e with CtlBlock | CtlUnblock => true | _ => false end.

(** The frame size one axis gets from a scale [s] on a surface of size
    [S], as [set frameScale] computes it. *)
Definition axisSize (S s : Q) : Q := Math_round (Qmax 1 (S * clamp s 0 1)).

(** Events that do not touch the gate of the controller. *)
Definition quiet (evs : list Event) : Prop :=
  forallb (fun e => negb (is_gate e)) evs = true.

(** The events a resize adds to the trace are bracketed: after the
    surface size is published the controller is blocked, then come events
    that do not touch the gate, among them the publication of the new
    frame scale and size, then the controller is unblocked. *)
Definition resizeBracketed (w : World) : Prop :=
  exists mid : list Event,
    trace (onResize w)
    = trace w ++ SizeNext (clientSize (_element (canvas w))) :: CtlBlock :: mid ++ [CtlUnblock]
    /\ quiet mid
    /\ In (FrameScaleNext (_frameScale (canvas (onResize w)))) mid
    /\ In (FrameSizeNext (_frameSize (canvas (onResize w)))) mid.

End Canvas.

(** ** Concrete canvases and labels *)

Module Examples.

Import GlMatrix Core.
Local Open Scope Q_scope.

(** A renderer that honours every precision. *)
Definition plainRenderer : AbstractRenderer :=
  mkRenderer false true None (1, 1) (0, 0, 0, 1) Pauto 0%Z (fun p => p).

(** A renderer without support for float targets: whatever is requested,
    it reports [byte]. *)
Definition byteRenderer : AbstractRenderer :=
  mkRenderer false true None (1, 1) (0, 0, 0, 1) Pbyte 0%Z (fun _ => Pbyte).

Definition someRenderers (r : RendererRef) : AbstractRenderer :=
  if Nat.eqb r 1 then byteRenderer else plainRenderer.

(** A canvas like the one the constructor leaves on a surface of the given
    size: no renderer, the controller blocked, scale one, the frame as large
    as the surface. *)
Definition freshCanvas (size : vec2) (p : FramePrecisionString) : Canvas.Canvas :=
  Canvas.mkCanvas 0%nat
    (mkController true None Canvas.DEFAULT_MULTI_FRAME_NUMBER 0%Z)
    None Canvas.DEFAULT_CLEAR_COLOR p
    size (1, 1) size false
    (mkElement size (fst size) (snd size)).

Definition freshWorld (size : vec2) (p : FramePrecisionString) : Canvas.World :=
  Canvas.mkWorld (freshCanvas size p) someRenderers [].

Definition surface800x600 : Canvas.World := freshWorld (800, 600) Pfloat.

Definition outcome (c : Canvas.Completion) : Canvas.World :=
  match c with
  | Canvas.Normal w => w
  | Canvas.Throws _ w => w
  end.

(** The same canvas after renderer 0 has been bound to it. *)
Definition bound800x600 : Canvas.World :=
  outcome (Canvas.bind (Some 0%nat) surface800x600).

End Examples.

(** ** The label *)

Module Label.

Import Core.
Local Open Scope Q_scope.

(** A JavaScript number: a finite value or [NaN]. *)
Inductive number : Type := NaN | Num (q : Q).

(** [a < b] and [a > b]; a comparison with [NaN] is false. *)
Definition lt (a b : number) : bool :=
  match a, b with
  | Num x, Num y => Qlt_bool x y
  | _, _ => false
  end.

Definition gt (a b : number) : bool := lt b a.

Definition add (a b : number) : number :=
  match a, b with
  | Num x, Num y => Num (x + y)
  | _, _ => NaN
  end.

Definition sub (a b : number) : number :=
  match a, b with
  | Num x, Num y => Num (x - y)
  | _, _ => NaN
  end.

Definition of_nat (n : nat) : number := Num (inject_Z (Z.of_nat n)).

(** The integer an index argument is converted to: [NaN] becomes 0, a
    fraction is cut off towards zero. *)
Definition toInteger (n : number) : Z :=
  match n with
  | NaN => 0%Z
  | Num q => Z.quot (Qnum q) (Zpos (Qden q))
  end.

(** [String.prototype.charCodeAt] and [String.prototype.charAt] *)
Definition String_charCodeAt (s : string) (index : number) : number :=
  let pos := toInteger index in
  if (pos <? 0)%Z then NaN
  else match String.get (Z.to_nat pos) s with
       | Some c => of_nat (nat_of_ascii c)
       | None => NaN
       end.

Definition String_charAt (s : string) (index : number) : string :=
  let pos := toInteger index in
  if (pos <? 0)%Z then EmptyString
  else match String.get (Z.to_nat pos) s with
       | Some c => String c EmptyString
       | None => EmptyString
       end.

(** Modelled from the spec: [ChangeLookup] of [changelookup], which is not
    part of the sources at hand, with the categories the label gives it:
    [alter] sets the category and [any], [reset] clears all. *)
Record ChangeLookup : Type := mkChanges {
  any : bool;
  color : bool;
  resources : bool;
  text : bool;
  typesetting : bool;
  transformation : bool
}.

Inductive Category : Type :=
| cat_color | cat_resources | cat_text | cat_typesetting | cat_transformation.

Definition alter (k : Category) (a : ChangeLookup) : ChangeLookup :=
  match k with
  | cat_color => mkChanges true true (resources a) (text a) (typesetting a) (transformation a)
  | cat_resources => mkChanges true (color a) true (text a) (typesetting a) (transformation a)
  | cat_text => mkChanges true (color a) (resources a) true (typesetting a) (transformation a)
  | cat_typesetting => mkChanges true (color a) (resources a) (text a) true (transformation a)
  | cat_transformation => mkChanges true (color a) (resources a) (text a) (typesetting a) true
  end.

Definition ChangeLookup_reset (a : ChangeLookup) : ChangeLookup :=
  mkChanges false false false false false false.

(** Modelled from the spec: [Text] of [text], which is not part of the
    sources at hand: a shared text buffer with its own alteration flag. *)
Record Text : Type := mkText {
  t_text : string;
  t_lineFeed : string;
  t_altered : bool
}.

Definition DEFAULT_LINEFEED : string := String (ascii_of_nat 10) EmptyString.

(** Modelled from the spec: [FontFace] of [fontface], which is not part of
    the sources at hand: the kerning of a pair of character codes and the
    advance of the glyph of a character code. *)
Record FontFace : Type := mkFontFace {
  kerning : number -> number -> number;
  glyph_advance : number -> number
}.

Definition TextRef : Type := nat.
Definition FontFaceRef : Type := nat.

(** [Text | string] *)
Inductive TextOrString : Type :=
| IsText (r : TextRef)
| IsString (s : string).

Module Alignment.
Inductive t : Type := Left | Center | Right.
Definition eqb (a b : t) : bool :=
  match a, b with
  | Left, Left | Center, Center | Right, Right => true
  | _, _ => false
  end.
End Alignment.

Module LineAnchor.
Inductive t : Type := Top | Ascent | Center | Baseline | Descent | Bottom.
Definition eqb (a b : t) : bool :=
  match a, b with
  | Top, Top | Ascent, Ascent | Center, Center
  | Baseline, Baseline | Descent, Descent | Bottom, Bottom => true
  | _, _ => false
  end.
End LineAnchor.

(** The fields hold values of their declared types. *)
Record Label : Type := mkLabel {
  _text : TextOrString;
  _wordWrap : bool;
  _alignment : Alignment.t;
  _lineAnchor : LineAnchor.t;
  _lineWidth : Q;
  _fontFace : FontFaceRef;
  _color : Color;
  _backgroundColor : Color;
  _altered : ChangeLookup
}.

(** The label and the shared objects it refers to. *)
Record World : Type := mkWorld {
  label : Label;
  texts : TextRef -> Text;
  fontFaces : FontFaceRef -> FontFace
}.

(** A method reads and writes the world and returns a value. *)
Definition Method (A : Type) : Type := World -> A * World.

Definition ret {A : Type} (a : A) : Method A := fun w => (a, w).

Definition seq {A B : Type} (m : Method A) (k : A -> Method B) : Method B :=
  fun w => let (a, w') := m w in k a w'.

Notation "x <- m ;; k" := (seq m (fun x => k))
  (at level 61, m at next level, right associativity).
Notation "m ;;; k" := (seq m (fun _ => k))
  (at level 61, right associativity).

Definition this : Method Label := fun w => (label w, w).

Definition assign (f : Label -> Label) : Method unit :=
  fun w => (tt, mkWorld (f (label w)) (texts w) (fontFaces w)).

(** Reading a property of a referenced object. *)
Definition theText (r : TextRef) : Method Text := fun w => (texts w r, w).

Definition theFontFace (r : FontFaceRef) : Method FontFace := fun w => (fontFaces w r, w).

Definition value {A : Type} (m : Method A) (w : World) : A := fst (m w).

Definition after {A : Type} (m : Method A) (w : World) : World := snd (m w).

(** *** field updates *)

Definition set_text (x : TextOrString) (l : Label) : Label :=
  mkLabel x (_wordWrap l) (_alignment l) (_lineAnchor l) (_lineWidth l)
          (_fontFace l) (_color l) (_backgroundColor l) (_altered l).

Definition set_wordWrap (x : bool) (l : Label) : Label :=
  mkLabel (_text l) x (_alignment l) (_lineAnchor l) (_lineWidth l)
          (_fontFace l) (_color l) (_backgroundColor l) (_altered l).

Definition set_alignment (x : Alignment.t) (l : Label) : Label :=
  mkLabel (_text l) (_wordWrap l) x (_lineAnchor l) (_lineWidth l)
          (_fontFace l) (_color l) (_backgroundColor l) (_altered l).

Definition set_lineAnchor (x : LineAnchor.t) (l : Label) : Label :=
  mkLabel (_text l) (_wordWrap l) (_alignment l) x (_lineWidth l)
          (_fontFace l) (_color l) (_backgroundColor l) (_altered l).

Definition set_fontFace (x : FontFaceRef) (l : Label) : Label :=
  mkLabel (_text l) (_wordWrap l) (_alignment l) (_lineAnchor l) (_lineWidth l)
          x (_color l) (_backgroundColor l) (_altered l).

Definition set_color (x : Color) (l : Label) : Label :=
  mkLabel (_text l) (_wordWrap l) (_alignment l) (_lineAnchor l) (_lineWidth l)
          (_fontFace l) x (_backgroundColor l) (_altered l).

Definition set_backgroundColor (x : Color) (l : Label) : Label :=
  mkLabel (_text l) (_wordWrap l) (_alignment l) (_lineAnchor l) (_lineWidth l)
          (_fontFace l) (_color l) x (_altered l).

Definition set_altered (x : ChangeLookup) (l : Label) : Label :=
  mkLabel (_text l) (_wordWrap l) (_alignment l) (_lineAnchor l) (_lineWidth l)
          (_fontFace l) (_color l) (_backgroundColor l) x.

(** [this._altered.alter(category)] *)
Definition altered_alter (k : Category) : Method unit :=
  assign (fun l => set_altered (alter k (_altered l)) l).

(** *** characters *)

Definition charAt (index : number) : Method string :=
  l <- this ;;
  match _text l with
  | IsText r => t <- theText r ;; ret (String_charAt (t_text t) index)
  | IsString s => ret (String_charAt s index)
  end.

Definition charCodeAt (index : number) : Method number :=
  l <- this ;;
  match _text l with
  | IsText r => t <- theText r ;; ret (String_charCodeAt (t_text t) index)
  | IsString s => ret (String_charCodeAt s index)
  end.

(** [get length].  Modelled from the spec: the [length] of a [Text] is the
    length of its string. *)
Definition length : Method number :=
  l <- this ;;
  match _text l with
  | IsText r => t <- theText r ;; ret (of_nat (String.length (t_text t)))
  | IsString s => ret (of_nat (String.length s))
  end.

Definition lineFeed : Method string :=
  l <- this ;;
  match _text l with
  | IsText r => t <- theText r ;; ret (t_lineFeed t)
  | IsString _ => ret DEFAULT_LINEFEED
  end.

Definition lineFeedAt (index : number) : Method bool :=
  c <- charAt index ;;
  f <- lineFeed ;;
  ret (String.eqb c f).

(** *** glyph metrics

    The guards read [length] before they compare; reading it has no effect,
    so the order of the two comparisons does not show. *)

Definition kerningBefore (index : number) : Method number :=
  n <- length ;;
  if lt index (Num 1) || gt index n then ret NaN
  else
    l <- this ;;
    face <- theFontFace (_fontFace l) ;;
    a <- charCodeAt (sub index (Num 1)) ;;
    b <- charCodeAt index ;;
    ret (kerning face a b).

Definition kerningAfter (index : number) : Method number :=
  n <- length ;;
  if lt index (Num 0) || gt index (sub n (Num 1)) then ret NaN
  else
    l <- this ;;
    face <- theFontFace (_fontFace l) ;;
    a <- charCodeAt index ;;
    b <- charCodeAt (add index (Num 1)) ;;
    ret (kerning face a b).

Definition advance (index : number) : Method number :=
  n <- length ;;
  if lt index (Num 0) || gt index n then ret NaN
  else
    l <- this ;;
    face <- theFontFace (_fontFace l) ;;
    a <- charCodeAt index ;;
    ret (glyph_advance face a).

(** *** property setters and getters *)

Definition text_set (x : TextOrString) : Method unit :=
  altered_alter cat_text ;;;
  assign (set_text x).

Definition text_get : Method TextOrString :=
  l <- this ;; ret (_text l).

Definition wordWrap_set (wrap : bool) : Method unit :=
  l <- this ;;
  if Bool.eqb (_wordWrap l) wrap then ret tt
  else
    altered_alter cat_typesetting ;;;
    assign (set_wordWrap wrap).

Definition wordWrap_get : Method bool :=
  l <- this ;; ret (_wordWrap l).

Definition alignment_set (alignment : Alignment.t) : Method unit :=
  l <- this ;;
  if Alignment.eqb (_alignment l) alignment then ret tt
  else
    altered_alter cat_typesetting ;;;
    assign (set_alignment alignment).

Definition alignment_get : Method Alignment.t :=
  l <- this ;; ret (_alignment l).

Definition lineAnchor_set (anchor : LineAnchor.t) : Method unit :=
  l <- this ;;
  if LineAnchor.eqb (_lineAnchor l) anchor then ret tt
  else
    altered_alter cat_typesetting ;;;
    assign (set_lineAnchor anchor).

Definition lineAnchor_get : Method LineAnchor.t :=
  l <- this ;; ret (_lineAnchor l).

Definition lineWidth_get : Method Q :=
  l <- this ;; ret (_lineWidth l).

Definition fontFace_set (fontFace : FontFaceRef) : Method unit :=
  l <- this ;;
  if Nat.eqb (_fontFace l) fontFace then ret tt
  else
    altered_alter cat_typesetting ;;;
    altered_alter cat_resources ;;;
    assign (set_fontFace fontFace).

Definition fontFace_get : Method FontFaceRef :=
  l <- this ;; ret (_fontFace l).

Definition color_set (c : Color) : Method unit :=
  l <- this ;;
  if Color_equals (_color l) c then ret tt
  else
    altered_alter cat_color ;;;
    assign (set_color c).

Definition color_get : Method Color :=
  l <- this ;; ret (_color l).

Definition backgroundColor_set (c : Color) : Method unit :=
  l <- this ;;
  if Color_equals (_backgroundColor l) c then ret tt
  else
    altered_alter cat_color ;;;
    assign (set_backgroundColor c).

Definition backgroundColor_get : Method Color :=
  l <- this ;; ret (_backgroundColor l).

Definition toString : Method string :=
  l <- this ;;
  match _text l with
  | IsText r => t <- theText r ;; ret (t_text t)
  | IsString s => ret s
  end.

(** *** alteration status *)

Definition altered : Method bool :=
  l <- this ;;
  if any (_altered l) then ret true
  else match _text l with
       | IsText r => t <- theText r ;; ret (t_altered t)
       | IsString _ => ret false
       end.

Definition reset : Method unit :=
  assign (fun l => set_altered (ChangeLookup_reset (_altered l)) l).

(** Value equality of what a [text] property holds: the same [Text]
    object, or strings with the same characters. *)
Definition TextOrString_eqb (a b : TextOrString) : bool :=
  match a, b with
  | IsText r, IsText r' => Nat.eqb r r'
  | IsString s, IsString s' => String.eqb s s'
  | _, _ => false
  end.

End Label.

(** ** Concrete labels *)

Module LabelExamples.

Import Core Label.
Local Open Scope Q_scope.

Definition black : Color := mkColor (0, 0, 0, 1).

Definition white : Color := mkColor (1, 1, 1, 1).

(** The same colour as [black], written with other fractions. *)
Definition black' : Color := mkColor (0 # 2, 0 # 3, 0 # 5, 2 # 2).

Definition clean : ChangeLookup := mkChanges false false false false false false.

(** A face with a kerning of -1 between any two glyphs and an advance of
    10 for every glyph. *)
Definition monospace : FontFace :=
  mkFontFace (fun _ _ => Num (- (1))) (fun _ => Num 10).

Definition hello : Text := mkText "Hello" DEFAULT_LINEFEED true.

(** A label on the string "abc", nothing altered. *)
Definition plainLabel : Label :=
  mkLabel (IsString "abc") false Alignment.Left LineAnchor.Baseline 0 0%nat
          black white clean.

Definition plainWorld : World :=
  mkWorld plainLabel (fun _ => hello) (fun _ => monospace).

(** A label on the shared text 0, which is altered; the label is not. *)
Definition sharingWorld : World :=
  mkWorld (set_text (IsText 0%nat) plainLabel) (fun _ => hello) (fun _ => monospace).

End LabelExamples.



(** ** The life-cycle of a binding: states and invariants *)

Module Binding.

Import GlMatrix Core Canvas.
Local Open Scope Q_scope.

(** A renderer object as a successful call of [initialize] leaves it. *)
Definition initialized_with (ctx : Context) (o : AbstractRenderer) : AbstractRenderer :=
  mkRenderer (r_onInitialize o) (r_onInitialize o) (Some ctx) (r_frameSize o)
             (r_clearColor o) (r_framePrecision o) (r_debugTexture o)
             (supportedPrecision o).

(** The world in the middle of [bind], after [this._renderer = renderer]
    and the initialisation of the renderer (lines 311 to 318). *)
Definition attached (p : RendererRef) (u : World) : World :=
  emit (RInitialize p)
    (update_renderer p (initialized_with (_context (canvas u)))
       (with_canvas (set_renderer (Some p)) u)).

(** The fields of the canvas that neither [bind] nor [unbind] writes. *)
Definition settings (c : Canvas) :=
  (_context c, _clearColor c, _framePrecision c, _size c, _frameScale c, _frameSize c,
   _favorSizeOverScale c, _element c).


(** Without a renderer the controller is blocked. *)
Definition gated (w : World) : Prop :=
  renderer_get w = None -> blocked (_controller (canvas w)) = true.

(** The controller controls the renderer that is bound, or nothing. *)
Definition coupled (w : World) : Prop :=
  controllable (_controller (canvas w)) = renderer_get w.

(** The renderer that is bound has the frame size and the clear colour of
    the canvas. *)
Definition inSync (w : World) : Prop :=
  forall r : RendererRef,
    renderer_get w = Some r ->
    r_frameSize (renderers w r) = frameSize_get w
    /\ r_clearColor (renderers w r) = rgba (_clearColor (canvas w)).

(** The state a call ends in, however it ends. *)
Definition stateOf (c : Completion) : World :=
  match c with
  | Normal w => w
  | Throws _ w => w
  end.

(** How often [uninitialize] ran on renderer [r] in a trace. *)
Definition uninitializations (r : RendererRef) (t : list Event) : nat :=
  List.length
    (List.filter (fun e => match e with RUninitialize r' => Nat.eqb r' r | _ => false end) t).

(** A surface of a whole number of pixels per axis, at least one and
    below 2^24, where single precision holds every whole number. *)
Definition wholeSurface (s : vec2) : Prop :=
  round s = s
  /\ (1 <= fst s /\ fst s < 16777216)%Q
  /\ (1 <= snd s /\ snd s < 16777216)%Q.

(** The host lays the element out at one size after the other. *)
Definition hostResizes (sizes : list vec2) (w : World) : World :=
  List.fold_left (fun w s => hostResize s w) sizes w.

(** The last event of a trace. *)
Definition lastEvent (t : list Event) : option Event := List.last (List.map Some t) None.

End Binding.

(** ** Initial configuration from the data attributes *)

Module Setup.

Import GlMatrix Core Canvas.
Local Open Scope Q_scope.

(** The data attributes [configureSizeAndScale] reads; an attribute that is
    not given is [undefined]. *)
Record DOMStringMap : Type := mkDataset {
  frameScale : option string;
  frameSize : option string
}.

(** [if (attribute)]: an attribute counts when it is given and not empty. *)
Definition given (a : option string) : option string :=
  match a with
  | Some (String c s) => Some (String c s)
  | _ => None
  end.

(** The diagnostics of [configureSizeAndScale], with the text that could
    not be parsed. *)
Inductive DataWarning : Type :=
| frame_scale_not_parsed (text : string)
| frame_size_not_parsed (text : string).

Section WithParser.

(** [parseVec2] of [core/gl-matrix-extensions] is not part of the sources at
    hand: it is a parameter, [None] standing for [undefined]. *)
Variable parseVec2 : string -> option vec2.

(** The value parsed from an attribute, and the diagnostic when the
    attribute counts and cannot be parsed. *)
Definition parsed (a : option string) (warning : string -> DataWarning)
  : option vec2 * list DataWarning :=
  match given a with
  | Some text =>
      match parseVec2 text with
      | Some v => (Some v, [])
      | None => (None, [warning text])
      end
  | None => (None, [])
  end.

(** [configureSizeAndScale]: the world it leaves and the diagnostics it
    logs, which come before the events of the resize. *)
Definition configureSizeAndScale (dataset : DOMStringMap) (w : World)
  : World * list DataWarning :=
  let '(dataFrameScale, log1) := parsed (frameScale dataset) frame_scale_not_parsed in
  let scale := match dataFrameScale with Some v => (fst v, snd v) | None => (1, 1) end in
  let '(dataFrameSize, log2) := parsed (frameSize dataset) frame_size_not_parsed in
  let favor := match dataFrameSize with Some _ => true | None => false end in
  let size := match dataFrameSize with
              | Some v => (fst v, snd v)
              | None => (fst (_size (canvas w)), snd (_size (canvas w)))
              end in
  (onResize (with_canvas (set_frame scale size favor) w), log1 ++ log2).

End WithParser.

End Setup.

(** ** The demos: callers of the canvas *)

Module Demo.

Import GlMatrix Core Canvas.
Local Open Scope Q_scope.



(** [GltfDemo.uninitialize], whose renderer has an empty [onUninitialize]
    hook (line 28).  [PointCloudsDemo.uninitialize] has the same two
    statements, but the hook of its renderer calls [uninitialize] again
    (line 165); it is not covered. *)
Definition uninitialize (renderer : RendererRef) (w : World) : World :=
  let w := dispose w in
  renderer_uninitialize renderer w.

End Demo.

(** ** More concrete canvases *)

Module MoreExamples.

Import GlMatrix Core Canvas.
Local Open Scope Q_scope.

(** The canvas without a renderer after [canvas.controller.unblock()]. *)
Definition unblocked800x600 : World := controller_unblock Examples.surface800x600.

(** The canvas after renderer 0 was bound and unbound: renderer 0 stays
    initialised. *)
Definition released800x600 : World := unbind Examples.bound800x600.

(** The canvas after the renderer that only honours [byte] was bound. *)
Definition byteBound800x600 : World :=
  Examples.outcome (bind (Some 1%nat) Examples.surface800x600).

(** The canvas after the frame size was set to 640 x 480. *)
Definition sized640x480 : World := frameSize_set (640, 480) Examples.surface800x600.

(** A parser that knows two texts. *)
Definition toyParse (text : string) : option vec2 :=
  if String.eqb text "640,480" then Some (640, 480)
  else if String.eqb text "0.5,0.5" then Some (1 # 2, 1 # 2)
  else None.


End MoreExamples.

(** ** Further notions of the label *)

Module LabelMore.

Import Core Label.

(** The world with the text of the label replaced by a string. *)
Definition withString (s : string) (w : World) : World :=
  mkWorld (set_text (IsString s) (label w)) (texts w) (fontFaces w).

(** The flag of a category. *)
Definition flag (k : Category) (a : ChangeLookup) : bool :=
  match k with
  | cat_color => color a
  | cat_resources => resources a
  | cat_text => text a
  | cat_typesetting => typesetting a
  | cat_transformation => transformation a
  end.

Definition Category_eqb (j k : Category) : bool :=
  match j, k with
  | cat_color, cat_color | cat_resources, cat_resources | cat_text, cat_text
  | cat_typesetting, cat_typesetting | cat_transformation, cat_transformation => true
  | _, _ => false
  end.

(** From [a] to [a'] exactly the categories [ks] were marked: [any] is set,
    the flags of [ks] are set, the other flags are as they were. *)
Definition marked (ks : list Category) (a a' : ChangeLookup) : Prop :=
  any a' = true
  /\ forall k, flag k a' = (flag k a || existsb (Category_eqb k) ks)%bool.

(** The properties of a label that its setters write. *)
Definition properties (l : Label) :=
  (_text l, _wordWrap l, _alignment l, _lineAnchor l, _fontFace l, _color l,
   _backgroundColor l).

(** A whole index. *)
Definition whole (i : Z) : number := Num (inject_Z i).

End LabelMore.

(** ** Numbers as the program computes with them *)

Module Ieee.

Local Open Scope Q_scope.

(** A [number] of the language: [NaN], an infinity, or a finite value.
    The sign of a zero is not represented; the numbers that meet a zero here
    are the extents of a surface, which are not negative. *)
Inductive number : Type :=
| NaN
| Infinity (negative : bool)
| Finite (q : Q).

(** A binary format: the number of significant bits, the exponent of the
    smallest positive value and the exponent of the first power of two that
    overflows. *)
Record format : Type := mkFormat { precision : Z; emin : Z; emax : Z }.

Definition binary32 : format := mkFormat 24 (-149) 128.

Definition binary64 : format := mkFormat 53 (-1074) 1024.

Definition pow2 (e : Z) : Q := 2 ^ e.

(** The exponent [e] with [2^e <= x < 2^(e+1)], for positive [x]. *)
Definition ilog2 (x : Q) : Z :=
  let e := (Z.log2 (Qnum x) - Z.log2 (Zpos (Qden x)))%Z in
  if Qle_bool (pow2 e) x then e else (e - 1)%Z.

(** The integer nearest to [m], ties to the even one. *)
Definition nearest_even (m : Q) : Z :=
  let f := Qfloor m in
  match Qcompare (m - inject_Z f) (1 # 2) with
  | Lt => f
  | Gt => (f + 1)%Z
  | Eq => if Z.even f then f else (f + 1)%Z
  end.

(** The exponent of the last significant bit of [x] in a format. *)
Definition exponent (fmt : format) (x : Q) : Z :=
  Z.max (ilog2 x + 1 - precision fmt) (emin fmt).

(** Rounding of a positive value to the nearest value of the format, ties
    to even; [None] when the result overflows. *)
Definition round_magnitude (fmt : format) (x : Q) : option Q :=
  let e := exponent fmt x in
  let v := Qred (inject_Z (nearest_even (x / pow2 e)) * pow2 e) in
  if Qle_bool (pow2 (emax fmt)) v then None else Some v.

Definition rnd (fmt : format) (x : Q) : number :=
  match Qcompare x 0 with
  | Eq => Finite 0
  | Gt => match round_magnitude fmt x with
          | Some v => Finite v
          | None => Infinity false
          end
  | Lt => match round_magnitude fmt (- x) with
          | Some v => Finite (- v)
          | None => Infinity true
          end
  end.

(** The value of [round_magnitude] before the overflow test. *)
Definition grid (fmt : format) (x : Q) : Q :=
  inject_Z (nearest_even (x / pow2 (exponent fmt x))) * pow2 (exponent fmt x).

(** What the two formats of the program have in common. *)
Definition standard (fmt : format) : Prop :=
  (0 < precision fmt /\ emin fmt <= 0 /\ precision fmt < emax fmt)%Z.

(** The result of an arithmetic operation whose exact value is [x]. *)
Definition double (x : Q) : number := rnd binary64 x.

(** A whole number. *)
Definition whole (z : Z) : number := Finite (inject_Z z).

(** What a store into a [Float32Array] keeps of a number. *)
Definition fround (a : number) : number :=
  match a with
  | Finite x => rnd binary32 x
  | _ => a
  end.

(** A decimal literal of the program text denotes the nearest double. *)
Definition literal (x : Q) : number := double x.

(** [a < b]: false as soon as one side is [NaN]. *)
Definition lt (a b : number) : bool :=
  match a, b with
  | NaN, _ | _, NaN => false
  | Finite x, Finite y => negb (Qle_bool y x)
  | Finite _, Infinity s => negb s
  | Infinity s, Finite _ => s
  | Infinity s, Infinity t => s && negb t
  end.

(** [a > b] *)
Definition gt (a b : number) : bool := lt b a.

(** [a === b]: [NaN] equals nothing. *)
Definition strictEquals (a b : number) : bool :=
  match a, b with
  | Finite x, Finite y => Qeq_bool x y
  | Infinity s, Infinity t => Bool.eqb s t
  | _, _ => false
  end.

(** [Math.max(a, b)] and [Math.min(a, b)] *)
Definition Math_max (a b : number) : number :=
  match a, b with
  | NaN, _ | _, NaN => NaN
  | _, _ => if lt a b then b else a
  end.

Definition Math_min (a b : number) : number :=
  match a, b with
  | NaN, _ | _, NaN => NaN
  | _, _ => if lt b a then b else a
  end.

(** [Math.round(a)]: the integer nearest to [a], ties towards +infinity. *)
Definition Math_round (a : number) : number :=
  match a with
  | Finite x => Finite (inject_Z (Qfloor (x + (1 # 2))))
  | _ => a
  end.

(** [a * b] *)
Definition mul (a b : number) : number :=
  match a, b with
  | NaN, _ | _, NaN => NaN
  | Finite x, Finite y => double (x * y)
  | Infinity s, Finite y | Finite y, Infinity s =>
      match Qcompare y 0 with
      | Eq => NaN
      | Gt => Infinity s
      | Lt => Infinity (negb s)
      end
  | Infinity s, Infinity t => Infinity (xorb s t)
  end.

(** [a / b] *)
Definition div (a b : number) : number :=
  match a, b with
  | NaN, _ | _, NaN => NaN
  | Finite x, Finite y =>
      match Qcompare y 0 with
      | Eq => match Qcompare x 0 with
              | Eq => NaN
              | Gt => Infinity false
              | Lt => Infinity true
              end
      | _ => double (x / y)
      end
  | Finite _, Infinity _ => Finite 0
  | Infinity s, Finite y =>
      match Qcompare y 0 with
      | Lt => Infinity (negb s)
      | _ => Infinity s
      end
  | Infinity _, Infinity _ => NaN
  end.

End Ieee.

(** ** gl-matrix: the [vec2] operations with a [Float32Array] as output *)

Module Float32Array.

Import Ieee.
Local Open Scope Q_scope.

(** A [vec2] of gl-matrix or an array of two numbers; what is read from a
    [Float32Array] is the number that was stored. *)
Definition vec2 : Type := (number * number)%type.

(** [vec2.mul(out, a, b)] *)
Definition mul (a b : vec2) : vec2 :=
  (fround (Ieee.mul (fst a) (fst b)), fround (Ieee.mul (snd a) (snd b))).

(** [vec2.div(out, a, b)] *)
Definition div (a b : vec2) : vec2 :=
  (fround (Ieee.div (fst a) (fst b)), fround (Ieee.div (snd a) (snd b))).

(** [vec2.max(out, a, b)] *)
Definition max (a b : vec2) : vec2 :=
  (fround (Math_max (fst a) (fst b)), fround (Math_max (snd a) (snd b))).

(** [vec2.round(out, a)] *)
Definition round (a : vec2) : vec2 :=
  (fround (Math_round (fst a)), fround (Math_round (snd a))).

(** [vec2.exactEquals(a, b)]: [a[0] === b[0] && a[1] === b[1]] *)
Definition exactEquals (a b : vec2) : bool :=
  strictEquals (fst a) (fst b) && strictEquals (snd a) (snd b).

(** Modelled from the spec: [clamp2] of [core/gl-matrix-extensions], which
    is not part of the sources at hand; it clamps each component of [x] to
    the interval given by the same component of [lo] and [hi], as
    [Math.max(lo, Math.min(hi, x))], and stores the result in [out]. *)
Definition clamp (x lo hi : number) : number := Math_max lo (Math_min hi x).

Definition clamp2 (x lo hi : vec2) : vec2 :=
  (fround (clamp (fst x) (fst lo) (fst hi)), fround (clamp (snd x) (snd lo) (snd hi))).

(** The exact value of a number clamped to the interval from [lo] to [hi];
    [NaN] has none, and the value given for it is not used. *)
Definition clamped (s : number) (lo hi : Q) : Q :=
  match s with
  | Finite q => Qmax lo (Qmin hi q)
  | Infinity true => lo
  | _ => hi
  end.

End Float32Array.

(** ** The frame of the canvas, in floating point *)

Module FloatCanvas.

Import Ieee Float32Array Core.
Local Open Scope Q_scope.

(** The diagnostics of the frame setters, with the values the message
    template prints; the template for the height of the scale prints the
    first component, [frameScale[0]], like the one for the width. *)
Inductive Message : Type :=
| frame_width_scale_clamped (given : number)
| frame_height_scale_clamped (given : number)
| frame_scale_adjusted (scale given : vec2)
| frame_width_size_clamped (bound given : number)
| frame_height_size_clamped (bound given : number)
| frame_size_adjusted (size given : vec2).

(** What the frame setters and the resize handler do to the collaborators,
    in order. *)
Inductive Event : Type :=
| Log (level : LogLevel) (msg : Message)
| SizeNext (v : vec2)
| FrameScaleNext (v : vec2)
| FrameSizeNext (v : vec2)
| CtlBlock
| CtlUnblock
| RFrameSize (r : RendererRef) (v : vec2).

Record HTMLCanvasElement : Type := mkElement {
  clientSize : vec2;
  width : number;
  height : number
}.

(** The fields of the canvas that the frame setters and the resize handler
    read or write. *)
Record Canvas : Type := mkCanvas {
  _controller : Controller;
  _renderer : option RendererRef;
  _size : vec2;
  _frameScale : vec2;
  _frameSize : vec2;
  _favorSizeOverScale : bool;
  _element : HTMLCanvasElement
}.

(** The canvas, the [frameSize] property of the renderer objects, and the
    trace of what has been done to the collaborators so far (oldest
    first). *)
Record World : Type := mkWorld {
  canvas : Canvas;
  rendererFrameSize : RendererRef -> vec2;
  trace : list Event
}.

Definition with_canvas (f : Canvas -> Canvas) (w : World) : World :=
  mkWorld (f (canvas w)) (rendererFrameSize w) (trace w).

Definition emit (e : Event) (w : World) : World :=
  mkWorld (canvas w) (rendererFrameSize w) (trace w ++ [e]).

Definition set_controller (k : Controller) (c : Canvas) : Canvas :=
  mkCanvas k (_renderer c) (_size c) (_frameScale c) (_frameSize c)
           (_favorSizeOverScale c) (_element c).

Definition set_size (v : vec2) (c : Canvas) : Canvas :=
  mkCanvas (_controller c) (_renderer c) v (_frameScale c) (_frameSize c)
           (_favorSizeOverScale c) (_element c).

Definition set_frame (scale size : vec2) (favor : bool) (c : Canvas) : Canvas :=
  mkCanvas (_controller c) (_renderer c) (_size c) scale size favor (_element c).

Definition set_element (e : HTMLCanvasElement) (c : Canvas) : Canvas :=
  mkCanvas (_controller c) (_renderer c) (_size c) (_frameScale c) (_frameSize c)
           (_favorSizeOverScale c) e.

(** Modelled from the spec: [log_if] of [core/auxiliaries], which is not
    part of the sources at hand: it reports the diagnostic when the
    condition holds and never throws. *)
Definition log_if (cond : bool) (level : LogLevel) (msg : Message) (w : World) : World :=
  if cond then emit (Log level msg) w else w.

(** Modelled from the spec: [Controller.block] and [Controller.unblock];
    the gate is a boolean. *)
Definition controller_block (w : World) : World :=
  let k := _controller (canvas w) in
  emit CtlBlock
    (with_canvas (set_controller
       (mkController true (controllable k) (multiFrameNumber k) (debugFrameNumber k))) w).

Definition controller_unblock (w : World) : World :=
  let k := _controller (canvas w) in
  emit CtlUnblock
    (with_canvas (set_controller
       (mkController false (controllable k) (multiFrameNumber k) (debugFrameNumber k))) w).

(** Modelled from the spec: the [frameSize] setter of [AbstractRenderer]
    stores the size. *)
Definition renderer_set_frameSize (r : RendererRef) (v : vec2) (w : World) : World :=
  emit (RFrameSize r v)
    (mkWorld (canvas w)
             (fun r' => if Nat.eqb r' r then v else rendererFrameSize w r')
             (trace w)).

Definition sizeNext (w : World) : World :=
  emit (SizeNext (_size (canvas w))) w.

Definition frameScaleNext (w : World) : World :=
  emit (FrameScaleNext (_frameScale (canvas w))) w.

Definition frameSizeNext (w : World) : World :=
  emit (FrameSizeNext (_frameSize (canvas w))) w.

(** *** [set frameScale]

    Modelled from the spec: [tuple2] of [core/gl-matrix-extensions], which
    is not part of the sources at hand, copies the two components of a
    vector into an array. *)

Definition frameScale_set (frameScale : vec2) (w : World) : World :=
  let w := log_if (lt (fst frameScale) (Finite 0) || gt (fst frameScale) (Finite 1)) Dev
                  (frame_width_scale_clamped (fst frameScale)) w in
  let w := log_if (lt (snd frameScale) (Finite 0) || gt (snd frameScale) (Finite 1)) Dev
                  (frame_height_scale_clamped (fst frameScale)) w in
  let scale := clamp2 frameScale (Finite 0, Finite 0) (Finite 1, Finite 1) in
  let size := mul (_size (canvas w)) scale in
  let size := max (Finite 1, Finite 1) size in
  let size := round size in
  let scale := div size (_size (canvas w)) in
  let w := log_if (negb (exactEquals scale frameScale)) (Level 2)
                  (frame_scale_adjusted scale frameScale) w in
  let w := with_canvas (set_frame scale size false) w in
  let w := frameScaleNext w in
  let w := frameSizeNext w in
  match _renderer (canvas w) with
  | Some r => renderer_set_frameSize r (_frameSize (canvas w)) w
  | None => w
  end.

(** *** [set frameSize] *)

Definition frameSize_set (frameSize : vec2) (w : World) : World :=
  let S := _size (canvas w) in
  let w := log_if (lt (fst frameSize) (Finite 1) || gt (fst frameSize) (fst S)) Dev
                  (frame_width_size_clamped (fst S) (fst frameSize)) w in
  let w := log_if (lt (snd frameSize) (Finite 1) || gt (snd frameSize) (snd S)) Dev
                  (frame_height_size_clamped (snd S) (snd frameSize)) w in
  let size := clamp2 frameSize (Finite 1, Finite 1) S in
  let size := round size in
  let w := log_if (negb (exactEquals size frameSize)) ModuleDev
                  (frame_size_adjusted size frameSize) w in
  let scale := div size S in
  let w := with_canvas (set_frame scale size (negb (exactEquals size S))) w in
  let w := frameScaleNext w in
  let w := frameSizeNext w in
  match _renderer (canvas w) with
  | Some r => renderer_set_frameSize r (_frameSize (canvas w)) w
  | None => w
  end.

(** *** [retrieveSize], [onResize], [resize]

    Modelled from the spec: [Resizable.elementSize] of [core/resizable],
    which is not part of the sources at hand, reads the native pixel size of
    the element; it is the [clientSize] of the element here. *)

Definition retrieveSize (w : World) : World :=
  let size := clientSize (_element (canvas w)) in
  sizeNext (with_canvas (set_size (fst size, snd size)) w).

Definition isSome {A : Type} (o : option A) : bool :=
  match o with Some _ => true | None => false end.

Definition onResize (w : World) : World :=
  let w := retrieveSize w in
  let w := with_canvas (fun c =>
             set_element (mkElement (clientSize (_element c))
                                    (fst (_size c)) (snd (_size c))) c) w in
  let w := if isSome (_renderer (canvas w)) then controller_block w else w in
  let w := if _favorSizeOverScale (canvas w)
           then frameSize_set (_frameSize (canvas w)) w
           else frameScale_set (_frameScale (canvas w)) w in
  if isSome (_renderer (canvas w)) then controller_unblock w else w.

Definition resize (w : World) : World := onResize w.

(** The host lays the element out at a new size and the resize handler
    runs. *)
Definition hostResize (newSize : vec2) (w : World) : World :=
  onResize (with_canvas (fun c =>
    set_element (mkElement newSize (width (_element c)) (height (_element c))) c) w).

(** *** accessors *)

Definition frameScale_get (w : World) : vec2 := _frameScale (canvas w).

Definition frameSize_get (w : World) : vec2 := _frameSize (canvas w).

(** The frame size and scale of one axis as [set frameScale] computes
    them from the extent [S] of the surface and the scale [s]. *)
Definition scaleAxis (S s : number) : number * number :=
  let scale := fround (clamp s (Finite 0) (Finite 1)) in
  let size := fround (Ieee.mul S scale) in
  let size := fround (Math_max (Finite 1) size) in
  let size := fround (Math_round size) in
  (size, fround (Ieee.div size S)).

(** The same for [set frameSize] and the size [s]. *)
Definition sizeAxis (S s : number) : number * number :=
  let size := fround (clamp s (Finite 1) S) in
  let size := fround (Math_round size) in
  (size, fround (Ieee.div size S)).

(** Events that touch the gate of the controller. *)
Definition is_gate (e : Event) : bool :=
  match e with CtlBlock | CtlUnblock => true | _ => false end.

(** A frame fits a surface of [X] by [Y] pixels: the frame size is a whole
    number of pixels per axis, at least one and at most the surface; the
    frame scale is a number above 0 and at most 1, within 2^-23 of the frame
    size divided by the surface size; and while the size is in charge the
    frame is not the full surface. *)
Definition fitsFrame (X Y : Z) (size scale : vec2) (favor : bool) : Prop :=
  exists (zx zy : Z) (kx ky : Q),
    size = (whole zx, whole zy)
    /\ scale = (Finite kx, Finite ky)
    /\ (1 <= zx <= X)%Z /\ (1 <= zy <= Y)%Z
    /\ (0 < kx /\ kx <= 1) /\ (0 < ky /\ ky <= 1)
    /\ - (1 # 8388608) <= kx - inject_Z zx / inject_Z X <= 1 # 8388608
    /\ - (1 # 8388608) <= ky - inject_Z zy / inject_Z Y <= 1 # 8388608
    /\ (favor = true -> (zx, zy) <> (X, Y)).

Definition fits (X Y : Z) (w : World) : Prop :=
  _size (canvas w) = (whole X, whole Y)
  /\ fitsFrame X Y (frameSize_get w) (frameScale_get w) (_favorSizeOverScale (canvas w)).

End FloatCanvas.

(** ** Concrete canvases, in floating point *)

Module FloatExamples.

Import Ieee Float32Array Core FloatCanvas.
Local Open Scope Q_scope.

(** A canvas as its constructor leaves it on a surface of the given size:
    no renderer, scale one, the frame the full surface. *)
Definition freshWorld (size : vec2) : World :=
  mkWorld (mkCanvas (mkController true None 0%Z 0%Z) None size
                    (Finite 1, Finite 1) size false
                    (mkElement size (fst size) (snd size)))
          (fun _ => (Finite 0, Finite 0)) [].

Definition surface800x600 : World := freshWorld (whole 800, whole 600).

(** The same canvas with renderer 0 attached and the controller
    unblocked. *)
Definition attached800x600 : World :=
  with_canvas (fun c => mkCanvas (mkController false (Some 0%nat) 0%Z 0%Z) (Some 0%nat)
                                 (_size c) (_frameScale c) (_frameSize c)
                                 (_favorSizeOverScale c) (_element c)) surface800x600.

End FloatExamples.

(** * Properties *)

Import GlMatrix Core Canvas.
Local Open Scope Q_scope.

(** ** Rounding and clamping *)

Lemma Qfloor_unique (x : Q) (z : Z) :
  inject_Z z <= x -> x < inject_Z z + 1 -> Qfloor x = z.
Proof.
  intros Hlo Hhi.
  pose proof (Qfloor_le x) as Hf.
  pose proof (Qlt_floor x) as Hc.
  rewrite inject_Z_plus in Hc. change (inject_Z 1) with 1 in Hc.
  assert (Qfloor x < z + 1)%Z as H1.
  { rewrite Zlt_Qlt, inject_Z_plus. change (inject_Z 1) with 1. lra. }
  assert (z < Qfloor x + 1)%Z as H2.
  { rewrite Zlt_Qlt, inject_Z_plus. change (inject_Z 1) with 1. lra. }
  lia.
Qed.

Lemma Qfloor_half (z : Z) : Qfloor (inject_Z z + (1 # 2)) = z.
Proof. apply Qfloor_unique; lra. Qed.

Lemma Math_round_inject_Z (z : Z) : Math_round (inject_Z z) = inject_Z z.
Proof. unfold Math_round. now rewrite Qfloor_half. Qed.

Lemma Math_round_le (x y : Q) : x <= y -> Math_round x <= Math_round y.
Proof.
  intros H. unfold Math_round. rewrite <- Zle_Qle.
  apply Qfloor_resp_le. lra.
Qed.

Lemma Math_round_comp (x y : Q) : x == y -> Math_round x = Math_round y.
Proof.
  intros H. unfold Math_round. f_equal. apply Qfloor_comp. now rewrite H.
Qed.

Lemma clamp_range (x lo hi : Q) : lo <= hi -> lo <= clamp x lo hi <= hi.
Proof.
  intros H. unfold clamp. split.
  - apply Q.le_max_l.
  - apply Q.max_lub; [exact H | apply Q.le_min_l].
Qed.

Lemma clamp_inside (x lo hi : Q) : lo <= x <= hi -> clamp x lo hi == x.
Proof.
  intros [H1 H2]. unfold clamp.
  rewrite (Q.min_r hi x H2). now apply Q.max_r.
Qed.

Lemma clamp_below (x lo hi : Q) : lo <= hi -> x <= lo -> clamp x lo hi == lo.
Proof.
  intros H H1. unfold clamp. apply Q.max_l.
  apply Qle_trans with x; [apply Q.le_min_r | exact H1].
Qed.

Lemma clamp_above (x lo hi : Q) : lo <= hi -> hi <= x -> clamp x lo hi == hi.
Proof.
  intros H H1. unfold clamp.
  rewrite (Q.min_l hi x H1). now apply Q.max_r.
Qed.

(** Flooring at one pixel commutes with rounding. *)
Lemma round_max_one (x : Q) : Math_round (Qmax 1 x) = Qmax 1 (Math_round x).
Proof.
  destruct (Qlt_le_dec 1 x) as [H | H].
  - rewrite (Math_round_comp (Qmax 1 x) x) by (apply Q.max_r; lra).
    assert (1 <= Math_round x) as H1.
    { apply (Math_round_le 1 x). lra. }
    unfold Math_round in *. revert H1. generalize (Qfloor (x + (1 # 2))). intros z Hz.
    change (inject_Z 1 <= inject_Z z) in Hz. rewrite <- Zle_Qle in Hz.
    unfold Qmax, GenericMinMax.gmax, Qcompare, inject_Z. simpl.
    rewrite Z.mul_1_r. destruct z; try lia; destruct p; reflexivity.
  - rewrite (Math_round_comp (Qmax 1 x) 1) by (apply Q.max_l; lra).
    assert (Math_round x <= 1) as H1.
    { apply (Math_round_le x 1). lra. }
    change (Math_round 1) with 1.
    unfold Math_round in *. revert H1. generalize (Qfloor (x + (1 # 2))). intros z Hz.
    change (inject_Z z <= inject_Z 1) in Hz. rewrite <- Zle_Qle in Hz.
    unfold Qmax, GenericMinMax.gmax, Qcompare, inject_Z. simpl.
    rewrite Z.mul_1_r. destruct z; try reflexivity. destruct p; try lia; reflexivity.
Qed.

Lemma axisSize_integral (S s : Q) : exists z : Z, axisSize S s = inject_Z z /\ (1 <= z)%Z.
Proof.
  unfold axisSize. eexists. split; [reflexivity |].
  rewrite Zle_Qle.
  apply (Math_round_le 1 (Qmax 1 (S * clamp s 0 1))). apply Q.le_max_l.
Qed.

Lemma axisSize_round_trip (S s : Q) :
  1 <= S -> axisSize S (axisSize S s / S) = axisSize S s.
Proof.
  intros HS.
  destruct (axisSize_integral S s) as [z [Hz Hz1]].
  rewrite Hz. rewrite Zle_Qle in Hz1. change (inject_Z 1) with 1 in Hz1.
  destruct (Qlt_le_dec S (inject_Z z)) as [Hgt | Hle].
  - (* the rounded size exceeds the surface: the scale is clamped to one *)
    assert (1 <= inject_Z z / S) as Hq.
    { apply Qle_shift_div_l; lra. }
    unfold axisSize at 1.
    rewrite (Math_round_comp _ S).
    2:{ rewrite (clamp_above _ 0 1) by lra. rewrite Q.max_r; lra. }
    assert (Math_round S <= inject_Z z) as Hup.
    { rewrite <- (Math_round_inject_Z z). apply Math_round_le. lra. }
    assert (inject_Z z <= Math_round S) as Hdown.
    { rewrite <- Hz. unfold axisSize. apply Math_round_le.
      pose proof (clamp_range s 0 1) as Hc.
      apply Q.max_lub; [lra |].
      assert (S * clamp s 0 1 <= S * 1) by (apply Qmult_le_l; lra). lra. }
    unfold Math_round in *. rewrite <- Zle_Qle in Hup, Hdown. f_equal. lia.
  - assert (0 <= inject_Z z / S <= 1) as Hq.
    { split; [apply Qle_shift_div_l; lra | apply Qle_shift_div_r; lra]. }
    unfold axisSize.
    rewrite (Math_round_comp _ (inject_Z z)).
    + apply Math_round_inject_Z.
    + rewrite (clamp_inside _ 0 1 Hq).
      rewrite Q.max_r.
      * field. lra.
      * assert (S * (inject_Z z / S) == inject_Z z) as -> by (field; lra). lra.
Qed.

(** ** The frame setters *)

Lemma canvas_log_if (b : bool) (l : LogLevel) (m : Message) (w : World) :
  canvas (log_if b l m w) = canvas w.
Proof. destruct b; reflexivity. Qed.

Lemma renderers_log_if (b : bool) (l : LogLevel) (m : Message) (w : World) :
  renderers (log_if b l m w) = renderers w.
Proof. destruct b; reflexivity. Qed.

(** What [set frameScale] leaves in the canvas. *)
Lemma frameScale_set_canvas (s : vec2) (w : World) :
  let S := _size (canvas w) in
  let size := round (max (1, 1) (mul S (clamp2 s (0, 0) (1, 1)))) in
  canvas (frameScale_set s w) = set_frame (div size S) size false (canvas w).
Proof.
  unfold frameScale_set. cbv zeta.
  unfold log_if.
  repeat match goal with
         | |- context [if ?b then _ else _] => destruct b
         end;
    cbn [canvas with_canvas emit frameScaleNext frameSizeNext set_frame _renderer];
    destruct (_renderer (canvas w)); reflexivity.
Qed.

(** What [set frameSize] leaves in the canvas. *)
Lemma frameSize_set_canvas (sz : vec2) (w : World) :
  let S := _size (canvas w) in
  let size := round (clamp2 sz (1, 1) S) in
  canvas (frameSize_set sz w)
  = set_frame (div size S) size (negb (exactEquals size S)) (canvas w).
Proof.
  unfold frameSize_set. cbv zeta.
  unfold log_if.
  repeat match goal with
         | |- context [if ?b then _ else _] => destruct b
         end;
    cbn [canvas with_canvas emit frameScaleNext frameSizeNext set_frame _renderer];
    destruct (_renderer (canvas w)); reflexivity.
Qed.

Lemma frameScale_set_size_axes (s : vec2) (w : World) :
  frameSize_get (frameScale_set s w)
  = (axisSize (fst (_size (canvas w))) (fst s), axisSize (snd (_size (canvas w))) (snd s)).
Proof.
  unfold frameSize_get. rewrite frameScale_set_canvas. reflexivity.
Qed.

Lemma frameScale_set_scale (s : vec2) (w : World) :
  frameScale_get (frameScale_set s w)
  = div (frameSize_get (frameScale_set s w)) (_size (canvas w)).
Proof.
  unfold frameScale_get, frameSize_get. rewrite frameScale_set_canvas. reflexivity.
Qed.

Lemma frameScale_set_surface (s : vec2) (w : World) :
  _size (canvas (frameScale_set s w)) = _size (canvas w).
Proof. rewrite frameScale_set_canvas. reflexivity. Qed.

Lemma frameScale_set_mode (s : vec2) (w : World) :
  _favorSizeOverScale (canvas (frameScale_set s w)) = false.
Proof. rewrite frameScale_set_canvas. reflexivity. Qed.

(** With scale one half, an 800 x 600 surface renders at 400 x 300; after
    the surface has grown to 801 x 600 the width is 401. *)
Example half_scale_800x600 :
  frameSize_get (frameScale_set (1 # 2, 1 # 2) Examples.surface800x600) = (400, 300)
  /\ frameSize_get (hostResize (801, 600)
                     (frameScale_set (1 # 2, 1 # 2) Examples.surface800x600)) = (401, 300).
Proof. split; vm_compute; reflexivity. Qed.

Lemma frameSize_set_size (sz : vec2) (w : World) :
  frameSize_get (frameSize_set sz w) = round (clamp2 sz (1, 1) (_size (canvas w))).
Proof. unfold frameSize_get. rewrite frameSize_set_canvas. reflexivity. Qed.

Lemma frameSize_set_scale (sz : vec2) (w : World) :
  frameScale_get (frameSize_set sz w)
  = div (frameSize_get (frameSize_set sz w)) (_size (canvas w)).
Proof.
  unfold frameScale_get, frameSize_get. rewrite frameSize_set_canvas. reflexivity.
Qed.

Lemma frameSize_set_favor (sz : vec2) (w : World) :
  _favorSizeOverScale (canvas (frameSize_set sz w))
  = negb (exactEquals (frameSize_get (frameSize_set sz w)) (_size (canvas w))).
Proof. unfold frameSize_get. rewrite frameSize_set_canvas. reflexivity. Qed.

Lemma frameSize_set_renderer (sz : vec2) (w : World) :
  _renderer (canvas (frameSize_set sz w)) = _renderer (canvas w).
Proof. rewrite frameSize_set_canvas. reflexivity. Qed.

Lemma frameScale_set_renderer (s : vec2) (w : World) :
  _renderer (canvas (frameScale_set s w)) = _renderer (canvas w).
Proof. rewrite frameScale_set_canvas. reflexivity. Qed.

(** The canvas with the surface size read and written to the element. *)
Lemma onResize_steps (w : World) :
  let w2 := with_canvas (fun c => set_element
              (mkElement (clientSize (_element c)) (fst (_size c)) (snd (_size c))) c)
              (retrieveSize w) in
  let gate (f : World -> World) (x : World) :=
    if isSome (_renderer (canvas x)) then f x else x in
  onResize w
  = gate controller_unblock
      (let w3 := gate controller_block w2 in
       if _favorSizeOverScale (canvas w3)
       then frameSize_set (_frameSize (canvas w3)) w3
       else frameScale_set (_frameScale (canvas w3)) w3).
Proof. reflexivity. Qed.

(** What a resize makes of the canvas when a renderer is bound: the setter
    of the mode at hand runs between [block] and [unblock]. *)
Lemma onResize_bound (w : World) (r : RendererRef) :
  _renderer (canvas w) = Some r ->
  let w1 := controller_block
              (with_canvas (fun c => set_element
                 (mkElement (clientSize (_element c)) (fst (_size c)) (snd (_size c))) c)
                 (retrieveSize w)) in
  onResize w
  = controller_unblock
      (if _favorSizeOverScale (canvas w)
       then frameSize_set (_frameSize (canvas w)) w1
       else frameScale_set (_frameScale (canvas w)) w1).
Proof.
  intros Hr. rewrite onResize_steps. cbv zeta.
  set (w2 := with_canvas _ (retrieveSize w)).
  change (_renderer (canvas w2)) with (_renderer (canvas w)).
  rewrite Hr. cbn [isSome].
  set (w3 := controller_block w2).
  change (_favorSizeOverScale (canvas w3)) with (_favorSizeOverScale (canvas w)).
  change (_frameSize (canvas w3)) with (_frameSize (canvas w)).
  change (_frameScale (canvas w3)) with (_frameScale (canvas w)).
  assert (_renderer (canvas w3) = Some r) as Hr3 by exact Hr.
  clearbody w3.
  destruct (_favorSizeOverScale (canvas w)).
  - now rewrite frameSize_set_renderer, Hr3.
  - now rewrite frameScale_set_renderer, Hr3.
Qed.

(** What a resize makes of the canvas when no renderer is bound: the
    controller is left alone. *)
Lemma onResize_unbound (w : World) :
  _renderer (canvas w) = None ->
  let w1 := with_canvas (fun c => set_element
              (mkElement (clientSize (_element c)) (fst (_size c)) (snd (_size c))) c)
              (retrieveSize w) in
  onResize w
  = if _favorSizeOverScale (canvas w)
    then frameSize_set (_frameSize (canvas w)) w1
    else frameScale_set (_frameScale (canvas w)) w1.
Proof.
  intros Hr. rewrite onResize_steps. cbv zeta.
  set (w2 := with_canvas _ (retrieveSize w)).
  change (_renderer (canvas w2)) with (_renderer (canvas w)).
  rewrite Hr. cbn [isSome].
  change (_favorSizeOverScale (canvas w2)) with (_favorSizeOverScale (canvas w)).
  change (_frameSize (canvas w2)) with (_frameSize (canvas w)).
  change (_frameScale (canvas w2)) with (_frameScale (canvas w)).
  assert (_renderer (canvas w2) = None) as Hr2 by exact Hr.
  clearbody w2.
  destruct (_favorSizeOverScale (canvas w)).
  - now rewrite frameSize_set_renderer, Hr2.
  - now rewrite frameScale_set_renderer, Hr2.
Qed.

(** What a resize makes of the frame size, by mode. *)
Lemma onResize_frameSize (w : World) :
  frameSize_get (onResize w)
  = if _favorSizeOverScale (canvas w)
    then round (clamp2 (_frameSize (canvas w)) (1, 1) (clientSize (_element (canvas w))))
    else round (max (1, 1) (mul (clientSize (_element (canvas w)))
                                (clamp2 (_frameScale (canvas w)) (0, 0) (1, 1)))).
Proof.
  assert (forall x, frameSize_get (controller_unblock x) = frameSize_get x) as Hun
    by reflexivity.
  destruct (_renderer (canvas w)) as [r |] eqn:Hr.
  - rewrite (onResize_bound w r Hr). cbv zeta. rewrite Hun.
    set (w1 := controller_block _).
    assert (_size (canvas w1) = clientSize (_element (canvas w))) as HS.
    { unfold w1. cbn. now destruct (clientSize (_element (canvas w))). }
    clearbody w1.
    destruct (_favorSizeOverScale (canvas w)).
    + now rewrite frameSize_set_size, HS.
    + unfold frameSize_get. now rewrite frameScale_set_canvas, HS.
  - rewrite (onResize_unbound w Hr). cbv zeta.
    set (w1 := with_canvas _ (retrieveSize w)).
    assert (_size (canvas w1) = clientSize (_element (canvas w))) as HS.
    { unfold w1. cbn. now destruct (clientSize (_element (canvas w))). }
    clearbody w1.
    destruct (_favorSizeOverScale (canvas w)).
    + now rewrite frameSize_set_size, HS.
    + unfold frameSize_get. now rewrite frameScale_set_canvas, HS.
Qed.

Lemma hostResize_frameSize (newSize : vec2) (w : World) :
  frameSize_get (hostResize newSize w)
  = if _favorSizeOverScale (canvas w)
    then round (clamp2 (_frameSize (canvas w)) (1, 1) newSize)
    else round (max (1, 1) (mul newSize (clamp2 (_frameScale (canvas w)) (0, 0) (1, 1)))).
Proof. unfold hostResize. now rewrite onResize_frameSize. Qed.

(** Once the frame has the size of the surface and the scale is in charge,
    the frame follows the surface. *)
Lemma full_size_follows_surface (w : World) (S newSize : vec2) :
  1 <= fst S -> 1 <= snd S ->
  frameScale_get w = div (frameSize_get w) S ->
  exactEquals (frameSize_get w) S = true ->
  _favorSizeOverScale (canvas w) = false ->
  1 <= fst newSize -> 1 <= snd newSize ->
  frameSize_get (hostResize newSize w) = round newSize.
Proof.
  intros H0 H1 Hsc H Hf Hn0 Hn1.
  rewrite hostResize_frameSize, Hf.
  fold (frameScale_get w). rewrite Hsc.
  unfold exactEquals in H. apply andb_true_iff in H. destruct H as [Ha Hb].
  apply Qeq_bool_iff in Ha. apply Qeq_bool_iff in Hb.
  destruct (frameSize_get w) as [a b], S as [S0 S1], newSize as [n0 n1].
  cbn [fst snd] in *.
  unfold round, max, mul, div, clamp2. cbn [fst snd].
  assert (forall a b n : Q, 1 <= b -> a == b -> 1 <= n ->
            Qmax 1 (n * clamp (a / b) 0 1) == n) as Hone.
  { intros x y n Hy Hxy Hn.
    assert (x / y == 1) as Hq by (rewrite Hxy; field; lra).
    rewrite (clamp_inside _ 0 1) by lra.
    rewrite Q.max_r; rewrite Hq; lra. }
  f_equal; apply Math_round_comp; apply Hone; assumption.
Qed.

(** Setting the full surface size and growing the surface afterwards: the
    frame follows the surface.  Setting a smaller size: it stays. *)
Example size_snap_back :
  frameSize_get (hostResize (1024, 768)
                   (frameSize_set (800, 600) Examples.surface800x600)) = (1024, 768)
  /\ frameSize_get (hostResize (1024, 768)
                   (frameSize_set (640, 480) Examples.surface800x600)) = (640, 480).
Proof. split; vm_compute; reflexivity. Qed.

(** ** Traces of the setters and of a resize *)

(** Unfolds a setter at every combination of its diagnostics and of the
    presence of a renderer, and flattens the trace that results. *)
Ltac setter_cases w :=
  unfold frameScale_set, frameSize_set, log_if; cbv zeta;
  repeat match goal with
         | |- context [if ?b then _ else _] => destruct b eqn:?
         end;
  cbn [canvas with_canvas emit frameScaleNext frameSizeNext set_frame _renderer];
  destruct (_renderer (canvas w)) eqn:?;
  cbn [canvas with_canvas emit frameScaleNext frameSizeNext set_frame trace
       renderer_set_frameSize update_renderer _frameScale _frameSize _size];
  rewrite <- ?app_assoc; cbn [app].

Lemma frameScale_set_trace (s : vec2) (w : World) :
  exists evs : list Event,
    trace (frameScale_set s w) = trace w ++ evs
    /\ quiet evs
    /\ In (FrameScaleNext (frameScale_get (frameScale_set s w))) evs
    /\ In (FrameSizeNext (frameSize_get (frameScale_set s w))) evs
    /\ (forall r, _renderer (canvas w) = Some r ->
                  In (RFrameSize r (frameSize_get (frameScale_set s w))) evs)
    /\ (fst s < 0 -> In (Log Dev (frame_width_scale_clamped (fst s))) evs)
    /\ (snd s < 0 -> In (Log Dev (frame_height_scale_clamped (fst s))) evs).
Proof.
  unfold frameScale_get, frameSize_get. rewrite frameScale_set_canvas.
  cbn [set_frame _frameScale _frameSize].
  assert (forall x, x < 0 -> Qlt_bool x 0 || Qlt_bool 1 x = true) as Hneg.
  { intros x Hx. unfold Qlt_bool. apply orb_true_iff. left.
    apply negb_true_iff. destruct (Qle_bool 0 x) eqn:E; [| reflexivity].
    apply Qle_bool_iff in E. lra. }
  setter_cases w.
  all: eexists; split; [reflexivity |].
  all: split; [reflexivity |].
  all: repeat split; try (cbn; tauto).
  all: try (intros r' Hr'; first [discriminate Hr' | injection Hr' as <-; cbn; tauto]).
  all: intros Hx; apply Hneg in Hx; congruence.
Qed.

Lemma frameSize_set_trace (sz : vec2) (w : World) :
  exists evs : list Event,
    trace (frameSize_set sz w) = trace w ++ evs
    /\ quiet evs
    /\ In (FrameScaleNext (frameScale_get (frameSize_set sz w))) evs
    /\ In (FrameSizeNext (frameSize_get (frameSize_set sz w))) evs
    /\ (forall r, _renderer (canvas w) = Some r ->
                  In (RFrameSize r (frameSize_get (frameSize_set sz w))) evs)
    /\ (fst sz < 1 ->
        In (Log Dev (frame_width_size_clamped (fst (_size (canvas w))) (fst sz))) evs)
    /\ (snd sz < 1 ->
        In (Log Dev (frame_height_size_clamped (snd (_size (canvas w))) (snd sz))) evs).
Proof.
  unfold frameScale_get, frameSize_get. rewrite frameSize_set_canvas.
  cbn [set_frame _frameScale _frameSize].
  assert (forall x y, x < 1 -> Qlt_bool x 1 || Qlt_bool y x = true) as Hneg.
  { intros x y Hx. unfold Qlt_bool. apply orb_true_iff. left.
    apply negb_true_iff. destruct (Qle_bool 1 x) eqn:E; [| reflexivity].
    apply Qle_bool_iff in E. lra. }
  setter_cases w.
  all: eexists; split; [reflexivity |].
  all: split; [reflexivity |].
  all: repeat split; try (cbn; tauto).
  all: try (intros r' Hr'; first [discriminate Hr' | injection Hr' as <-; cbn; tauto]).
  all: intros Hx; eapply Hneg in Hx; rewrite Hx in *; congruence.
Qed.

(** C8, as the code has it.  A resize (the handler [onResize], also
    reached through [resize()]) first retrieves and publishes the size of the
    surface.  With a renderer bound it then blocks the controller, runs the
    setter of the mode at hand on the value that was stored (the frame size
    when the size is in charge, the frame scale otherwise) and unblocks the
    controller: between [block] and [unblock] the gate is not touched, frame
    scale and frame size are published and the renderer is handed the frame
    size.  Without a renderer the same setter runs and publishes, and the
    controller is left as it was: no [block], no [unblock]. *)
Theorem onResize_brackets_iff_bound (w : World) :
  let S := clientSize (_element (canvas w)) in
  let w' := onResize w in
  let reapply (w1 : World) :=
    if _favorSizeOverScale (canvas w)
    then frameSize_set (_frameSize (canvas w)) w1
    else frameScale_set (_frameScale (canvas w)) w1 in
  resize w = w'
  /\ (forall r : RendererRef,
        renderer_get w = Some r ->
        (exists w1 : World,
           trace w1 = trace w ++ [SizeNext S; CtlBlock]
           /\ _size (canvas w1) = S
           /\ blocked (_controller (canvas w1)) = true
           /\ w' = controller_unblock (reapply w1))
        /\ (exists mid : list Event,
              trace w' = trace w ++ SizeNext S :: CtlBlock :: mid ++ [CtlUnblock]
              /\ quiet mid
              /\ In (FrameScaleNext (frameScale_get w')) mid
              /\ In (FrameSizeNext (frameSize_get w')) mid
              /\ In (RFrameSize r (frameSize_get w')) mid)
        /\ blocked (_controller (canvas w')) = false)
  /\ (renderer_get w = None ->
        (exists w1 : World,
           trace w1 = trace w ++ [SizeNext S]
           /\ _size (canvas w1) = S
           /\ _controller (canvas w1) = _controller (canvas w)
           /\ w' = reapply w1)
        /\ (exists evs : list Event,
              trace w' = trace w ++ SizeNext S :: evs
              /\ quiet evs
              /\ In (FrameScaleNext (frameScale_get w')) evs
              /\ In (FrameSizeNext (frameSize_get w')) evs)
        /\ _controller (canvas w') = _controller (canvas w)).
Proof.
  cbv zeta. unfold renderer_get.
  split; [reflexivity |]. split.
  - intros r Hr.
    pose proof (onResize_bound w r Hr) as Hon. cbv zeta in Hon.
    set (w1 := controller_block _) in Hon.
    assert (trace w1 = trace w ++ [SizeNext (clientSize (_element (canvas w))); CtlBlock]) as Ht1.
    { unfold w1. cbn. rewrite <- app_assoc. now destruct (clientSize (_element (canvas w))). }
    assert (_size (canvas w1) = clientSize (_element (canvas w))) as Hs1.
    { unfold w1. cbn. now destruct (clientSize (_element (canvas w))). }
    assert (blocked (_controller (canvas w1)) = true) as Hb1 by reflexivity.
    assert (_renderer (canvas w1) = Some r) as Hr1 by exact Hr.
    clearbody w1.
    split; [exists w1; repeat split; assumption |].
    set (w4 := if _favorSizeOverScale (canvas w) then _ else _) in Hon.
    assert (exists evs,
              trace w4 = trace w1 ++ evs /\ quiet evs
              /\ In (FrameScaleNext (frameScale_get w4)) evs
              /\ In (FrameSizeNext (frameSize_get w4)) evs
              /\ In (RFrameSize r (frameSize_get w4)) evs) as [evs (Ht & Hq & Ha & Hb & Hc)].
    { unfold w4. destruct (_favorSizeOverScale (canvas w)).
      - destruct (frameSize_set_trace (_frameSize (canvas w)) w1)
          as [evs (Ht & Hq & Ha & Hb & Hc & _)].
        exists evs. split; [exact Ht |]. split; [exact Hq |]. split; [exact Ha |].
        split; [exact Hb | exact (Hc r Hr1)].
      - destruct (frameScale_set_trace (_frameScale (canvas w)) w1)
          as [evs (Ht & Hq & Ha & Hb & Hc & _)].
        exists evs. split; [exact Ht |]. split; [exact Hq |]. split; [exact Ha |].
        split; [exact Hb | exact (Hc r Hr1)]. }
    clearbody w4.
    assert (frameSize_get (onResize w) = frameSize_get w4) as Esz by (now rewrite Hon).
    assert (frameScale_get (onResize w) = frameScale_get w4) as Esc by (now rewrite Hon).
    split; [| now rewrite Hon].
    exists evs. rewrite Esz, Esc.
    split; [| now repeat split].
    rewrite Hon. change (trace (controller_unblock w4)) with (trace w4 ++ [CtlUnblock]).
    rewrite Ht, Ht1, <- !app_assoc. reflexivity.
  - intros Hr.
    pose proof (onResize_unbound w Hr) as Hon. cbv zeta in Hon.
    set (w1 := with_canvas _ (retrieveSize w)) in Hon.
    assert (trace w1 = trace w ++ [SizeNext (clientSize (_element (canvas w)))]) as Ht1.
    { unfold w1. cbn. now destruct (clientSize (_element (canvas w))). }
    assert (_size (canvas w1) = clientSize (_element (canvas w))) as Hs1.
    { unfold w1. cbn. now destruct (clientSize (_element (canvas w))). }
    assert (_controller (canvas w1) = _controller (canvas w)) as Hk1 by reflexivity.
    clearbody w1.
    split; [exists w1; repeat split; assumption |].
    set (w4 := if _favorSizeOverScale (canvas w) then _ else _) in Hon.
    assert (exists evs,
              trace w4 = trace w1 ++ evs /\ quiet evs
              /\ In (FrameScaleNext (frameScale_get w4)) evs
              /\ In (FrameSizeNext (frameSize_get w4)) evs) as [evs (Ht & Hq & Ha & Hb)].
    { unfold w4. destruct (_favorSizeOverScale (canvas w)).
      - destruct (frameSize_set_trace (_frameSize (canvas w)) w1)
          as [evs (Ht & Hq & Ha & Hb & _)].
        exists evs. now repeat split.
      - destruct (frameScale_set_trace (_frameScale (canvas w)) w1)
          as [evs (Ht & Hq & Ha & Hb & _)].
        exists evs. now repeat split. }
    assert (_controller (canvas w4) = _controller (canvas w)) as Hk4.
    { rewrite <- Hk1. unfold w4. destruct (_favorSizeOverScale (canvas w)).
      - rewrite frameSize_set_canvas. reflexivity.
      - rewrite frameScale_set_canvas. reflexivity. }
    clearbody w4. rewrite Hon.
    split; [| exact Hk4].
    exists evs. split; [| now repeat split].
    rewrite Ht, Ht1, <- app_assoc. reflexivity.
Qed.

Lemma onResize_brackets_iff_bound_witness :
  renderer_get Examples.bound800x600 = Some 0%nat
  /\ (exists mid : list Event,
        trace (onResize Examples.bound800x600)
        = trace Examples.bound800x600
          ++ SizeNext (clientSize (_element (canvas Examples.bound800x600)))
             :: CtlBlock :: mid ++ [CtlUnblock]
        /\ quiet mid
        /\ In (FrameScaleNext (frameScale_get (onResize Examples.bound800x600))) mid
        /\ In (FrameSizeNext (frameSize_get (onResize Examples.bound800x600))) mid
        /\ In (RFrameSize 0%nat (frameSize_get (onResize Examples.bound800x600))) mid).
Proof.
  assert (renderer_get Examples.bound800x600 = Some 0%nat) as H
    by (vm_compute; reflexivity).
  split; [exact H |].
  exact (proj1 (proj2 (proj1 (proj2 (onResize_brackets_iff_bound Examples.bound800x600))
                         0%nat H))).
Defined.

(** C8, as the claim has it, fails on a canvas without a renderer: a resize
    never touches the gate of the controller there. *)
Lemma onResize_unbound_not_bracketed :
  ~ resizeBracketed Examples.surface800x600
  /\ filter is_gate (trace (resize Examples.surface800x600)) = [].
Proof.
  split.
  - intros [mid [H _]]. vm_compute in H. discriminate H.
  - vm_compute. reflexivity.
Qed.

(** ** Binding *)

(** C7.  [unbind] does nothing when no renderer is bound.  Otherwise it
    blocks the controller, clears the controllable and the reference to the
    renderer, and returns with the controller blocked; the renderer objects
    are left as they are and the trace shows neither an uninitialisation nor
    an unblock. *)
Theorem unbind_detaches (w : World) :
  (renderer_get w = None -> unbind w = w)
  /\ (forall r : RendererRef,
        renderer_get w = Some r ->
        renderer_get (unbind w) = None
        /\ blocked (_controller (canvas (unbind w))) = true
        /\ controllable (_controller (canvas (unbind w))) = None
        /\ renderers (unbind w) = renderers w
        /\ trace (unbind w) = trace w ++ [CtlBlock; CtlControllable None]).
Proof.
  unfold renderer_get, unbind. split.
  - intros ->. reflexivity.
  - intros r ->. cbn. rewrite <- app_assoc. repeat split.
Qed.

Lemma unbind_detaches_witness :
  renderer_get Examples.bound800x600 = Some 0%nat
  /\ renderers (unbind Examples.bound800x600) = renderers Examples.bound800x600.
Proof.
  assert (renderer_get Examples.bound800x600 = Some 0%nat) as H
    by (vm_compute; reflexivity).
  split; [exact H |].
  exact (proj1 (proj2 (proj2 (proj2
           (proj2 (unbind_detaches Examples.bound800x600) 0%nat H))))).
Defined.

Lemma same_renderer_refl (o : option RendererRef) : same_renderer o o = true.
Proof. destruct o; [apply Nat.eqb_refl | reflexivity]. Qed.

Lemma same_renderer_eq (a b : option RendererRef) : same_renderer a b = true <-> a = b.
Proof.
  destruct a, b; cbn; split; intros H; try discriminate; try reflexivity.
  - apply Nat.eqb_eq in H. now subst.
  - injection H as ->. apply Nat.eqb_refl.
Qed.

Lemma bind_same (w : World) (o : option RendererRef) :
  renderer_get w = o -> bind o w = Normal w.
Proof.
  unfold renderer_get, bind. intros ->. now rewrite same_renderer_refl.
Qed.

Lemma initializations_app (r : RendererRef) (a b : list Event) :
  initializations r (a ++ b) = (initializations r a + initializations r b)%nat.
Proof. unfold initializations. now rewrite filter_app, length_app. Qed.

(** The state [unbind] leaves is blocked whenever a renderer was bound. *)
Lemma unbind_blocked (w : World) :
  (renderer_get w = None -> blocked (_controller (canvas w)) = true) ->
  blocked (_controller (canvas (unbind w))) = true.
Proof.
  unfold renderer_get, unbind. destruct (_renderer (canvas w)); intros H.
  - reflexivity.
  - now apply H.
Qed.

(** What the configuration of a renderer adds to the trace and leaves in
    the canvas. *)
Lemma bind_configure_trace (r : RendererRef) (w : World) :
  trace (bind_configure r w)
  = trace w ++ [RFrameSize r (_frameSize (canvas w));
                RClearColor r (rgba (_clearColor (canvas w)));
                RFramePrecision r (_framePrecision (canvas w));
                RDebugTexture r (-1)%Z;
                CtlControllable (Some r);
                CtlUnblock].
Proof.
  unfold bind_configure. cbv zeta.
  unfold controller_unblock, controller_set_controllable, renderer_set_debugTexture,
    renderer_set_framePrecision, renderer_set_clearColor, renderer_set_frameSize.
  cbn [trace emit with_canvas update_renderer canvas].
  now rewrite <- !app_assoc.
Qed.

Lemma bind_configure_renderer (r : RendererRef) (w : World) :
  _renderer (canvas (bind_configure r w)) = _renderer (canvas w).
Proof. reflexivity. Qed.

Lemma bind_configure_precision (r : RendererRef) (w : World) :
  _framePrecision (canvas (bind_configure r w)) = _framePrecision (canvas w).
Proof. reflexivity. Qed.

(** [bind] of a renderer that is not the bound one, on a canvas whose
    controller is blocked once the old renderer is gone. *)
Lemma bind_other (w : World) (p : RendererRef) :
  renderer_get w <> Some p ->
  r_initialized (renderers w p) = false ->
  (renderer_get w = None -> blocked (_controller (canvas w)) = true) ->
  exists u : World,
    bind (Some p) w = Normal (bind_configure p u)
    /\ _renderer (canvas u) = Some p
    /\ exists evs, trace u = trace w ++ evs ++ [RInitialize p]
                   /\ initializations p evs = 0%nat.
Proof.
  intros Hne Hinit Hblk.
  assert (same_renderer (_renderer (canvas w)) (Some p) = false) as Hs.
  { destruct (same_renderer _ _) eqn:E; [| reflexivity].
    apply same_renderer_eq in E. contradiction. }
  pose proof (unbind_blocked w Hblk) as Hb.
  assert (renderers (unbind w) = renderers w) as Hrs.
  { unfold unbind. now destruct (_renderer (canvas w)). }
  assert (exists evs, trace (unbind w) = trace w ++ evs /\ initializations p evs = 0%nat)
    as [evs [Htr Hev]].
  { unfold unbind. destruct (_renderer (canvas w)).
    - exists [CtlBlock; CtlControllable None]. cbn. now rewrite <- app_assoc.
    - exists []. now rewrite app_nil_r. }
  unfold bind. rewrite Hs. cbv zeta.
  generalize dependent (unbind w). intros u Hb Hrs Htr.
  unfold assert. rewrite Hb. cbn [andThen].
  unfold renderer_initialize.
  change (renderers (with_canvas (set_renderer (Some p)) u)) with (renderers u).
  rewrite Hrs, Hinit. cbn [andThen].
  eexists. split; [reflexivity |].
  split; [reflexivity |].
  exists evs. split; [| exact Hev].
  cbn [trace emit update_renderer with_canvas]. now rewrite Htr, <- app_assoc.
Qed.

(** C6.  [bind] of the renderer that is bound is a no-op.  When another
    renderer, or none, is bound, a successful [bind] of an uninitialised
    renderer [p] leaves [p] bound, a second [bind] of [p] changes nothing,
    and over both calls [initialize] ran on [p] exactly once. *)
Theorem bind_idempotent (w : World) (p : RendererRef) :
  (renderer_get w = Some p -> bind (Some p) w = Normal w)
  /\ (renderer_get w <> Some p ->
      r_initialized (renderers w p) = false ->
      (renderer_get w = None -> blocked (_controller (canvas w)) = true) ->
      exists w1 : World,
        bind (Some p) w = Normal w1
        /\ renderer_get w1 = Some p
        /\ bind (Some p) w1 = Normal w1
        /\ initializations p (trace w1) = S (initializations p (trace w))).
Proof.
  split; [apply bind_same |].
  intros Hne Hinit Hblk.
  destruct (bind_other w p Hne Hinit Hblk) as [u (Hbind & Hr & evs & Htr & Hev)].
  exists (bind_configure p u).
  assert (renderer_get (bind_configure p u) = Some p) as Hr1.
  { unfold renderer_get. now rewrite bind_configure_renderer. }
  split; [exact Hbind |].
  split; [exact Hr1 |].
  split; [now apply bind_same |].
  rewrite bind_configure_trace, Htr, !initializations_app, Hev.
  unfold initializations. cbn [filter List.length]. rewrite Nat.eqb_refl.
  cbn [List.length]. lia.
Qed.

Lemma bind_idempotent_witness :
  renderer_get Examples.bound800x600 = Some 0%nat
  /\ bind (Some 0%nat) Examples.bound800x600 = Normal Examples.bound800x600.
Proof.
  assert (renderer_get Examples.bound800x600 = Some 0%nat) as H
    by (vm_compute; reflexivity).
  split; [exact H |].
  exact (proj1 (bind_idempotent Examples.bound800x600 0%nat) H).
Defined.

(** Binding renderer 0 to the fresh canvas and binding it again: one
    initialisation, and the second call adds nothing to the trace. *)
Example bind_twice_initializes_once :
  bind (Some 0%nat) Examples.surface800x600 = Normal Examples.bound800x600
  /\ bind (Some 0%nat) Examples.bound800x600 = Normal Examples.bound800x600
  /\ initializations 0%nat (trace Examples.bound800x600) = 1%nat.
Proof. repeat split; vm_compute; reflexivity. Qed.

(** ** Frame precision *)

(** The setter of the frame precision reads back what the renderer
    honours. *)
Lemma framePrecision_set_reads_back (w : World) (r : RendererRef) (p : FramePrecisionString) :
  renderer_get w = Some r ->
  framePrecision_get (framePrecision_set p w) = supportedPrecision (renderers w r) p
  /\ framePrecision_get (framePrecision_set p w)
     = r_framePrecision (renderers (framePrecision_set p w) r).
Proof.
  unfold renderer_get, framePrecision_get, framePrecision_set. cbv zeta.
  cbn [with_canvas canvas set_framePrecision _renderer].
  intros ->. cbn. rewrite Nat.eqb_refl. split; reflexivity.
Qed.

(** [bind] hands the precision to the renderer and keeps its own. *)
Lemma bind_keeps_precision (w w1 : World) (o : option RendererRef) :
  bind o w = Normal w1 -> framePrecision_get w1 = framePrecision_get w.
Proof.
  unfold bind, framePrecision_get.
  destruct (same_renderer _ _); [intros H; now injection H as <- |].
  assert (_framePrecision (canvas (unbind w)) = _framePrecision (canvas w)) as Hu.
  { unfold unbind. now destruct (_renderer (canvas w)). }
  cbv zeta. generalize dependent (unbind w). intros u Hu.
  destruct o as [r |]; [| intros H; injection H as <-; exact Hu].
  unfold assert. destruct (blocked _); [| discriminate].
  cbn [andThen]. unfold renderer_initialize.
  destruct (r_initialized _); [discriminate |].
  cbn [andThen]. intros H. injection H as <-.
  rewrite bind_configure_precision. exact Hu.
Qed.

(** C4 fails on the code: the renderer that reports [byte] is bound to a
    canvas that asked for [float], and the canvas still answers [float]. *)
Theorem bind_does_not_read_back :
  exists w1 : World,
    bind (Some 1%nat) Examples.surface800x600 = Normal w1
    /\ framePrecision_get Examples.surface800x600 = Pfloat
    /\ r_framePrecision (renderers w1 1%nat) = Pbyte
    /\ framePrecision_get w1 = Pfloat
    /\ framePrecision_get (framePrecision_set Pfloat w1) = Pbyte.
Proof.
  eexists. split; [vm_compute; reflexivity |].
  repeat split; vm_compute; reflexivity.
Qed.

(** ** The label: change tracking *)

Section LabelProperties.

Import Label.

Lemma Qeq_bool_refl (x : Q) : Qeq_bool x x = true.
Proof. apply Qeq_bool_iff. reflexivity. Qed.

Lemma Color_equals_refl (c : Color) : Color_equals c c = true.
Proof.
  destruct c as [[[[r g] b] a]]. unfold Color_equals. cbn.
  now rewrite !Qeq_bool_refl.
Qed.

(** [equals] compares values: equal components, however written. *)
Lemma Color_equals_value (c d : Color) :
  Color_equals c d = true <->
  (let '(r1, g1, b1, a1) := rgba c in
   let '(r2, g2, b2, a2) := rgba d in
   r1 == r2 /\ g1 == g2 /\ b1 == b2 /\ a1 == a2).
Proof.
  destruct c as [[[[r1 g1] b1] a1]], d as [[[[r2 g2] b2] a2]].
  unfold Color_equals. cbn.
  rewrite !andb_true_iff, !Qeq_bool_iff. tauto.
Qed.

(** The setters with a guard leave the world as it is when they are given
    the value that is stored. *)
Lemma guarded_setters_same_value (w : World) :
  wordWrap_set (_wordWrap (label w)) w = (tt, w)
  /\ alignment_set (_alignment (label w)) w = (tt, w)
  /\ lineAnchor_set (_lineAnchor (label w)) w = (tt, w)
  /\ fontFace_set (_fontFace (label w)) w = (tt, w)
  /\ (forall c, Color_equals (_color (label w)) c = true -> color_set c w = (tt, w))
  /\ (forall c, Color_equals (_backgroundColor (label w)) c = true ->
                backgroundColor_set c w = (tt, w)).
Proof.
  unfold wordWrap_set, alignment_set, lineAnchor_set, fontFace_set, color_set,
    backgroundColor_set, seq, this, ret.
  repeat split.
  - now rewrite Bool.eqb_reflx.
  - now destruct (_alignment (label w)).
  - now destruct (_lineAnchor (label w)).
  - now rewrite Nat.eqb_refl.
  - now intros c ->.
  - now intros c ->.
Qed.

(** Writing a colour its current value, also as another object with the
    same components, leaves [any] false. *)
Lemma color_set_same_value (w : World) (c : Color) :
  Color_equals (_color (label w)) c = true ->
  any (_altered (label w)) = false ->
  any (_altered (label (after (color_set c) w))) = false
  /\ any (_altered (label (after (backgroundColor_set (_backgroundColor (label w))) w))) = false.
Proof.
  intros Hc Ha. unfold after.
  destruct (guarded_setters_same_value w) as (_ & _ & _ & _ & Hcol & Hbg).
  rewrite (Hcol c Hc), (Hbg _ (Color_equals_refl _)). now split.
Qed.

(** The setter of [text] has no guard: it marks [text] and [any] whatever
    it is given. *)
Lemma text_set_always_alters (w : World) (x : TextOrString) :
  any (_altered (label (after (text_set x) w))) = true
  /\ text (_altered (label (after (text_set x) w))) = true.
Proof. split; reflexivity. Qed.

(** C3 fails on the code for [text]: the label holds "abc", nothing is
    altered, and writing "abc" marks the label altered; the same write on
    [color] does not. *)
Theorem text_set_same_value_marks_dirty :
  let w := LabelExamples.plainWorld in
  value text_get w = IsString "abc"
  /\ TextOrString_eqb (value text_get w) (IsString "abc") = true
  /\ value altered w = false
  /\ any (_altered (label (after (text_set (IsString "abc")) w))) = true
  /\ value altered (after (text_set (IsString "abc")) w) = true
  /\ value altered (after (color_set LabelExamples.black') w) = false.
Proof. repeat split; vm_compute; reflexivity. Qed.



(** ** The label: glyph metrics *)

Lemma length_reads (w : World) : length w = (value length w, w).
Proof.
  unfold value, length, seq, this, theText, ret. cbn.
  now destruct (_text (label w)).
Qed.

Lemma length_first {A : Type} (k : number -> Method A) (w : World) :
  seq length k w = k (value length w) w.
Proof. unfold seq. now rewrite length_reads. Qed.

(** C10.  The glyph-metric queries answer [NaN], whatever the font face,
    when the index is out of range: [kerningBefore] for an index below 1
    or above the length, [kerningAfter] for an index below 0 or above the
    length minus 1, [advance] for an index below 0 or above the length. *)
Theorem glyph_queries_guard_index (w : World) (index : number) :
  let n := value length w in
  (lt index (Num 1) = true \/ gt index n = true ->
   kerningBefore index w = (NaN, w))
  /\ (lt index (Num 0) = true \/ gt index (sub n (Num 1)) = true ->
      kerningAfter index w = (NaN, w))
  /\ (lt index (Num 0) = true \/ gt index n = true ->
      advance index w = (NaN, w)).
Proof.
  intros n. subst n.
  unfold kerningBefore, kerningAfter, advance.
  rewrite !length_first.
  repeat split; intros H; apply orb_true_iff in H; now rewrite H.
Qed.

Lemma glyph_queries_guard_index_witness :
  lt (Num 0) (Num 1) = true
  /\ kerningBefore (Num 0) LabelExamples.plainWorld = (NaN, LabelExamples.plainWorld).
Proof.
  assert (lt (Num 0) (Num 1) = true) as H by reflexivity.
  split; [exact H |].
  exact (proj1 (glyph_queries_guard_index LabelExamples.plainWorld (Num 0)) (or_introl H)).
Defined.

(** Inside the range the face is asked; at the ends of "abc" the guards
    answer. *)
Example glyph_queries_on_abc :
  let w := LabelExamples.plainWorld in
  value (kerningBefore (Num 1)) w = Num (- (1))
  /\ value (kerningBefore (Num 0)) w = NaN
  /\ value (kerningBefore (Num 4)) w = NaN
  /\ value (kerningAfter (Num 3)) w = NaN
  /\ value (advance (Num 2)) w = Num 10
  /\ value (advance (Num 4)) w = NaN.
Proof. repeat split; vm_compute; reflexivity. Qed.

End LabelProperties.

(** * The frame in floating point *)

Section FloatProperties.

Import Ieee Float32Array Core FloatCanvas.
Local Open Scope Q_scope.

(** ** Powers of two and rounding *)


Lemma pow2_pos (e : Z) : 0 < pow2 e.
Proof. unfold pow2. apply Qpower_0_lt. reflexivity. Qed.

Lemma pow2_add (a b : Z) : pow2 (a + b) == pow2 a * pow2 b.
Proof. unfold pow2. apply Qpower_plus. discriminate. Qed.

Lemma pow2_le (a b : Z) : (a <= b)%Z -> pow2 a <= pow2 b.
Proof. intros H. unfold pow2. apply Qpower_le_compat_l; [exact H | discriminate]. Qed.

Lemma pow2_lt (a b : Z) : (a < b)%Z -> pow2 a < pow2 b.
Proof. intros H. unfold pow2. apply Qpower_lt_compat_l; [exact H | reflexivity]. Qed.

Lemma pow2_lt_inv (a b : Z) : pow2 a < pow2 b -> (a < b)%Z.
Proof. intros H. unfold pow2 in H. apply Qpower_lt_compat_l_inv in H; [exact H | reflexivity]. Qed.

Lemma pow2_Z (e : Z) : (0 <= e)%Z -> pow2 e == inject_Z (2 ^ e).
Proof. intros H. unfold pow2. rewrite Zpower_Qpower by exact H. reflexivity. Qed.

Lemma pow2_0 : pow2 0 == 1.
Proof. reflexivity. Qed.

Lemma pow2_succ (e : Z) : pow2 (e + 1) == 2 * pow2 e.
Proof. rewrite pow2_add. change (pow2 1) with 2. ring. Qed.

Lemma pow2_pred (e : Z) : pow2 (e - 1) == (1 # 2) * pow2 e.
Proof.
  assert (H : pow2 e == pow2 ((e - 1) + 1)) by (replace (e - 1 + 1)%Z with e by lia; reflexivity).
  rewrite H, pow2_succ. ring.
Qed.

Lemma ilog2_spec (x : Q) : 0 < x -> pow2 (ilog2 x) <= x /\ x < pow2 (ilog2 x + 1).
Proof.
  intros Hx. destruct x as [n d]. unfold ilog2. cbn [Qnum Qden].
  assert (Hn : (0 < n)%Z) by (unfold Qlt in Hx; cbn in Hx; lia).
  destruct (Z.log2_spec n Hn) as [Hn1 Hn2].
  destruct (Z.log2_spec (Z.pos d) (Pos2Z.is_pos d)) as [Hd1 Hd2].
  set (a := Z.log2 n) in *. set (b := Z.log2 (Z.pos d)) in *.
  assert (Ha : (0 <= a)%Z) by apply Z.log2_nonneg.
  assert (Hb : (0 <= b)%Z) by apply Z.log2_nonneg.
  assert (HA : pow2 a <= inject_Z n) by (rewrite pow2_Z by exact Ha; rewrite <- Zle_Qle; exact Hn1).
  assert (HA' : inject_Z n < pow2 (a + 1)) by (rewrite pow2_Z by lia; rewrite <- Zlt_Qlt; replace (a + 1)%Z with (Z.succ a) by lia; exact Hn2).
  assert (HB : pow2 b <= inject_Z (Z.pos d)) by (rewrite pow2_Z by exact Hb; rewrite <- Zle_Qle; exact Hd1).
  assert (HB' : inject_Z (Z.pos d) < pow2 (b + 1)) by (rewrite pow2_Z by lia; rewrite <- Zlt_Qlt; replace (b + 1)%Z with (Z.succ b) by lia; exact Hd2).
  assert (Hx' : (n # d) * inject_Z (Z.pos d) == inject_Z n).
  { unfold Qeq, Qmult, inject_Z. cbn. lia. }
  set (x := n # d) in *.
  assert (Hpb := pow2_pos b). assert (Hpa := pow2_pos a).
  assert (Hup : x < pow2 (a - b + 1)).
  { apply Qmult_lt_r with (z := pow2 b); [exact Hpb|].
    rewrite <- pow2_add. replace (a - b + 1 + b)%Z with (a + 1)%Z by lia.
    apply Qle_lt_trans with (y := x * inject_Z (Z.pos d)).
    - apply Qmult_le_l; [exact Hx | exact HB].
    - rewrite Hx'. exact HA'. }
  assert (Hlo : pow2 (a - b - 1) <= x).
  { apply Qmult_le_r with (z := pow2 (b + 1)); [apply pow2_pos|].
    rewrite <- pow2_add. replace (a - b - 1 + (b + 1))%Z with a by lia.
    apply Qle_trans with (y := x * inject_Z (Z.pos d)).
    - rewrite Hx'. exact HA.
    - apply Qmult_le_l; [exact Hx | apply Qlt_le_weak; exact HB']. }
  destruct (Qle_bool (pow2 (a - b)) x) eqn:E.
  - apply Qle_bool_iff in E. split; [exact E | exact Hup].
  - split; [exact Hlo|]. replace (a - b - 1 + 1)%Z with (a - b)%Z by lia.
    apply Qnot_le_lt. intros C. apply Qle_bool_iff in C. congruence.
Qed.

Lemma ilog2_unique (x : Q) (e : Z) : pow2 e <= x -> x < pow2 (e + 1) -> ilog2 x = e.
Proof.
  intros H1 H2.
  assert (Hx : 0 < x) by (apply Qlt_le_trans with (y := pow2 e); [apply pow2_pos | exact H1]).
  destruct (ilog2_spec x Hx) as [H3 H4].
  assert (A : (e < ilog2 x + 1)%Z) by (apply pow2_lt_inv; apply Qle_lt_trans with (y := x); assumption).
  assert (B : (ilog2 x < e + 1)%Z) by (apply pow2_lt_inv; apply Qle_lt_trans with (y := x); assumption).
  lia.
Qed.

Lemma ilog2_comp (x y : Q) : 0 < x -> x == y -> ilog2 x = ilog2 y.
Proof.
  intros Hx E. symmetry. destruct (ilog2_spec x Hx) as [H1 H2].
  apply ilog2_unique; rewrite <- E; assumption.
Qed.

Lemma ilog2_lt (x : Q) (n : Z) : 0 < x -> x < pow2 n -> (ilog2 x < n)%Z.
Proof.
  intros Hx H. destruct (ilog2_spec x Hx) as [H1 _].
  apply pow2_lt_inv. apply Qle_lt_trans with (y := x); assumption.
Qed.

Lemma ilog2_ge (x : Q) (n : Z) : pow2 n <= x -> (n <= ilog2 x)%Z.
Proof.
  intros H.
  assert (Hx : 0 < x) by (apply Qlt_le_trans with (y := pow2 n); [apply pow2_pos | exact H]).
  destruct (ilog2_spec x Hx) as [_ H2].
  assert (A : (n < ilog2 x + 1)%Z) by (apply pow2_lt_inv; apply Qle_lt_trans with (y := x); assumption).
  lia.
Qed.


Lemma nearest_even_floor (m : Q) :
  (Qfloor m <= nearest_even m <= Qfloor m + 1)%Z.
Proof.
  unfold nearest_even.
  destruct (Qcompare (m - inject_Z (Qfloor m)) (1 # 2)); try destruct (Z.even (Qfloor m)); lia.
Qed.

Lemma nearest_even_err (m : Q) :
  - (1 # 2) <= inject_Z (nearest_even m) - m <= 1 # 2.
Proof.
  assert (L := Qfloor_le m). assert (U := Qlt_floor m).
  unfold nearest_even.
  destruct (Qcompare (m - inject_Z (Qfloor m)) (1 # 2)) eqn:C.
  - apply Qeq_alt in C.
    destruct (Z.even (Qfloor m)).
    + lra.
    + rewrite inject_Z_plus in *. change (inject_Z 1) with 1 in *. lra.
  - apply Qlt_alt in C. lra.
  - apply Qgt_alt in C. rewrite inject_Z_plus in *. change (inject_Z 1) with 1 in *. lra.
Qed.

Lemma nearest_even_le (m : Q) (B : Z) : m <= inject_Z B -> (nearest_even m <= B)%Z.
Proof.
  intros H.
  assert (F : (Qfloor m <= B)%Z).
  { rewrite <- (Qfloor_Z B). apply Qfloor_resp_le. exact H. }
  assert (L := Qfloor_le m).
  unfold nearest_even.
  destruct (Z.eq_dec (Qfloor m) B) as [E | N].
  - assert (D : m - inject_Z (Qfloor m) <= 0) by (rewrite E; lra).
    destruct (Qcompare (m - inject_Z (Qfloor m)) (1 # 2)) eqn:C.
    + apply Qeq_alt in C. lra.
    + lia.
    + apply Qgt_alt in C. lra.
  - destruct (Qcompare (m - inject_Z (Qfloor m)) (1 # 2)); try destruct (Z.even (Qfloor m)); lia.
Qed.

Lemma nearest_even_ge (m : Q) (A : Z) : inject_Z A <= m -> (A <= nearest_even m)%Z.
Proof.
  intros H.
  assert (F : (A <= Qfloor m)%Z).
  { rewrite <- (Qfloor_Z A). apply Qfloor_resp_le. exact H. }
  pose proof (nearest_even_floor m). lia.
Qed.

Lemma nearest_even_Z (z : Z) : nearest_even (inject_Z z) = z.
Proof.
  pose proof (nearest_even_le (inject_Z z) z (Qle_refl _)).
  pose proof (nearest_even_ge (inject_Z z) z (Qle_refl _)). lia.
Qed.

Lemma nearest_even_comp (m m' : Q) : m == m' -> nearest_even m = nearest_even m'.
Proof.
  intros E. unfold nearest_even.
  rewrite (Qfloor_comp _ _ E).
  assert (E' : m - inject_Z (Qfloor m') == m' - inject_Z (Qfloor m')) by (rewrite E; reflexivity).
  rewrite (Qcompare_comp _ _ E' _ _ (Qeq_refl (1 # 2))). reflexivity.
Qed.


Lemma round_magnitude_grid (fmt : format) (x : Q) :
  round_magnitude fmt x
  = if Qle_bool (pow2 (emax fmt)) (Qred (grid fmt x)) then None else Some (Qred (grid fmt x)).
Proof. reflexivity. Qed.

Lemma grid_err (fmt : format) (x : Q) :
  - pow2 (exponent fmt x - 1) <= grid fmt x - x <= pow2 (exponent fmt x - 1).
Proof.
  unfold grid. set (e := exponent fmt x).
  assert (P := pow2_pos e).
  assert (H := nearest_even_err (x / pow2 e)).
  set (r := inject_Z (nearest_even (x / pow2 e))) in *.
  rewrite pow2_pred.
  assert (X : x == (x / pow2 e) * pow2 e) by (field; lra).
  set (m := x / pow2 e) in *.
  assert (D : r * pow2 e - x == (r - m) * pow2 e) by (rewrite X at 1; ring).
  rewrite D.
  destruct H as [H1 H2].
  split.
  - apply Qle_trans with (y := (- (1 # 2)) * pow2 e); [lra|].
    apply Qmult_le_compat_r; lra.
  - apply Qle_trans with (y := (1 # 2) * pow2 e); [|lra].
    apply Qmult_le_compat_r; lra.
Qed.

Lemma grid_le (fmt : format) (x : Q) (B : Z) :
  x <= inject_Z B * pow2 (exponent fmt x) -> grid fmt x <= inject_Z B * pow2 (exponent fmt x).
Proof.
  intros H. unfold grid. set (e := exponent fmt x) in *.
  assert (P := pow2_pos e).
  apply Qmult_le_compat_r; [|lra].
  rewrite <- Zle_Qle. apply nearest_even_le.
  apply Qle_shift_div_r; assumption.
Qed.

Lemma grid_ge (fmt : format) (x : Q) (A : Z) :
  inject_Z A * pow2 (exponent fmt x) <= x -> inject_Z A * pow2 (exponent fmt x) <= grid fmt x.
Proof.
  intros H. unfold grid. set (e := exponent fmt x) in *.
  assert (P := pow2_pos e).
  apply Qmult_le_compat_r; [|lra].
  rewrite <- Zle_Qle. apply nearest_even_ge.
  apply Qle_shift_div_l; assumption.
Qed.

(** A whole number is on the grid of every exponent that is not positive. *)
Lemma whole_on_grid (z e : Z) : (e <= 0)%Z -> inject_Z z == inject_Z (z * 2 ^ (- e)) * pow2 e.
Proof.
  intros H. rewrite inject_Z_mult, <- pow2_Z by lia.
  rewrite <- Qmult_assoc, <- pow2_add. replace (- e + e)%Z with 0%Z by lia.
  rewrite pow2_0. ring.
Qed.

Lemma pow2_on_grid (n e : Z) : (e <= n)%Z -> pow2 n == inject_Z (2 ^ (n - e)) * pow2 e.
Proof.
  intros H. rewrite <- pow2_Z by lia. rewrite <- pow2_add.
  replace (n - e + e)%Z with n by lia. reflexivity.
Qed.

Lemma exponent_le (fmt : format) (x : Q) (n : Z) :
  0 < x -> x < pow2 n -> (emin fmt <= n - precision fmt)%Z ->
  (exponent fmt x <= n - precision fmt)%Z.
Proof.
  intros Hx H He. unfold exponent.
  pose proof (ilog2_lt x n Hx H). lia.
Qed.

Lemma exponent_normal (fmt : format) (x : Q) :
  pow2 (emin fmt + precision fmt - 1) <= x ->
  exponent fmt x = (ilog2 x + 1 - precision fmt)%Z.
Proof.
  intros H. unfold exponent. pose proof (ilog2_ge x _ H). lia.
Qed.



Lemma binary32_standard : standard binary32.
Proof. unfold standard; cbn; lia. Qed.

Lemma binary64_standard : standard binary64.
Proof. unfold standard; cbn; lia. Qed.

Lemma rnd_zero (fmt : format) (x : Q) : x == 0 -> rnd fmt x = Finite 0.
Proof. intros E. unfold rnd. rewrite (proj1 (Qeq_alt _ _) E). reflexivity. Qed.

Lemma rnd_pos (fmt : format) (x : Q) :
  0 < x -> Qred (grid fmt x) < pow2 (emax fmt) -> rnd fmt x = Finite (Qred (grid fmt x)).
Proof.
  intros Hx Hv. unfold rnd. rewrite (proj1 (Qgt_alt _ _) Hx).
  rewrite round_magnitude_grid.
  destruct (Qle_bool (pow2 (emax fmt)) (Qred (grid fmt x))) eqn:E; [|reflexivity].
  apply Qle_bool_iff in E. lra.
Qed.

Lemma rnd_whole_bounds (fmt : format) (x : Q) (a b : Z) :
  standard fmt -> 0 <= x -> inject_Z a <= x -> x <= inject_Z b ->
  (b < 2 ^ precision fmt)%Z ->
  exists v, rnd fmt x = Finite v /\ inject_Z a <= v /\ v <= inject_Z b.
Proof.
  intros (Hp & Hm & HM) H0 Ha Hb Hlt.
  destruct (Qeq_dec x 0) as [E | N].
  - exists 0. split; [apply rnd_zero; exact E|]. rewrite E in *. split; assumption.
  - assert (Hx : 0 < x) by (apply Qle_lteq in H0; destruct H0 as [? | C]; [assumption | symmetry in C; contradiction]).
    assert (Hb' : inject_Z b < pow2 (precision fmt)).
    { rewrite pow2_Z by lia. rewrite <- Zlt_Qlt. exact Hlt. }
    assert (He : (exponent fmt x <= 0)%Z).
    { pose proof (exponent_le fmt x (precision fmt) Hx). lapply H; [|lra]. lia. }
    assert (G1 : grid fmt x <= inject_Z b).
    { rewrite (whole_on_grid b _ He) in *. apply grid_le. exact Hb. }
    assert (G2 : inject_Z a <= grid fmt x).
    { rewrite (whole_on_grid a _ He) in *. apply grid_ge. exact Ha. }
    pose proof (Qred_correct (grid fmt x)) as R.
    exists (Qred (grid fmt x)). split; [|split; lra].
    apply rnd_pos; [exact Hx|].
    apply Qle_lt_trans with (y := inject_Z b); [lra|].
    apply Qlt_trans with (y := pow2 (precision fmt)); [exact Hb'|].
    apply pow2_lt. exact HM.
Qed.

Lemma rnd_whole (fmt : format) (z : Z) :
  standard fmt -> (0 <= z < 2 ^ precision fmt)%Z ->
  exists v, rnd fmt (inject_Z z) = Finite v /\ v == inject_Z z.
Proof.
  intros Hs [H0 H1].
  destruct (rnd_whole_bounds fmt (inject_Z z) z z Hs) as (v & E & A & B); try lra; try assumption.
  - change 0 with (inject_Z 0). rewrite <- Zle_Qle. exact H0.
  - exists v. split; [exact E | lra].
Qed.

Lemma rnd_abs (fmt : format) (x : Q) (n : Z) :
  standard fmt -> 0 <= x -> x < pow2 n ->
  (emin fmt <= n - precision fmt)%Z -> (n < emax fmt)%Z ->
  exists v, rnd fmt x = Finite v
            /\ - pow2 (n - precision fmt - 1) <= v - x <= pow2 (n - precision fmt - 1)
            /\ 0 <= v <= pow2 n.
Proof.
  intros (Hp & Hm & HM) H0 Hn He Hmax.
  destruct (Qeq_dec x 0) as [E | N].
  - exists 0. split; [apply rnd_zero; exact E|]. rewrite E.
    pose proof (pow2_pos (n - precision fmt - 1)). pose proof (pow2_pos n). lra.
  - assert (Hx : 0 < x) by (apply Qle_lteq in H0; destruct H0 as [? | C]; [assumption | symmetry in C; contradiction]).
    assert (Hexp := exponent_le fmt x n Hx Hn He).
    assert (Herr := grid_err fmt x).
    assert (Hmono : pow2 (exponent fmt x - 1) <= pow2 (n - precision fmt - 1)) by (apply pow2_le; lia).
    assert (G1 : grid fmt x <= pow2 n).
    { rewrite (pow2_on_grid n (exponent fmt x)) in * by lia. apply grid_le. lra. }
    assert (G0 : 0 <= grid fmt x).
    { assert (Z0 : 0 == inject_Z 0 * pow2 (exponent fmt x)) by ring.
      rewrite Z0 at 1. apply grid_ge. rewrite <- Z0. exact H0. }
    pose proof (Qred_correct (grid fmt x)) as R.
    exists (Qred (grid fmt x)). split; [|split; [lra | split; lra]].
    apply rnd_pos; [exact Hx|].
    apply Qle_lt_trans with (y := pow2 n); [lra | apply pow2_lt; exact Hmax].
Qed.

Lemma rnd_rel (fmt : format) (x : Q) (n : Z) :
  standard fmt -> pow2 (emin fmt + precision fmt - 1) <= x -> x < pow2 n -> (n < emax fmt)%Z ->
  exists v, rnd fmt x = Finite v
            /\ - (x * pow2 (- precision fmt)) <= v - x <= x * pow2 (- precision fmt).
Proof.
  intros (Hp & Hm & HM) Hlo Hn Hmax.
  assert (Hx : 0 < x) by (apply Qlt_le_trans with (y := pow2 (emin fmt + precision fmt - 1)); [apply pow2_pos | exact Hlo]).
  assert (Hexp := exponent_normal fmt x Hlo).
  assert (Herr := grid_err fmt x).
  destruct (ilog2_spec x Hx) as [L1 L2].
  assert (HL := ilog2_lt x n Hx Hn).
  assert (Hu : pow2 (exponent fmt x - 1) <= x * pow2 (- precision fmt)).
  { rewrite Hexp. replace (ilog2 x + 1 - precision fmt - 1)%Z with (ilog2 x + - precision fmt)%Z by lia.
    rewrite pow2_add. apply Qmult_le_compat_r; [exact L1 | apply Qlt_le_weak, pow2_pos]. }
  assert (G1 : grid fmt x <= pow2 n).
  { rewrite (pow2_on_grid n (exponent fmt x)) in * by lia. apply grid_le. lra. }
  pose proof (Qred_correct (grid fmt x)) as R.
  exists (Qred (grid fmt x)). split; [|lra].
  apply rnd_pos; [exact Hx|].
  apply Qle_lt_trans with (y := pow2 n); [lra | apply pow2_lt; exact Hmax].
Qed.

Lemma rnd_comp (fmt : format) (x y : Q) : x == y -> rnd fmt x = rnd fmt y.
Proof.
  intros E.
  assert (G : forall a b, 0 < a -> a == b -> round_magnitude fmt a = round_magnitude fmt b).
  { intros a b Ha Eab. rewrite !round_magnitude_grid.
    assert (Eg : Qred (grid fmt a) = Qred (grid fmt b)).
    { apply Qred_complete. unfold grid, exponent. rewrite (ilog2_comp a b Ha Eab).
      set (e := Z.max _ _).
      assert (Em : a / pow2 e == b / pow2 e) by (rewrite Eab; reflexivity).
      rewrite (nearest_even_comp _ _ Em). reflexivity. }
    rewrite Eg. reflexivity. }
  unfold rnd. rewrite (Qcompare_comp _ _ E _ _ (Qeq_refl 0)).
  destruct (Qcompare y 0) eqn:C.
  - reflexivity.
  - apply Qlt_alt in C. rewrite (G (- x) (- y)); [reflexivity | lra | rewrite E; reflexivity].
  - apply Qgt_alt in C. rewrite (G x y); [reflexivity | lra | exact E].
Qed.

(** A value that was rounded is not changed by rounding it again. *)
Lemma rnd_fixed (fmt : format) (x v : Q) :
  standard fmt -> pow2 (emin fmt + precision fmt - 1) <= x ->
  rnd fmt x = Finite v -> rnd fmt v = Finite v.
Proof.
  intros (Hp & Hm & HM) Hlo Hr.
  assert (Hx : 0 < x) by (apply Qlt_le_trans with (y := pow2 (emin fmt + precision fmt - 1)); [apply pow2_pos | exact Hlo]).
  assert (Hexp := exponent_normal fmt x Hlo).
  destruct (ilog2_spec x Hx) as [L1 L2].
  set (L := ilog2 x) in *. set (p := precision fmt) in *.
  unfold rnd in Hr. rewrite (proj1 (Qgt_alt _ _) Hx) in Hr. rewrite round_magnitude_grid in Hr.
  destruct (Qle_bool (pow2 (emax fmt)) (Qred (grid fmt x))) eqn:Ov; [discriminate|].
  assert (Hv : Qred (grid fmt x) = v) by congruence.
  clear Hr.
  assert (Hov : v < pow2 (emax fmt)).
  { apply Qnot_le_lt. intros C. apply Qle_bool_iff in C. rewrite Hv in Ov. congruence. }
  assert (Ev : v == grid fmt x) by (rewrite <- Hv; apply Qred_correct).
  assert (G1 : grid fmt x <= pow2 (L + 1)).
  { rewrite (pow2_on_grid (L + 1) (exponent fmt x)) in * by lia. apply grid_le. lra. }
  assert (G0 : pow2 L <= grid fmt x).
  { rewrite (pow2_on_grid L (exponent fmt x)) in * by lia. apply grid_ge. lra. }
  assert (Hv0 : 0 < v) by (pose proof (pow2_pos L); lra).
  assert (Key : Qred (grid fmt v) = v).
  { rewrite <- Hv at 2. apply Qred_complete. rewrite <- Ev.
    destruct (Qlt_le_dec v (pow2 (L + 1))) as [Lt | Ge].
    - assert (EL : ilog2 v = L) by (apply ilog2_unique; lra).
      unfold grid at 1. unfold exponent. rewrite EL. fold L p in Hexp. 
      change (Z.max (ilog2 x + 1 - precision fmt) (emin fmt)) with (exponent fmt x) in Hexp.
      assert (Ee : Z.max (L + 1 - precision fmt) (emin fmt) = exponent fmt x) by (unfold exponent; reflexivity).
      rewrite Ee.
      assert (Em : v / pow2 (exponent fmt x) == inject_Z (nearest_even (x / pow2 (exponent fmt x)))).
      { rewrite Ev. unfold grid. field. pose proof (pow2_pos (exponent fmt x)). lra. }
      rewrite (nearest_even_comp _ _ Em), nearest_even_Z. rewrite Ev. reflexivity.
    - assert (Eq1 : v == pow2 (L + 1)) by lra.
      assert (EL : ilog2 v = (L + 1)%Z).
      { apply ilog2_unique; [lra|]. rewrite Eq1. apply pow2_lt. lia. }
      unfold grid. unfold exponent. rewrite EL.
      assert (Ee : Z.max (L + 1 + 1 - precision fmt) (emin fmt) = (L + 2 - p)%Z).
      { unfold exponent in Hexp. fold L p in Hexp. fold p. lia. }
      rewrite Ee.
      assert (Em : v / pow2 (L + 2 - p) == inject_Z (2 ^ (p - 1))).
      { rewrite Eq1. rewrite <- pow2_Z by lia.
        assert (S : pow2 (L + 1) == pow2 (p - 1) * pow2 (L + 2 - p)).
        { rewrite <- pow2_add. replace (p - 1 + (L + 2 - p))%Z with (L + 1)%Z by lia. reflexivity. }
        rewrite S. field. pose proof (pow2_pos (L + 2 - p)). lra. }
      rewrite (nearest_even_comp _ _ Em), nearest_even_Z.
      rewrite <- pow2_Z by lia. rewrite <- pow2_add.
      replace (p - 1 + (L + 2 - p))%Z with (L + 1)%Z by lia. lra. }
  unfold rnd. rewrite (proj1 (Qgt_alt _ _) Hv0). rewrite round_magnitude_grid, Key.
  destruct (Qle_bool (pow2 (emax fmt)) v) eqn:E; [|reflexivity].
  apply Qle_bool_iff in E. lra.
Qed.



Lemma rnd_reduced (fmt : format) (x v : Q) : 0 <= x -> rnd fmt x = Finite v -> Qred v = v.
Proof.
  intros H0 H. unfold rnd in H. destruct (Qcompare x 0) eqn:C.
  - assert (E : v = 0) by congruence. rewrite E. reflexivity.
  - apply Qlt_alt in C. lra.
  - rewrite round_magnitude_grid in H.
    destruct (Qle_bool (pow2 (emax fmt)) (Qred (grid fmt x))); [discriminate|].
    assert (E : Qred (grid fmt x) = v) by congruence. rewrite <- E.
    apply Qred_complete, Qred_correct.
Qed.

Lemma Qred_inject_Z (z : Z) : Qred (inject_Z z) = inject_Z z.
Proof. apply Qcanon.Qred_identity. cbn. apply Z.gcd_1_r. Qed.

Lemma reduced_whole (v : Q) (z : Z) : Qred v = v -> v == inject_Z z -> v = inject_Z z.
Proof.
  intros R E. rewrite <- R, <- (Qred_inject_Z z). apply Qred_complete. exact E.
Qed.

Lemma fround_whole (z : Z) : (0 <= z < 2 ^ 24)%Z -> fround (whole z) = whole z.
Proof.
  intros H. unfold fround, whole.
  destruct (rnd_whole binary32 z binary32_standard H) as (v & E & V).
  rewrite E. f_equal. apply reduced_whole; [|exact V].
  apply (rnd_reduced binary32 (inject_Z z)); [|exact E].
  change 0 with (inject_Z 0). rewrite <- Zle_Qle. lia.
Qed.

Lemma lt_Finite (x y : Q) : lt (Finite x) (Finite y) = true <-> x < y.
Proof.
  cbn. rewrite negb_true_iff. split.
  - intros H. apply Qnot_le_lt. intros C. apply Qle_bool_iff in C. congruence.
  - intros H. destruct (Qle_bool y x) eqn:E; [|reflexivity]. apply Qle_bool_iff in E. lra.
Qed.

Lemma lt_Finite_false (x y : Q) : lt (Finite x) (Finite y) = false <-> y <= x.
Proof.
  cbn. rewrite negb_false_iff. apply Qle_bool_iff.
Qed.

Lemma Math_max_Finite (x y : Q) :
  exists t, Math_max (Finite x) (Finite y) = Finite t /\ t == Qmax x y.
Proof.
  unfold Math_max. destruct (lt (Finite x) (Finite y)) eqn:E.
  - apply lt_Finite in E. exists y. split; [reflexivity|]. rewrite Q.max_r; lra.
  - apply lt_Finite_false in E. exists x. split; [reflexivity|]. rewrite Q.max_l; lra.
Qed.

Lemma Math_min_Finite (x y : Q) :
  exists t, Math_min (Finite x) (Finite y) = Finite t /\ t == Qmin x y.
Proof.
  unfold Math_min. destruct (lt (Finite y) (Finite x)) eqn:E.
  - apply lt_Finite in E. exists y. split; [reflexivity|]. rewrite Q.min_r; lra.
  - apply lt_Finite_false in E. exists x. split; [reflexivity|]. rewrite Q.min_l; lra.
Qed.

Lemma clamped_range (s : number) (lo hi : Q) : lo <= hi -> lo <= clamped s lo hi <= hi.
Proof.
  intros H. destruct s as [| [|] | q]; cbn; try lra.
  split; [apply Q.le_max_l|]. apply Q.max_lub; [exact H | apply Q.le_min_l].
Qed.

Lemma clamp_value (s : number) (a b : Z) :
  s <> NaN -> (a <= b)%Z ->
  exists t, clamp s (whole a) (whole b) = Finite t /\ t == clamped s (inject_Z a) (inject_Z b).
Proof.
  intros Hs Hab. assert (Hq : inject_Z a <= inject_Z b) by (rewrite <- Zle_Qle; exact Hab).
  unfold clamp, whole. destruct s as [| [|] | q]; [congruence | | |].
  - exists (inject_Z a). split; reflexivity.
  - destruct (Math_max_Finite (inject_Z a) (inject_Z b)) as (t & E & V).
    exists t. split; [exact E|]. rewrite V. cbn. apply Q.max_r. exact Hq.
  - destruct (Math_min_Finite (inject_Z b) q) as (t & E & V). rewrite E.
    destruct (Math_max_Finite (inject_Z a) t) as (u & E' & V'). exists u.
    split; [exact E'|]. rewrite V'. cbn. rewrite V. reflexivity.
Qed.


(** Rounding a value between two whole numbers, with the error of the
    format. *)
Lemma rnd_store (fmt : format) (x : Q) (a b n : Z) :
  standard fmt -> 0 <= x -> inject_Z a <= x -> x <= inject_Z b ->
  (b < 2 ^ precision fmt)%Z -> x < pow2 n ->
  (emin fmt <= n - precision fmt)%Z -> (n < emax fmt)%Z ->
  exists v, rnd fmt x = Finite v
            /\ inject_Z a <= v /\ v <= inject_Z b
            /\ - pow2 (n - precision fmt - 1) <= v - x
            /\ v - x <= pow2 (n - precision fmt - 1)
            /\ Qred v = v.
Proof.
  intros Hs H0 Ha Hb Hlt Hn He Hmax.
  destruct (rnd_whole_bounds fmt x a b Hs H0 Ha Hb Hlt) as (v & E & A & B).
  destruct (rnd_abs fmt x n Hs H0 Hn He Hmax) as (v' & E' & (C & D) & _).
  assert (v' = v) by congruence. subst v'.
  exists v. repeat split; try assumption.
  apply (rnd_reduced fmt x); assumption.
Qed.

Lemma pow2_m3 : pow2 (-3) == 1 # 8. Proof. reflexivity. Qed.
Lemma pow2_m23 : pow2 (-23) == 1 # 8388608. Proof. reflexivity. Qed.
Lemma pow2_m24 : pow2 (-24) == 1 # 16777216. Proof. reflexivity. Qed.
Lemma pow2_m32 : pow2 (-32) == 1 # 4294967296. Proof. reflexivity. Qed.
Lemma pow2_m53 : pow2 (-53) == 1 # 9007199254740992. Proof. reflexivity. Qed.
Lemma pow2_21 : pow2 21 == 2097152. Proof. reflexivity. Qed.
Lemma pow2_22 : pow2 22 == 4194304. Proof. reflexivity. Qed.
Lemma pow2_1 : pow2 1 == 2. Proof. reflexivity. Qed.

Lemma inject_Z_bounds (z a b : Z) : (a <= z <= b)%Z -> inject_Z a <= inject_Z z <= inject_Z b.
Proof. intros [H1 H2]. split; rewrite <- Zle_Qle; assumption. Qed.

Lemma Qfloor_half_bounds (m : Q) (a b : Z) :
  inject_Z a <= m -> m <= inject_Z b -> (a <= Qfloor (m + (1 # 2)) <= b)%Z.
Proof.
  intros Ha Hb. split.
  - rewrite <- (Qfloor_Z a). apply Qfloor_resp_le. lra.
  - assert (L := Qfloor_le (m + (1 # 2))).
    assert (H : inject_Z (Qfloor (m + (1 # 2))) < inject_Z (b + 1)).
    { rewrite inject_Z_plus. change (inject_Z 1) with 1. lra. }
    rewrite <- Zlt_Qlt in H. lia.
Qed.

Lemma Qfloor_half_near (m : Q) (z : Z) :
  inject_Z z - (1 # 2) <= m -> m < inject_Z z + (1 # 2) -> Qfloor (m + (1 # 2)) = z.
Proof.
  intros H1 H2.
  assert (L := Qfloor_le (m + (1 # 2))). assert (U := Qlt_floor (m + (1 # 2))).
  rewrite inject_Z_plus in U. change (inject_Z 1) with 1 in U.
  assert (A : inject_Z (Qfloor (m + (1 # 2))) < inject_Z (z + 1)).
  { rewrite inject_Z_plus. change (inject_Z 1) with 1. lra. }
  assert (B : inject_Z z < inject_Z (Qfloor (m + (1 # 2)) + 1)).
  { rewrite inject_Z_plus. change (inject_Z 1) with 1. lra. }
  rewrite <- Zlt_Qlt in A, B. lia.
Qed.

(** Single precision keeps 0.3 as 5033165/2^24 and 0.49999999 as 1/2, and
    does not hold 2^24 + 1; a division by zero and an overflow give
    infinity. *)
Example single_precision_values :
  fround (literal (3 # 10)) = Finite (5033165 # 16777216)
  /\ fround (literal (49999999 # 100000000)) = Finite (1 # 2)
  /\ fround (whole 16777217) = whole 16777216
  /\ Ieee.div (whole 1) (whole 0) = Infinity false
  /\ fround (Finite (inject_Z (2 ^ 128))) = Infinity false.
Proof. repeat split; vm_compute; reflexivity. Qed.

(** ** The steps of the setters on one axis *)

(** [clamp2] into the unit interval. *)
Lemma clamp_unit_store (s : number) :
  s <> NaN ->
  exists c, fround (clamp s (Finite 0) (Finite 1)) = Finite c
            /\ 0 <= c /\ c <= 1
            /\ - (1 # 16777216) <= c - clamped s 0 1
            /\ c - clamped s 0 1 <= 1 # 16777216.
Proof.
  intros Hs.
  destruct (clamp_value s 0 1 Hs) as (t & E & V); [lia|].
  change (whole 0) with (Finite 0) in E. change (whole 1) with (Finite 1) in E.
  change (inject_Z 0) with 0 in V. change (inject_Z 1) with 1 in V.
  rewrite E. unfold fround.
  assert (R := clamped_range s 0 1). lapply R; [clear R; intros R | lra].
  destruct (rnd_store binary32 t 0 1 1 binary32_standard) as (c & Ec & A & B & C & D & _);
    try (cbn; lia); try (rewrite ?pow2_1; change (inject_Z 0) with 0; change (inject_Z 1) with 1; lra).
  change (inject_Z 0) with 0 in A. change (inject_Z 1) with 1 in B.
  change (pow2 (1 - precision binary32 - 1)) with (pow2 (-24)) in C, D.
  rewrite pow2_m24 in C, D.
  exists c. repeat split; try assumption; lra.
Qed.

(** [vec2.mul] of a whole surface size and a scale of the unit interval. *)
Lemma mul_store (X : Z) (c : Q) :
  (1 <= X <= 2 ^ 21)%Z -> 0 <= c -> c <= 1 ->
  exists p, fround (Ieee.mul (whole X) (Finite c)) = Finite p
            /\ 0 <= p /\ p <= inject_Z X
            /\ - ((1 # 8) + (1 # 4294967296)) <= p - inject_Z X * c
            /\ p - inject_Z X * c <= (1 # 8) + (1 # 4294967296)
            /\ (1 < p -> rnd binary32 p = Finite p).
Proof.
  intros HX H0 H1.
  assert (HXq := inject_Z_bounds X 1 (2 ^ 21) HX).
  change (inject_Z 1) with 1 in HXq. change (inject_Z (2 ^ 21)) with 2097152 in HXq.
  set (x := inject_Z X * c).
  assert (Hx0 : 0 <= x) by (unfold x; apply Qmult_le_0_compat; lra).
  assert (Hx1 : x <= inject_Z X).
  { unfold x. rewrite <- (Qmult_1_r (inject_Z X)) at 2. apply Qmult_le_l; lra. }
  unfold Ieee.mul, whole, double. fold x.
  destruct (rnd_store binary64 x 0 X 22 binary64_standard) as (d & Ed & A & B & C & D & _);
    try (cbn; lia); try (rewrite ?pow2_22; change (inject_Z 0) with 0; lra).
  change (inject_Z 0) with 0 in A.
  change (pow2 (22 - precision binary64 - 1)) with (pow2 (-32)) in C, D.
  rewrite pow2_m32 in C, D.
  rewrite Ed. unfold fround.
  destruct (rnd_store binary32 d 0 X 22 binary32_standard) as (p & Ep & A' & B' & C' & D' & _);
    try (cbn; lia); try (rewrite ?pow2_22; change (inject_Z 0) with 0; lra).
  change (inject_Z 0) with 0 in A'.
  change (pow2 (22 - precision binary32 - 1)) with (pow2 (-3)) in C', D'.
  rewrite pow2_m3 in C', D'.
  exists p. split; [exact Ep|]. split; [exact A'|]. split; [exact B'|].
  split; [lra|]. split; [lra|].
  intros Hp.
  apply (rnd_fixed binary32 d p binary32_standard); [|exact Ep].
  destruct (Qlt_le_dec 1 d) as [Hd | Hd].
  - apply Qle_trans with (y := 1); [|lra].
    change 1 with (pow2 0). apply pow2_le. cbn. lia.
  - exfalso.
    destruct (rnd_whole_bounds binary32 d 0 1 binary32_standard) as (p' & Ep' & _ & Bp');
      try (cbn; lia); try (change (inject_Z 0) with 0; change (inject_Z 1) with 1; lra).
    change (inject_Z 1) with 1 in Bp'. assert (p' = p) by congruence. subst p'. lra.
Qed.

(** [vec2.max] with one. *)
Lemma max_store (p : Q) :
  (1 < p -> rnd binary32 p = Finite p) ->
  exists m, fround (Math_max (Finite 1) (Finite p)) = Finite m /\ m == Qmax 1 p.
Proof.
  intros Hp. unfold Math_max. destruct (lt (Finite 1) (Finite p)) eqn:E.
  - apply lt_Finite in E. exists p. split; [exact (Hp E)|]. rewrite Q.max_r; lra.
  - apply lt_Finite_false in E. exists 1. split.
    + exact (fround_whole 1 ltac:(lia)).
    + rewrite Q.max_l; lra.
Qed.

(** [vec2.round] of a value between 1 and a whole bound. *)
Lemma round_store (m : Q) (X : Z) :
  (X <= 2 ^ 21)%Z -> 1 <= m -> m <= inject_Z X ->
  fround (Math_round (Finite m)) = whole (Qfloor (m + (1 # 2)))
  /\ (1 <= Qfloor (m + (1 # 2)) <= X)%Z.
Proof.
  intros HX H1 H2.
  assert (B := Qfloor_half_bounds m 1 X H1 H2).
  split; [|exact B].
  unfold Math_round. apply (fround_whole (Qfloor (m + (1 # 2)))). lia.
Qed.



Lemma pow2_m22 : pow2 (-22) == 1 # 4194304. Proof. reflexivity. Qed.
Lemma pow2_m21 : pow2 (-21) == 1 # 2097152. Proof. reflexivity. Qed.

(** [vec2.div] of a whole frame size by the whole surface size. *)
Lemma div_store (z X : Z) :
  (1 <= z <= X)%Z -> (X <= 2 ^ 21)%Z ->
  exists k, fround (Ieee.div (whole z) (whole X)) = Finite k
            /\ 0 < k /\ k <= 1
            /\ - ((inject_Z z / inject_Z X) * ((1 # 16777216) + (1 # 4503599627370496)))
               <= k - inject_Z z / inject_Z X
            /\ k - inject_Z z / inject_Z X
               <= (inject_Z z / inject_Z X) * ((1 # 16777216) + (1 # 4503599627370496))
            /\ rnd binary32 k = Finite k.
Proof.
  intros Hz HX.
  assert (HXq := inject_Z_bounds X 1 (2 ^ 21) ltac:(lia)).
  assert (Hzq := inject_Z_bounds z 1 X Hz).
  change (inject_Z 1) with 1 in HXq, Hzq. change (inject_Z (2 ^ 21)) with 2097152 in HXq.
  set (x := inject_Z z / inject_Z X).
  assert (Hx1 : x <= 1) by (unfold x; apply Qle_shift_div_r; lra).
  assert (Hx0 : (1 # 2097152) <= x) by (unfold x; apply Qle_shift_div_l; lra).
  assert (E0 : Ieee.div (whole z) (whole X) = double x).
  { unfold Ieee.div, whole. destruct (Qcompare (inject_Z X) 0) eqn:C; try reflexivity.
    apply Qeq_alt in C. lra. }
  rewrite E0. unfold double.
  destruct (rnd_rel binary64 x 1 binary64_standard) as (d & Ed & C & D);
    try (cbn; lia); try (rewrite pow2_1; lra).
  { apply Qle_trans with (y := pow2 (-21)); [apply pow2_le; cbn; lia | rewrite pow2_m21; exact Hx0]. }
  change (pow2 (- precision binary64)) with (pow2 (-53)) in C, D. rewrite pow2_m53 in C, D.
  destruct (rnd_whole_bounds binary64 x 0 1 binary64_standard) as (d' & Ed' & _ & Bd);
    try (cbn; lia); try (change (inject_Z 0) with 0; change (inject_Z 1) with 1; lra).
  change (inject_Z 1) with 1 in Bd. assert (d' = d) by congruence. subst d'.
  rewrite Ed. unfold fround.
  assert (Hd0 : (1 # 4194304) <= d) by lra.
  assert (Hn : pow2 (emin binary32 + precision binary32 - 1) <= d).
  { apply Qle_trans with (y := pow2 (-22)); [apply pow2_le; cbn; lia | rewrite pow2_m22; exact Hd0]. }
  destruct (rnd_rel binary32 d 1 binary32_standard Hn) as (k & Ek & C' & D');
    try (cbn; lia); try (rewrite pow2_1; lra).
  change (pow2 (- precision binary32)) with (pow2 (-24)) in C', D'. rewrite pow2_m24 in C', D'.
  destruct (rnd_whole_bounds binary32 d 0 1 binary32_standard) as (k' & Ek' & _ & Bk);
    try (cbn; lia); try (change (inject_Z 0) with 0; change (inject_Z 1) with 1; lra).
  change (inject_Z 1) with 1 in Bk. assert (k' = k) by congruence. subst k'.
  exists k. split; [exact Ek|]. split; [lra|]. split; [exact Bk|].
  split; [lra|]. split; [lra|].
  apply (rnd_fixed binary32 d k binary32_standard Hn Ek).
Qed.

(** A scale that [vec2.div] produced passes the clamp unchanged. *)
Lemma clamp_unit_fixed (k : Q) :
  0 < k -> k <= 1 -> rnd binary32 k = Finite k ->
  fround (clamp (Finite k) (Finite 0) (Finite 1)) = Finite k.
Proof.
  intros H0 H1 Hk.
  destruct (clamp_value (Finite k) 0 1) as (t & E & V); [discriminate | lia |].
  change (whole 0) with (Finite 0) in E. change (whole 1) with (Finite 1) in E.
  rewrite E. unfold fround. rewrite <- Hk. apply rnd_comp.
  rewrite V. cbn. change (inject_Z 0) with 0. change (inject_Z 1) with 1.
  rewrite Q.min_r by lra. rewrite Q.max_r by lra. reflexivity.
Qed.

Lemma Qmax_one_close (a b e : Q) :
  - e <= a - b -> a - b <= e -> - e <= Qmax 1 a - Qmax 1 b /\ Qmax 1 a - Qmax 1 b <= e.
Proof.
  intros H1 H2.
  destruct (Q.max_spec 1 a) as [[A1 A2] | [A1 A2]];
  destruct (Q.max_spec 1 b) as [[B1 B2] | [B1 B2]]; rewrite A2, B2; lra.
Qed.

(** The frame of one axis after [set frameScale]. *)
Lemma scaleAxis_spec (X : Z) (s : number) :
  (1 <= X <= 2 ^ 21)%Z -> s <> NaN ->
  exists (z : Z) (k : Q),
    scaleAxis (whole X) s = (whole z, Finite k)
    /\ (1 <= z <= X)%Z
    /\ - (4 # 5) <= inject_Z z - Qmax 1 (inject_Z X * clamped s 0 1)
    /\ inject_Z z - Qmax 1 (inject_Z X * clamped s 0 1) <= 4 # 5
    /\ 0 < k /\ k <= 1
    /\ - (1 # 8388608) <= k - inject_Z z / inject_Z X
    /\ k - inject_Z z / inject_Z X <= 1 # 8388608
    /\ scaleAxis (whole X) (Finite k) = (whole z, Finite k).
Proof.
  intros HX Hs.
  assert (HXq := inject_Z_bounds X 1 (2 ^ 21) HX).
  change (inject_Z 1) with 1 in HXq. change (inject_Z (2 ^ 21)) with 2097152 in HXq.
  unfold scaleAxis.
  destruct (clamp_unit_store s Hs) as (c & Ec & C0 & C1 & C2 & C3). rewrite Ec.
  destruct (mul_store X c HX C0 C1) as (p & Ep & P0 & P1 & P2 & P3 & P4). rewrite Ep.
  destruct (max_store p P4) as (m & Em & Vm). rewrite Em.
  assert (M1 : 1 <= m) by (rewrite Vm; apply Q.le_max_l).
  assert (M2 : m <= inject_Z X) by (rewrite Vm; apply Q.max_lub; lra).
  destruct (round_store m X ltac:(lia) M1 M2) as (Er & Z1). rewrite Er.
  set (z := Qfloor (m + (1 # 2))) in *.
  destruct (div_store z X Z1 ltac:(lia)) as (k & Ek & K0 & K1 & K2 & K3 & K4). rewrite Ek.
  assert (Hzq := inject_Z_bounds z 1 X Z1). change (inject_Z 1) with 1 in Hzq.
  set (x := inject_Z z / inject_Z X) in *.
  assert (Hx1 : x <= 1) by (unfold x; apply Qle_shift_div_r; lra).
  assert (Hx0 : 0 < x) by (unfold x; apply Qlt_shift_div_l; lra).
  assert (Exz : inject_Z X * x == inject_Z z) by (unfold x; field; lra).
  exists z, k. fold x. split; [reflexivity|]. split; [exact Z1|].
  assert (L := Qfloor_le (m + (1 # 2))). assert (U := Qlt_floor (m + (1 # 2))).
  fold z in L, U. rewrite inject_Z_plus in U. change (inject_Z 1) with 1 in U.
  set (cl := clamped s 0 1) in *.
  assert (Sc : - (1 # 8) <= inject_Z X * c - inject_Z X * cl /\ inject_Z X * c - inject_Z X * cl <= 1 # 8).
  { assert (D : inject_Z X * c - inject_Z X * cl == inject_Z X * (c - cl)) by ring.
    rewrite D. split.
    - apply Qle_trans with (y := inject_Z X * - (1 # 16777216)); [lra|].
      apply Qmult_le_l; lra.
    - apply Qle_trans with (y := inject_Z X * (1 # 16777216)); [|lra].
      apply Qmult_le_l; lra. }
  destruct (Qmax_one_close p (inject_Z X * cl) ((1 # 4) + (1 # 4294967296))) as [Q1 Q2]; try lra.
  rewrite <- Vm in Q1, Q2.
  split; [lra|]. split; [lra|]. split; [exact K0|]. split; [exact K1|].
  split; [lra|]. split; [lra|].
  rewrite (clamp_unit_fixed k K0 K1 K4).
  destruct (mul_store X k HX ltac:(lra) K1) as (p' & Ep' & P0' & P1' & P2' & P3' & P4'). rewrite Ep'.
  destruct (max_store p' P4') as (m' & Em' & Vm'). rewrite Em'.
  assert (M1' : 1 <= m') by (rewrite Vm'; apply Q.le_max_l).
  assert (M2' : m' <= inject_Z X) by (rewrite Vm'; apply Q.max_lub; lra).
  destruct (round_store m' X ltac:(lia) M1' M2') as (Er' & _). rewrite Er'.
  assert (Kz : - ((1 # 8) + (1 # 1024)) <= inject_Z X * k - inject_Z z
               /\ inject_Z X * k - inject_Z z <= (1 # 8) + (1 # 1024)).
  { assert (D : inject_Z X * k - inject_Z z == inject_Z X * (k - x)) by (rewrite <- Exz; ring).
    rewrite D.
    assert (B : inject_Z X * (x * ((1 # 16777216) + (1 # 4503599627370496)))
                == inject_Z z * ((1 # 16777216) + (1 # 4503599627370496))) by (rewrite <- Exz; ring).
    split.
    - apply Qle_trans with (y := inject_Z X * - (x * ((1 # 16777216) + (1 # 4503599627370496)))).
      + assert (B' : inject_Z X * - (x * ((1 # 16777216) + (1 # 4503599627370496)))
                     == - (inject_Z z * ((1 # 16777216) + (1 # 4503599627370496)))) by (rewrite <- B; ring).
        rewrite B'. lra.
      + apply Qmult_le_l; lra.
    - apply Qle_trans with (y := inject_Z X * (x * ((1 # 16777216) + (1 # 4503599627370496)))).
      + apply Qmult_le_l; lra.
      + rewrite B. lra. }
  assert (Ez : Qfloor (m' + (1 # 2)) = z).
  { apply Qfloor_half_near.
    - destruct (Q.max_spec 1 p') as [[A1 A2] | [A1 A2]]; rewrite Vm', A2; lra.
    - destruct (Q.max_spec 1 p') as [[A1 A2] | [A1 A2]]; rewrite Vm', A2; lra. }
  rewrite Ez. rewrite Ek. reflexivity.
Qed.


(** [clamp2] into the surface. *)
Lemma clamp_surface_store (s : number) (X : Z) :
  (1 <= X <= 2 ^ 21)%Z -> s <> NaN ->
  exists c, fround (clamp s (Finite 1) (whole X)) = Finite c
            /\ 1 <= c /\ c <= inject_Z X
            /\ - (1 # 8) <= c - clamped s 1 (inject_Z X)
            /\ c - clamped s 1 (inject_Z X) <= 1 # 8.
Proof.
  intros HX Hs.
  assert (HXq := inject_Z_bounds X 1 (2 ^ 21) HX).
  change (inject_Z 1) with 1 in HXq. change (inject_Z (2 ^ 21)) with 2097152 in HXq.
  destruct (clamp_value s 1 X Hs) as (t & E & V); [lia|].
  change (whole 1) with (Finite 1) in E. change (inject_Z 1) with 1 in V.
  rewrite E. unfold fround.
  assert (R := clamped_range s 1 (inject_Z X)). lapply R; [clear R; intros R | lra].
  destruct (rnd_store binary32 t 1 X 22 binary32_standard) as (c & Ec & A & B & C & D & _);
    try (cbn; lia); try (rewrite ?pow2_22; change (inject_Z 1) with 1; lra).
  change (inject_Z 1) with 1 in A.
  change (pow2 (22 - precision binary32 - 1)) with (pow2 (-3)) in C, D.
  rewrite pow2_m3 in C, D.
  exists c. split; [exact Ec|]. split; [exact A|]. split; [exact B|]. split; lra.
Qed.

Lemma div_same (X : Z) : (1 <= X <= 2 ^ 21)%Z -> fround (Ieee.div (whole X) (whole X)) = whole 1.
Proof.
  intros HX.
  assert (HXq := inject_Z_bounds X 1 (2 ^ 21) HX).
  change (inject_Z 1) with 1 in HXq.
  assert (E0 : Ieee.div (whole X) (whole X) = double (inject_Z 1)).
  { unfold Ieee.div, whole. destruct (Qcompare (inject_Z X) 0) eqn:C.
    - apply Qeq_alt in C. lra.
    - apply rnd_comp. change (inject_Z 1) with 1. field. lra.
    - apply rnd_comp. change (inject_Z 1) with 1. field. lra. }
  rewrite E0. unfold double.
  destruct (rnd_whole binary64 1 binary64_standard) as (v & E & V); [cbn; lia|].
  assert (Ev : v = inject_Z 1).
  { apply reduced_whole; [|exact V]. apply (rnd_reduced binary64 (inject_Z 1)); [discriminate | exact E]. }
  rewrite E, Ev. apply (fround_whole 1). lia.
Qed.

(** The frame of one axis after [set frameSize]. *)
Lemma sizeAxis_spec (X : Z) (s : number) :
  (1 <= X <= 2 ^ 21)%Z -> s <> NaN ->
  exists (z : Z) (k : Q),
    sizeAxis (whole X) s = (whole z, Finite k)
    /\ (1 <= z <= X)%Z
    /\ - (5 # 8) <= inject_Z z - clamped s 1 (inject_Z X)
    /\ inject_Z z - clamped s 1 (inject_Z X) <= 5 # 8
    /\ 0 < k /\ k <= 1
    /\ - (1 # 8388608) <= k - inject_Z z / inject_Z X
    /\ k - inject_Z z / inject_Z X <= 1 # 8388608
    /\ (z = X -> Finite k = whole 1).
Proof.
  intros HX Hs.
  assert (HXq := inject_Z_bounds X 1 (2 ^ 21) HX).
  change (inject_Z 1) with 1 in HXq. change (inject_Z (2 ^ 21)) with 2097152 in HXq.
  unfold sizeAxis.
  destruct (clamp_surface_store s X HX Hs) as (c & Ec & C0 & C1 & C2 & C3). rewrite Ec.
  destruct (round_store c X ltac:(lia) C0 C1) as (Er & Z1). rewrite Er.
  set (z := Qfloor (c + (1 # 2))) in *.
  destruct (div_store z X Z1 ltac:(lia)) as (k & Ek & K0 & K1 & K2 & K3 & K4).
  assert (Hzq := inject_Z_bounds z 1 X Z1). change (inject_Z 1) with 1 in Hzq.
  set (x := inject_Z z / inject_Z X) in *.
  assert (Hx1 : x <= 1) by (unfold x; apply Qle_shift_div_r; lra).
  assert (Hx0 : 0 < x) by (unfold x; apply Qlt_shift_div_l; lra).
  assert (L := Qfloor_le (c + (1 # 2))). assert (U := Qlt_floor (c + (1 # 2))).
  fold z in L, U. rewrite inject_Z_plus in U. change (inject_Z 1) with 1 in U.
  exists z, k. fold x. split; [rewrite Ek; reflexivity|]. split; [exact Z1|].
  split; [lra|]. split; [lra|]. split; [exact K0|]. split; [exact K1|].
  split; [lra|]. split; [lra|].
  intros Ezx. rewrite <- Ek, Ezx. apply div_same. exact HX.
Qed.

(** ** The setters on the canvas, in floating point *)

Lemma float_canvas_log_if (cond : bool) (level : LogLevel) (msg : Message) (w : World) :
  canvas (log_if cond level msg w) = canvas w.
Proof. destruct cond; reflexivity. Qed.

Lemma float_frameScale_set_canvas (v : vec2) (w : World) :
  canvas (frameScale_set v w)
  = set_frame (snd (scaleAxis (fst (_size (canvas w))) (fst v)),
               snd (scaleAxis (snd (_size (canvas w))) (snd v)))
              (fst (scaleAxis (fst (_size (canvas w))) (fst v)),
               fst (scaleAxis (snd (_size (canvas w))) (snd v)))
              false (canvas w).
Proof.
  unfold frameScale_set.
  set (w1 := log_if _ Dev _ w).
  set (w2 := log_if _ Dev _ w1).
  assert (E2 : canvas w2 = canvas w) by (unfold w2, w1; rewrite !float_canvas_log_if; reflexivity).
  cbv zeta. rewrite E2.
  set (w3 := log_if _ (Level 2) _ w2).
  assert (E3 : canvas w3 = canvas w) by (unfold w3; rewrite float_canvas_log_if; exact E2).
  match goal with |- canvas (match ?r with _ => _ end) = _ => destruct r end;
    unfold renderer_set_frameSize, frameSizeNext, frameScaleNext, with_canvas, emit;
    cbn [canvas]; rewrite E3; reflexivity.
Qed.

Lemma float_frameSize_set_canvas (v : vec2) (w : World) :
  canvas (frameSize_set v w)
  = set_frame (snd (sizeAxis (fst (_size (canvas w))) (fst v)),
               snd (sizeAxis (snd (_size (canvas w))) (snd v)))
              (fst (sizeAxis (fst (_size (canvas w))) (fst v)),
               fst (sizeAxis (snd (_size (canvas w))) (snd v)))
              (negb (exactEquals
                 (fst (sizeAxis (fst (_size (canvas w))) (fst v)),
                  fst (sizeAxis (snd (_size (canvas w))) (snd v)))
                 (_size (canvas w))))
              (canvas w).
Proof.
  unfold frameSize_set.
  set (w1 := log_if _ Dev _ w).
  set (w2 := log_if _ Dev _ w1).
  assert (E2 : canvas w2 = canvas w) by (unfold w2, w1; rewrite !float_canvas_log_if; reflexivity).
  cbv zeta.
  set (w3 := log_if _ ModuleDev _ w2).
  assert (E3 : canvas w3 = canvas w) by (unfold w3; rewrite float_canvas_log_if; exact E2).
  match goal with |- canvas (match ?r with _ => _ end) = _ => destruct r end;
    unfold renderer_set_frameSize, frameSizeNext, frameScaleNext, with_canvas, emit;
    cbn [canvas]; rewrite E3; reflexivity.
Qed.


Ltac float_setter_cases w :=
  unfold frameScale_set, frameSize_set, log_if; cbv zeta;
  repeat match goal with
         | |- context [if ?b then _ else _] => destruct b eqn:?
         end;
  cbn [canvas with_canvas emit frameScaleNext frameSizeNext set_frame _renderer];
  destruct (_renderer (canvas w)) eqn:?;
  cbn [canvas with_canvas emit frameScaleNext frameSizeNext set_frame trace
       renderer_set_frameSize rendererFrameSize _frameScale _frameSize _size];
  rewrite <- ?app_assoc; cbn [app].

Lemma float_frameScale_set_trace (s : vec2) (w : World) :
  exists evs : list Event,
    trace (frameScale_set s w) = trace w ++ evs
    /\ List.filter is_gate evs = []
    /\ In (FrameScaleNext (frameScale_get (frameScale_set s w))) evs
    /\ In (FrameSizeNext (frameSize_get (frameScale_set s w))) evs
    /\ (forall r, _renderer (canvas w) = Some r ->
                  In (RFrameSize r (frameSize_get (frameScale_set s w))) evs
                  /\ rendererFrameSize (frameScale_set s w) r = frameSize_get (frameScale_set s w))
    /\ (lt (fst s) (Finite 0) || gt (fst s) (Finite 1) = true ->
        In (Log Dev (frame_width_scale_clamped (fst s))) evs)
    /\ (lt (snd s) (Finite 0) || gt (snd s) (Finite 1) = true ->
        In (Log Dev (frame_height_scale_clamped (fst s))) evs).
Proof.
  unfold frameScale_get, frameSize_get. rewrite float_frameScale_set_canvas.
  cbn [set_frame _frameScale _frameSize].
  float_setter_cases w.
  all: eexists; split; [reflexivity |].
  all: split; [reflexivity |].
  all: repeat split; try (cbn; tauto); try congruence.
  all: try (intros r' Hr'; first [discriminate Hr' | injection Hr' as <-; split; [cbn; tauto | cbn; rewrite Nat.eqb_refl; reflexivity]]).
  all: try (intros Hc; first [discriminate Hc | cbn; tauto]).
  all: match goal with H : Some _ = Some _ |- _ => injection H as <- end.
  all: first [ rewrite Nat.eqb_refl; reflexivity
             | cbn [In]; repeat (first [left; reflexivity | right]) ].
Qed.

Lemma float_frameSize_set_trace (sz : vec2) (w : World) :
  exists evs : list Event,
    trace (frameSize_set sz w) = trace w ++ evs
    /\ List.filter is_gate evs = []
    /\ In (FrameScaleNext (frameScale_get (frameSize_set sz w))) evs
    /\ In (FrameSizeNext (frameSize_get (frameSize_set sz w))) evs
    /\ (forall r, _renderer (canvas w) = Some r ->
                  In (RFrameSize r (frameSize_get (frameSize_set sz w))) evs
                  /\ rendererFrameSize (frameSize_set sz w) r = frameSize_get (frameSize_set sz w))
    /\ (lt (fst sz) (Finite 1) || gt (fst sz) (fst (_size (canvas w))) = true ->
        In (Log Dev (frame_width_size_clamped (fst (_size (canvas w))) (fst sz))) evs)
    /\ (lt (snd sz) (Finite 1) || gt (snd sz) (snd (_size (canvas w))) = true ->
        In (Log Dev (frame_height_size_clamped (snd (_size (canvas w))) (snd sz))) evs).
Proof.
  unfold frameScale_get, frameSize_get. rewrite float_frameSize_set_canvas.
  cbn [set_frame _frameScale _frameSize].
  float_setter_cases w.
  all: eexists; split; [reflexivity |].
  all: split; [reflexivity |].
  all: repeat split; try (cbn; tauto); try congruence.
  all: try (intros r' Hr'; first [discriminate Hr' | injection Hr' as <-; split; [cbn; tauto | cbn; rewrite Nat.eqb_refl; reflexivity]]).
  all: try (intros Hc; first [discriminate Hc | cbn; tauto]).
  all: match goal with H : Some _ = Some _ |- _ => injection H as <- end.
  all: first [ rewrite Nat.eqb_refl; reflexivity
             | cbn [In]; repeat (first [left; reflexivity | right]) ].
Qed.


Lemma whole_close (z n : Z) (e : Q) :
  e < 1 -> - e <= inject_Z z - inject_Z n -> inject_Z z - inject_Z n <= e -> z = n.
Proof.
  intros He H1 H2.
  assert (A : inject_Z z < inject_Z (n + 1)) by (rewrite inject_Z_plus; change (inject_Z 1) with 1; lra).
  assert (B : inject_Z n < inject_Z (z + 1)) by (rewrite inject_Z_plus; change (inject_Z 1) with 1; lra).
  rewrite <- Zlt_Qlt in A, B. lia.
Qed.

Lemma lt_not_NaN (a b : number) : lt a b = true -> a <> NaN /\ b <> NaN.
Proof. destruct a, b; cbn; intros H; split; congruence. Qed.

Lemma clamped_below (s : number) (lo hi : Q) :
  lo <= hi -> lt s (Finite lo) = true -> clamped s lo hi == lo.
Proof.
  intros H L. destruct s as [| [|] | q]; cbn in *; try discriminate; try reflexivity.
  change (negb (Qle_bool lo q) = true) with (lt (Finite q) (Finite lo) = true) in L.
  apply lt_Finite in L. rewrite Q.min_r by lra. apply Q.max_l. lra.
Qed.

Lemma clamped_above (s : number) (lo hi : Q) :
  lo <= hi -> gt s (Finite hi) = true -> clamped s lo hi == hi.
Proof.
  intros H L. unfold gt in L.
  destruct s as [| [|] | q]; cbn in *; try discriminate; try reflexivity.
  change (negb (Qle_bool q hi) = true) with (lt (Finite hi) (Finite q) = true) in L.
  apply lt_Finite in L. rewrite Q.min_l by lra. apply Q.max_r. exact H.
Qed.

Lemma scaleAxis_below (X : Z) (s : number) :
  (1 <= X <= 2 ^ 21)%Z -> lt s (Finite 0) = true -> fst (scaleAxis (whole X) s) = whole 1.
Proof.
  intros HX L. destruct (lt_not_NaN _ _ L) as [Hs _].
  destruct (scaleAxis_spec X s HX Hs) as (z & k & E & _ & A & B & _).
  rewrite E. cbn [fst]. f_equal.
  assert (C := clamped_below s 0 1 ltac:(lra) L).
  assert (M : Qmax 1 (inject_Z X * clamped s 0 1) == 1).
  { rewrite C. apply Q.max_l. lra. }
  rewrite M in A, B. apply (whole_close z 1 (4 # 5)); [reflexivity | exact A | exact B].
Qed.

Lemma scaleAxis_above (X : Z) (s : number) :
  (1 <= X <= 2 ^ 21)%Z -> gt s (Finite 1) = true -> fst (scaleAxis (whole X) s) = whole X.
Proof.
  intros HX L. destruct (lt_not_NaN _ _ L) as [_ Hs].
  destruct (scaleAxis_spec X s HX Hs) as (z & k & E & _ & A & B & _).
  rewrite E. cbn [fst]. f_equal.
  assert (C := clamped_above s 0 1 ltac:(lra) L).
  assert (HXq := inject_Z_bounds X 1 (2 ^ 21) HX). change (inject_Z 1) with 1 in HXq.
  assert (M : Qmax 1 (inject_Z X * clamped s 0 1) == inject_Z X).
  { rewrite C. rewrite Qmult_1_r. apply Q.max_r. lra. }
  rewrite M in A, B. apply (whole_close z X (4 # 5)); [reflexivity | exact A | exact B].
Qed.

Lemma sizeAxis_below (X : Z) (s : number) :
  (1 <= X <= 2 ^ 21)%Z -> lt s (Finite 1) = true -> fst (sizeAxis (whole X) s) = whole 1.
Proof.
  intros HX L. destruct (lt_not_NaN _ _ L) as [Hs _].
  destruct (sizeAxis_spec X s HX Hs) as (z & k & E & _ & A & B & _).
  rewrite E. cbn [fst]. f_equal.
  assert (HXq := inject_Z_bounds X 1 (2 ^ 21) HX). change (inject_Z 1) with 1 in HXq.
  assert (C := clamped_below s 1 (inject_Z X) ltac:(lra) L).
  rewrite C in A, B. apply (whole_close z 1 (5 # 8)); [reflexivity | exact A | exact B].
Qed.

Lemma sizeAxis_above (X : Z) (s : number) :
  (1 <= X <= 2 ^ 21)%Z -> gt s (whole X) = true -> fst (sizeAxis (whole X) s) = whole X.
Proof.
  intros HX L. destruct (lt_not_NaN _ _ L) as [_ Hs].
  destruct (sizeAxis_spec X s HX Hs) as (z & k & E & _ & A & B & _).
  rewrite E. cbn [fst]. f_equal.
  assert (HXq := inject_Z_bounds X 1 (2 ^ 21) HX). change (inject_Z 1) with 1 in HXq.
  assert (C := clamped_above s 1 (inject_Z X) ltac:(lra) L).
  rewrite C in A, B. apply (whole_close z X (5 # 8)); [reflexivity | exact A | exact B].
Qed.


(** ** A resize, in floating point *)

Lemma float_onResize_frame (w : World) :
  let S := clientSize (_element (canvas w)) in
  let f := _frameSize (canvas w) in
  let k := _frameScale (canvas w) in
  let c := canvas (onResize w) in
  _size c = (fst S, snd S)
  /\ _frameSize c
     = (if _favorSizeOverScale (canvas w)
        then (fst (sizeAxis (fst S) (fst f)), fst (sizeAxis (snd S) (snd f)))
        else (fst (scaleAxis (fst S) (fst k)), fst (scaleAxis (snd S) (snd k))))
  /\ _frameScale c
     = (if _favorSizeOverScale (canvas w)
        then (snd (sizeAxis (fst S) (fst f)), snd (sizeAxis (snd S) (snd f)))
        else (snd (scaleAxis (fst S) (fst k)), snd (scaleAxis (snd S) (snd k))))
  /\ _favorSizeOverScale c
     = (if _favorSizeOverScale (canvas w)
        then negb (exactEquals (fst (sizeAxis (fst S) (fst f)), fst (sizeAxis (snd S) (snd f)))
                               (fst S, snd S))
        else false).
Proof.
  cbv zeta. unfold onResize. cbv zeta.
  set (w2 := with_canvas _ (retrieveSize w)).
  set (w3 := if isSome (_renderer (canvas w2)) then controller_block w2 else w2).
  assert (C3 : _size (canvas w3)
               = (fst (clientSize (_element (canvas w))), snd (clientSize (_element (canvas w))))
               /\ _frameSize (canvas w3) = _frameSize (canvas w)
               /\ _frameScale (canvas w3) = _frameScale (canvas w)
               /\ _favorSizeOverScale (canvas w3) = _favorSizeOverScale (canvas w)).
  { unfold w3. destruct (isSome (_renderer (canvas w2))); repeat split; reflexivity. }
  destruct C3 as (E1 & E2 & E3 & E4). clearbody w3. clear w2.
  rewrite E2, E3, E4.
  set (w4 := if _favorSizeOverScale (canvas w) then _ else _).
  assert (C4 : canvas (if isSome (_renderer (canvas w4)) then controller_unblock w4 else w4)
               = set_controller
                   (_controller (canvas (if isSome (_renderer (canvas w4)) then controller_unblock w4 else w4)))
                   (canvas w4)).
  { destruct (isSome (_renderer (canvas w4))); [reflexivity|]. destruct (canvas w4); reflexivity. }
  rewrite C4. cbn [set_controller _size _frameSize _frameScale _favorSizeOverScale].
  unfold w4. destruct (_favorSizeOverScale (canvas w)).
  - rewrite float_frameSize_set_canvas, E1. cbn [set_frame _size _frameSize _frameScale _favorSizeOverScale fst snd].
    rewrite E1. repeat split; reflexivity.
  - rewrite float_frameScale_set_canvas, E1. cbn [set_frame _size _frameSize _frameScale _favorSizeOverScale fst snd].
    rewrite E1. repeat split; reflexivity.
Qed.



Lemma strictEquals_whole (a b : Z) : strictEquals (whole a) (whole b) = (a =? b)%Z.
Proof.
  unfold strictEquals, whole. destruct (Z.eqb_spec a b) as [E | N].
  - subst. apply Qeq_bool_iff. reflexivity.
  - destruct (Qeq_bool (inject_Z a) (inject_Z b)) eqn:Q; [|reflexivity].
    apply Qeq_bool_iff in Q. unfold Qeq in Q. cbn in Q. lia.
Qed.








Lemma float_frameScale_set_size (v : vec2) (w : World) :
  frameSize_get (frameScale_set v w)
  = (fst (scaleAxis (fst (_size (canvas w))) (fst v)),
     fst (scaleAxis (snd (_size (canvas w))) (snd v))).
Proof. unfold frameSize_get. rewrite float_frameScale_set_canvas. reflexivity. Qed.

Lemma float_frameSize_set_size (v : vec2) (w : World) :
  frameSize_get (frameSize_set v w)
  = (fst (sizeAxis (fst (_size (canvas w))) (fst v)),
     fst (sizeAxis (snd (_size (canvas w))) (snd v))).
Proof. unfold frameSize_get. rewrite float_frameSize_set_canvas. reflexivity. Qed.

(** C5, as the code has it: a component outside its range, be it negative,
    too large or infinite, is not rejected.  On a whole-pixel surface of up to
    2^21 pixels per axis either setter reports the clamping of that axis at
    developer level and goes on: it stores the frame with the component
    clamped (a scale below 0 gives one pixel, a scale above 1 the full
    surface; a size below 1 gives one pixel, a size above the surface the full
    surface), publishes frame scale and frame size and hands the frame size to
    the renderer that is bound. *)
Theorem out_of_range_input_is_clamped (w : World) (v : vec2) (X Y : Z) :
  _size (canvas w) = (whole X, whole Y) ->
  (1 <= X <= 2 ^ 21)%Z -> (1 <= Y <= 2 ^ 21)%Z ->
  (exists evs : list Event,
     let w' := frameScale_set v w in
     trace w' = trace w ++ evs
     /\ In (FrameScaleNext (frameScale_get w')) evs
     /\ In (FrameSizeNext (frameSize_get w')) evs
     /\ (forall r, _renderer (canvas w) = Some r ->
           In (RFrameSize r (frameSize_get w')) evs
           /\ rendererFrameSize w' r = frameSize_get w')
     /\ (lt (fst v) (Finite 0) = true ->
           In (Log Dev (frame_width_scale_clamped (fst v))) evs
           /\ fst (frameSize_get w') = whole 1)
     /\ (gt (fst v) (Finite 1) = true ->
           In (Log Dev (frame_width_scale_clamped (fst v))) evs
           /\ fst (frameSize_get w') = whole X)
     /\ (lt (snd v) (Finite 0) = true ->
           In (Log Dev (frame_height_scale_clamped (fst v))) evs
           /\ snd (frameSize_get w') = whole 1)
     /\ (gt (snd v) (Finite 1) = true ->
           In (Log Dev (frame_height_scale_clamped (fst v))) evs
           /\ snd (frameSize_get w') = whole Y))
  /\ (exists evs : list Event,
     let w' := frameSize_set v w in
     trace w' = trace w ++ evs
     /\ In (FrameScaleNext (frameScale_get w')) evs
     /\ In (FrameSizeNext (frameSize_get w')) evs
     /\ (forall r, _renderer (canvas w) = Some r ->
           In (RFrameSize r (frameSize_get w')) evs
           /\ rendererFrameSize w' r = frameSize_get w')
     /\ (lt (fst v) (Finite 1) = true ->
           In (Log Dev (frame_width_size_clamped (whole X) (fst v))) evs
           /\ fst (frameSize_get w') = whole 1)
     /\ (gt (fst v) (whole X) = true ->
           In (Log Dev (frame_width_size_clamped (whole X) (fst v))) evs
           /\ fst (frameSize_get w') = whole X)
     /\ (lt (snd v) (Finite 1) = true ->
           In (Log Dev (frame_height_size_clamped (whole Y) (snd v))) evs
           /\ snd (frameSize_get w') = whole 1)
     /\ (gt (snd v) (whole Y) = true ->
           In (Log Dev (frame_height_size_clamped (whole Y) (snd v))) evs
           /\ snd (frameSize_get w') = whole Y)).
Proof.
  intros HS HX HY. split.
  - destruct (float_frameScale_set_trace v w) as (evs & Ht & _ & A & B & C & D & E).
    exists evs. cbv zeta. rewrite float_frameScale_set_size in *. rewrite HS in *.
    cbn [fst snd] in *.
    split; [exact Ht|]. split; [exact A|]. split; [exact B|]. split; [exact C|].
    split; [|split; [|split]]; intros L.
    + split; [apply D; rewrite L; reflexivity | apply scaleAxis_below; assumption].
    + split; [apply D; rewrite L; apply orb_true_r | apply scaleAxis_above; assumption].
    + split; [apply E; rewrite L; reflexivity | apply scaleAxis_below; assumption].
    + split; [apply E; rewrite L; apply orb_true_r | apply scaleAxis_above; assumption].
  - destruct (float_frameSize_set_trace v w) as (evs & Ht & _ & A & B & C & D & E).
    exists evs. cbv zeta. rewrite float_frameSize_set_size in *. rewrite HS in *.
    cbn [fst snd] in *.
    split; [exact Ht|]. split; [exact A|]. split; [exact B|]. split; [exact C|].
    split; [|split; [|split]]; intros L.
    + split; [apply D; rewrite L; reflexivity | apply sizeAxis_below; assumption].
    + split; [apply D; rewrite L; apply orb_true_r | apply sizeAxis_above; assumption].
    + split; [apply E; rewrite L; reflexivity | apply sizeAxis_below; assumption].
    + split; [apply E; rewrite L; apply orb_true_r | apply sizeAxis_above; assumption].
Qed.

Lemma out_of_range_input_is_clamped_witness :
  exists evs : list Event,
    let w' := frameScale_set (literal (- (1 # 2)), Infinity false) FloatExamples.surface800x600 in
    trace w' = trace FloatExamples.surface800x600 ++ evs
    /\ In (FrameSizeNext (frameSize_get w')) evs
    /\ In (Log Dev (frame_width_scale_clamped (literal (- (1 # 2))))) evs
    /\ fst (frameSize_get w') = whole 1
    /\ snd (frameSize_get w') = whole 600.
Proof.
  destruct (out_of_range_input_is_clamped FloatExamples.surface800x600
              (literal (- (1 # 2)), Infinity false) 800 600)
    as [(evs & Ht & _ & B & _ & D & _ & _ & E) _]; [reflexivity | lia | lia |].
  exists evs. cbv zeta in *.
  split; [exact Ht|]. split; [exact B|].
  split; [apply D; vm_compute; reflexivity|].
  split; [apply D; vm_compute; reflexivity|].
  apply E. vm_compute. reflexivity.
Defined.

(** C5, as the claim has it, fails: the scale (-1/2, +infinity) and the
    size (-5, +infinity) are taken on an 800 x 600 surface.  The canvas
    reports the clamping, stores the frames 1 x 600 and 1 x 600 and publishes
    them; nothing is rejected. *)
Lemma out_of_range_input_not_rejected :
  (let w' := frameScale_set (literal (- (1 # 2)), Infinity false) FloatExamples.surface800x600 in
   frameSize_get w' = (whole 1, whole 600)
   /\ trace w'
      = [Log Dev (frame_width_scale_clamped (literal (- (1 # 2))));
         Log Dev (frame_height_scale_clamped (literal (- (1 # 2))));
         Log (Level 2) (frame_scale_adjusted (frameScale_get w')
                                             (literal (- (1 # 2)), Infinity false));
         FrameScaleNext (frameScale_get w');
         FrameSizeNext (whole 1, whole 600)])
  /\ (let w' := frameSize_set (literal (- (5)), Infinity false) FloatExamples.surface800x600 in
      frameSize_get w' = (whole 1, whole 600)
      /\ trace w'
         = [Log Dev (frame_width_size_clamped (whole 800) (literal (- (5))));
            Log Dev (frame_height_size_clamped (whole 600) (Infinity false));
            Log ModuleDev (frame_size_adjusted (whole 1, whole 600)
                                               (literal (- (5)), Infinity false));
            FrameScaleNext (frameScale_get w');
            FrameSizeNext (whole 1, whole 600)]).
Proof.
  split; cbv zeta; split; vm_compute; reflexivity.
Qed.


(** On an element without extent the frame is one pixel and the scale
    infinite; once the element has an extent the frame is the full
    surface. *)
Example empty_surface_recovers :
  let w := frameScale_set (whole 1, whole 1) (FloatExamples.freshWorld (whole 0, whole 0)) in
  frameSize_get w = (whole 1, whole 1)
  /\ frameScale_get w = (Infinity false, Infinity false)
  /\ frameSize_get (hostResize (whole 800, whole 600) w) = (whole 800, whole 600).
Proof. cbv zeta. repeat split; vm_compute; reflexivity. Qed.

(** ** The frame on its surface *)

Lemma scale_axes_fit (X Y : Z) (a b : number) :
  (1 <= X <= 2 ^ 21)%Z -> (1 <= Y <= 2 ^ 21)%Z -> a <> NaN -> b <> NaN ->
  fitsFrame X Y
    (fst (scaleAxis (whole X) a), fst (scaleAxis (whole Y) b))
    (snd (scaleAxis (whole X) a), snd (scaleAxis (whole Y) b))
    false.
Proof.
  intros HX HY Ha Hb.
  destruct (scaleAxis_spec X a HX Ha) as (zx & kx & Ex & Zx & _ & _ & K0x & K1x & Cx & Dx & _).
  destruct (scaleAxis_spec Y b HY Hb) as (zy & ky & Ey & Zy & _ & _ & K0y & K1y & Cy & Dy & _).
  exists zx, zy, kx, ky. rewrite Ex, Ey. cbn [fst snd].
  split; [reflexivity|]. split; [reflexivity|]. split; [exact Zx|]. split; [exact Zy|].
  split; [split; assumption|]. split; [split; assumption|].
  split; [split; assumption|]. split; [split; assumption|].
  discriminate.
Qed.

Lemma size_axes_fit (X Y : Z) (a b : number) :
  (1 <= X <= 2 ^ 21)%Z -> (1 <= Y <= 2 ^ 21)%Z -> a <> NaN -> b <> NaN ->
  fitsFrame X Y
    (fst (sizeAxis (whole X) a), fst (sizeAxis (whole Y) b))
    (snd (sizeAxis (whole X) a), snd (sizeAxis (whole Y) b))
    (negb (exactEquals (fst (sizeAxis (whole X) a), fst (sizeAxis (whole Y) b))
                       (whole X, whole Y))).
Proof.
  intros HX HY Ha Hb.
  destruct (sizeAxis_spec X a HX Ha) as (zx & kx & Ex & Zx & _ & _ & K0x & K1x & Cx & Dx & _).
  destruct (sizeAxis_spec Y b HY Hb) as (zy & ky & Ey & Zy & _ & _ & K0y & K1y & Cy & Dy & _).
  exists zx, zy, kx, ky. rewrite Ex, Ey. cbn [fst snd].
  split; [reflexivity|]. split; [reflexivity|]. split; [exact Zx|]. split; [exact Zy|].
  split; [split; assumption|]. split; [split; assumption|].
  split; [split; assumption|]. split; [split; assumption|].
  unfold exactEquals. cbn [fst snd]. rewrite !strictEquals_whole.
  intros F E. injection E as -> ->. rewrite !Z.eqb_refl in F. discriminate F.
Qed.

Lemma fitsFrame_finite (X Y : Z) (size scale : vec2) (favor : bool) :
  fitsFrame X Y size scale favor ->
  fst size <> NaN /\ snd size <> NaN /\ fst scale <> NaN /\ snd scale <> NaN.
Proof.
  intros (zx & zy & kx & ky & -> & -> & _). cbn [fst snd]. repeat split; discriminate.
Qed.

(** X9.  On a whole-pixel surface of up to 2^21 pixels per axis both frame
    setters, given a value without a [NaN] component, leave a frame that
    fits the surface: a whole number of pixels per axis between one and the
    surface size, a scale above 0 and at most 1 that is the size divided by
    the surface size up to single precision, and never the full surface
    while the size is in charge.  A resize to such a surface keeps a frame
    that fitted the old surface fitting the new one. *)
Theorem frame_fits_surface (X Y : Z) :
  (1 <= X <= 2 ^ 21)%Z -> (1 <= Y <= 2 ^ 21)%Z ->
  (forall (w : World) (v : vec2),
     _size (canvas w) = (whole X, whole Y) -> fst v <> NaN -> snd v <> NaN ->
     fits X Y (frameScale_set v w) /\ fits X Y (frameSize_set v w))
  /\ (forall (w : World) (X0 Y0 : Z),
        fits X0 Y0 w ->
        (clientSize (_element (canvas w)) = (whole X, whole Y) ->
         fits X Y (onResize w) /\ resize w = onResize w)
        /\ fits X Y (hostResize (whole X, whole Y) w)).
Proof.
  intros HX HY. split.
  - intros w v HS Hx Hy. unfold fits, frameSize_get, frameScale_get.
    rewrite float_frameScale_set_canvas, float_frameSize_set_canvas, HS.
    cbn [set_frame _size _frameSize _frameScale _favorSizeOverScale fst snd].
    split; (split; [exact HS |]).
    + apply scale_axes_fit; assumption.
    + apply size_axes_fit; assumption.
  - intros w X0 Y0 [_ F].
    destruct (fitsFrame_finite _ _ _ _ _ F) as (N1 & N2 & N3 & N4).
    assert (G : forall u : World,
              clientSize (_element (canvas u)) = (whole X, whole Y) ->
              _frameSize (canvas u) = _frameSize (canvas w) ->
              _frameScale (canvas u) = _frameScale (canvas w) ->
              fits X Y (onResize u)).
    { intros u HC E1 E2. unfold fits, frameSize_get, frameScale_get.
      destruct (float_onResize_frame u) as (A & B & C & D). cbv zeta in A, B, C, D.
      rewrite HC in A, B, C, D. cbn [fst snd] in A, B, C, D.
      rewrite A, B, C, D, E1, E2. split; [reflexivity |].
      destruct (_favorSizeOverScale (canvas u)).
      - apply size_axes_fit; assumption.
      - apply scale_axes_fit; assumption. }
    split.
    + intros HC. split; [apply G; [exact HC | reflexivity | reflexivity] | reflexivity].
    + unfold hostResize. apply G; reflexivity.
Qed.

Lemma frame_fits_surface_witness :
  fits 800 600 (frameScale_set (literal (3 # 10), Infinity false) FloatExamples.surface800x600)
  /\ fits 1024 768
       (hostResize (whole 1024, whole 768)
          (frameSize_set (whole 640, literal (9 # 2)) FloatExamples.surface800x600)).
Proof.
  destruct (frame_fits_surface 800 600) as [A _]; [lia | lia |].
  destruct (frame_fits_surface 1024 768) as [_ B]; [lia | lia |].
  assert (N1 : literal (3 # 10) <> NaN) by (vm_compute; discriminate).
  assert (N2 : Infinity false <> NaN) by discriminate.
  assert (N3 : whole 640 <> NaN) by discriminate.
  assert (N4 : literal (9 # 2) <> NaN) by (vm_compute; discriminate).
  split.
  - exact (proj1 (A FloatExamples.surface800x600 (literal (3 # 10), Infinity false)
                    eq_refl N1 N2)).
  - exact (proj2 (B _ 800%Z 600%Z
                    (proj2 (A FloatExamples.surface800x600 (whole 640, literal (9 # 2))
                              eq_refl N3 N4)))).
Defined.

(** ** Sizes that need no adjustment *)

Lemma sizeAxis_whole (X n : Z) :
  (1 <= X <= 2 ^ 21)%Z -> (1 <= n <= X)%Z ->
  fst (sizeAxis (whole X) (whole n)) = whole n.
Proof.
  intros HX Hn.
  destruct (sizeAxis_spec X (whole n) HX ltac:(discriminate)) as (z & k & E & _ & A & B & _).
  rewrite E. cbn [fst]. f_equal.
  assert (Hq := inject_Z_bounds n 1 X Hn). change (inject_Z 1) with 1 in Hq.
  assert (C : clamped (whole n) 1 (inject_Z X) == inject_Z n).
  { unfold clamped, whole. rewrite Q.min_r by lra. apply Q.max_r. lra. }
  rewrite C in A, B. apply (whole_close z n (5 # 8)); [reflexivity | exact A | exact B].
Qed.

Lemma lt_whole (a b : Z) : lt (whole a) (whole b) = (a <? b)%Z.
Proof.
  destruct (Z.ltb_spec a b) as [H | H].
  - apply lt_Finite. rewrite <- Zlt_Qlt. exact H.
  - apply lt_Finite_false. rewrite <- Zle_Qle. exact H.
Qed.

(** X10.  A size of whole pixels inside the surface (of up to 2^21 pixels
    per axis) is taken as it is and without a diagnostic: the setter stores
    it, publishes frame scale and frame size, hands the size to the renderer
    that is bound and does nothing else; the size is in charge unless it is
    the full surface. *)
Theorem whole_size_is_taken_as_is (w : World) (X Y nx ny : Z) :
  _size (canvas w) = (whole X, whole Y) ->
  (1 <= X <= 2 ^ 21)%Z -> (1 <= Y <= 2 ^ 21)%Z ->
  (1 <= nx <= X)%Z -> (1 <= ny <= Y)%Z ->
  let w' := frameSize_set (whole nx, whole ny) w in
  frameSize_get w' = (whole nx, whole ny)
  /\ _favorSizeOverScale (canvas w') = negb ((nx =? X)%Z && (ny =? Y)%Z)
  /\ trace w'
     = trace w ++ [FrameScaleNext (frameScale_get w'); FrameSizeNext (whole nx, whole ny)]
               ++ match _renderer (canvas w) with
                  | Some r => [RFrameSize r (whole nx, whole ny)]
                  | None => []
                  end.
Proof.
  intros HS HX HY Hx Hy w'.
  assert (Ex := sizeAxis_whole X nx HX Hx). assert (Ey := sizeAxis_whole Y ny HY Hy).
  assert (Ec : canvas w'
               = set_frame (snd (sizeAxis (whole X) (whole nx)), snd (sizeAxis (whole Y) (whole ny)))
                           (whole nx, whole ny)
                           (negb ((nx =? X)%Z && (ny =? Y)%Z)) (canvas w)).
  { unfold w'. rewrite float_frameSize_set_canvas, HS. cbn [fst snd]. rewrite Ex, Ey.
    unfold exactEquals. cbn [fst snd]. rewrite !strictEquals_whole. reflexivity. }
  assert (Hsize : frameSize_get w' = (whole nx, whole ny)) by (unfold frameSize_get; rewrite Ec; reflexivity).
  assert (Hscale : frameScale_get w' = div (whole nx, whole ny) (whole X, whole Y)).
  { unfold frameScale_get. rewrite Ec. cbn [set_frame _frameScale].
    change (snd (sizeAxis (whole X) (whole nx)))
      with (fround (Ieee.div (fst (sizeAxis (whole X) (whole nx))) (whole X))).
    change (snd (sizeAxis (whole Y) (whole ny)))
      with (fround (Ieee.div (fst (sizeAxis (whole Y) (whole ny))) (whole Y))).
    rewrite Ex, Ey. reflexivity. }
  split; [exact Hsize |]. split; [rewrite Ec; reflexivity |].
  rewrite Hscale. unfold w', frameSize_set. cbv zeta. rewrite HS. cbn [fst snd].
  unfold gt. rewrite !lt_whole.
  change (Finite 1) with (whole 1). rewrite !lt_whole.
  replace (nx <? 1)%Z with false by (symmetry; apply Z.ltb_ge; lia).
  replace (X <? nx)%Z with false by (symmetry; apply Z.ltb_ge; lia).
  replace (ny <? 1)%Z with false by (symmetry; apply Z.ltb_ge; lia).
  replace (Y <? ny)%Z with false by (symmetry; apply Z.ltb_ge; lia).
  cbn [orb log_if].
  change (round (clamp2 (whole nx, whole ny) (whole 1, whole 1) (whole X, whole Y)))
    with (fst (sizeAxis (whole X) (whole nx)), fst (sizeAxis (whole Y) (whole ny))).
  rewrite Ex, Ey.
  assert (Q : exactEquals (whole nx, whole ny) (whole nx, whole ny) = true).
  { unfold exactEquals. cbn [fst snd]. rewrite !strictEquals_whole, !Z.eqb_refl. reflexivity. }
  rewrite Q. cbn [negb log_if].
  unfold frameSizeNext, frameScaleNext, with_canvas, renderer_set_frameSize, emit.
  cbn [canvas trace set_frame _renderer _frameSize _frameScale].
  destruct (_renderer (canvas w)); cbn [trace app]; rewrite <- ?app_assoc; reflexivity.
Qed.

Lemma whole_size_is_taken_as_is_witness :
  let w' := frameSize_set (whole 640, whole 480) FloatExamples.attached800x600 in
  frameSize_get w' = (whole 640, whole 480)
  /\ _favorSizeOverScale (canvas w') = true
  /\ trace w' = [FrameScaleNext (frameScale_get w'); FrameSizeNext (whole 640, whole 480);
                 RFrameSize 0%nat (whole 640, whole 480)].
Proof.
  cbv zeta.
  destruct (whole_size_is_taken_as_is FloatExamples.attached800x600 800 600 640 480)
    as (A & B & C); [reflexivity | lia | lia | lia | lia |].
  split; [exact A |]. split; [exact B | exact C].
Defined.

End FloatProperties.

(** * Further properties of the canvas *)

Import Binding.

(** ** Binding, case by case *)

Lemma update_renderer_same (r : RendererRef) (f : AbstractRenderer -> AbstractRenderer)
      (w : World) :
  renderers (update_renderer r f w) r = f (renderers w r).
Proof. cbn. now rewrite Nat.eqb_refl. Qed.

Lemma update_renderer_other (r q : RendererRef) (f : AbstractRenderer -> AbstractRenderer)
      (w : World) :
  q <> r -> renderers (update_renderer r f w) q = renderers w q.
Proof. intros H. cbn. apply Nat.eqb_neq in H. now rewrite H. Qed.

(** The four outcomes of [bind] of a renderer. *)
Lemma bind_cases (w : World) (p : RendererRef) :
  bind (Some p) w
  = if same_renderer (_renderer (canvas w)) (Some p) then Normal w
    else if negb (blocked (_controller (canvas (unbind w))))
         then Throws (AssertionFailed "expected controller to be blocked") (unbind w)
         else if r_initialized (renderers (unbind w) p)
              then Throws (AlreadyInitialized p)
                          (with_canvas (set_renderer (Some p)) (unbind w))
              else Normal (bind_configure p (attached p (unbind w))).
Proof.
  unfold bind. destruct (same_renderer _ _); [reflexivity |].
  cbv zeta. generalize (unbind w). intros u.
  unfold assert. destruct (blocked _); cbn [negb andThen]; [| reflexivity].
  unfold renderer_initialize.
  change (renderers (with_canvas (set_renderer (Some p)) u)) with (renderers u).
  destruct (r_initialized _); reflexivity.
Qed.

Lemma bind_configure_canvas (r : RendererRef) (w : World) :
  canvas (bind_configure r w)
  = set_controller (mkController false (Some r)
                      (multiFrameNumber (_controller (canvas w)))
                      (debugFrameNumber (_controller (canvas w))))
                   (canvas w).
Proof. reflexivity. Qed.

(** What each setter of a renderer does to the renderer it is called on
    and that it leaves the others alone. *)
Lemma renderer_set_frameSize_same (r : RendererRef) (v : vec2) (w : World) :
  renderers (renderer_set_frameSize r v w) r
  = let o := renderers w r in
    mkRenderer (r_initialized o) (r_onInitialize o) (r_context o) v
               (r_clearColor o) (r_framePrecision o) (r_debugTexture o)
               (supportedPrecision o).
Proof. unfold renderer_set_frameSize. cbn [renderers emit]. apply update_renderer_same. Qed.

Lemma renderer_set_clearColor_same (r : RendererRef) (c : Q * Q * Q * Q) (w : World) :
  renderers (renderer_set_clearColor r c w) r
  = let o := renderers w r in
    mkRenderer (r_initialized o) (r_onInitialize o) (r_context o) (r_frameSize o)
               c (r_framePrecision o) (r_debugTexture o) (supportedPrecision o).
Proof. unfold renderer_set_clearColor. cbn [renderers emit]. apply update_renderer_same. Qed.

Lemma renderer_set_framePrecision_same (r : RendererRef) (p : FramePrecisionString)
      (w : World) :
  renderers (renderer_set_framePrecision r p w) r
  = let o := renderers w r in
    mkRenderer (r_initialized o) (r_onInitialize o) (r_context o) (r_frameSize o)
               (r_clearColor o) (supportedPrecision o p) (r_debugTexture o)
               (supportedPrecision o).
Proof.
  unfold renderer_set_framePrecision. cbn [renderers emit]. apply update_renderer_same.
Qed.

Lemma renderer_set_debugTexture_same (r : RendererRef) (t : Z) (w : World) :
  renderers (renderer_set_debugTexture r t w) r
  = let o := renderers w r in
    mkRenderer (r_initialized o) (r_onInitialize o) (r_context o) (r_frameSize o)
               (r_clearColor o) (r_framePrecision o) t (supportedPrecision o).
Proof.
  unfold renderer_set_debugTexture. cbn [renderers emit]. apply update_renderer_same.
Qed.

Lemma renderer_setters_other (r q : RendererRef) (w : World) :
  q <> r ->
  (forall v, renderers (renderer_set_frameSize r v w) q = renderers w q)
  /\ (forall c, renderers (renderer_set_clearColor r c w) q = renderers w q)
  /\ (forall p, renderers (renderer_set_framePrecision r p w) q = renderers w q)
  /\ (forall t, renderers (renderer_set_debugTexture r t w) q = renderers w q)
  /\ renderers (renderer_uninitialize r w) q = renderers w q.
Proof.
  intros H. repeat split; intros;
    unfold renderer_set_frameSize, renderer_set_clearColor, renderer_set_framePrecision,
      renderer_set_debugTexture, renderer_uninitialize;
    cbn [renderers emit]; now apply update_renderer_other.
Qed.

Lemma bind_configure_same (r : RendererRef) (w : World) :
  renderers (bind_configure r w) r
  = let o := renderers w r in
    mkRenderer (r_initialized o) (r_onInitialize o) (r_context o)
               (_frameSize (canvas w)) (rgba (_clearColor (canvas w)))
               (supportedPrecision o (_framePrecision (canvas w))) (-1)%Z
               (supportedPrecision o).
Proof.
  unfold bind_configure. cbv zeta.
  set (w1 := renderer_set_frameSize r _ w).
  set (w2 := renderer_set_clearColor r _ w1).
  set (w3 := renderer_set_framePrecision r _ w2).
  set (w4 := renderer_set_debugTexture r _ w3).
  change (renderers (controller_unblock (controller_set_controllable (Some r) w4)) r)
    with (renderers w4 r).
  unfold w4. rewrite renderer_set_debugTexture_same. cbv zeta.
  unfold w3. rewrite renderer_set_framePrecision_same. cbv zeta.
  change (_framePrecision (canvas w2)) with (_framePrecision (canvas w)).
  unfold w2. rewrite renderer_set_clearColor_same. cbv zeta.
  change (_clearColor (canvas w1)) with (_clearColor (canvas w)).
  unfold w1. rewrite renderer_set_frameSize_same. reflexivity.
Qed.

Lemma bind_configure_other (r q : RendererRef) (w : World) :
  q <> r -> renderers (bind_configure r w) q = renderers w q.
Proof.
  intros H. unfold bind_configure. cbv zeta.
  set (w1 := renderer_set_frameSize r _ w).
  set (w2 := renderer_set_clearColor r _ w1).
  set (w3 := renderer_set_framePrecision r _ w2).
  set (w4 := renderer_set_debugTexture r _ w3).
  change (renderers (controller_unblock (controller_set_controllable (Some r) w4)) q)
    with (renderers w4 q).
  unfold w4. rewrite (proj1 (proj2 (proj2 (proj2 (renderer_setters_other r q w3 H))))).
  unfold w3. rewrite (proj1 (proj2 (proj2 (renderer_setters_other r q w2 H)))).
  unfold w2. rewrite (proj1 (proj2 (renderer_setters_other r q w1 H))).
  unfold w1. now rewrite (proj1 (renderer_setters_other r q w H)).
Qed.

Lemma unbind_renderers (w : World) : renderers (unbind w) = renderers w.
Proof. unfold unbind. now destruct (_renderer (canvas w)). Qed.

(** [unbind] changes the controller and the reference to the renderer and
    nothing else in the canvas. *)
Lemma unbind_canvas (w : World) :
  canvas (unbind w)
  = match _renderer (canvas w) with
    | None => canvas w
    | Some _ =>
        set_renderer None
          (set_controller (mkController true None
                             (multiFrameNumber (_controller (canvas w)))
                             (debugFrameNumber (_controller (canvas w))))
                          (canvas w))
    end.
Proof. unfold unbind. now destruct (_renderer (canvas w)). Qed.

Lemma attached_canvas (p : RendererRef) (u : World) :
  canvas (attached p u) = set_renderer (Some p) (canvas u).
Proof. reflexivity. Qed.

Lemma attached_same (p : RendererRef) (u : World) :
  renderers (attached p u) p = initialized_with (_context (canvas u)) (renderers u p).
Proof. unfold attached. cbn [renderers emit]. now rewrite update_renderer_same. Qed.

Lemma attached_other (p q : RendererRef) (u : World) :
  q <> p -> renderers (attached p u) q = renderers u q.
Proof.
  intros H. unfold attached. cbn [renderers emit].
  now rewrite update_renderer_other by exact H.
Qed.

Lemma same_renderer_false (a b : option RendererRef) :
  a <> b -> same_renderer a b = false.
Proof.
  intros H. destruct (same_renderer a b) eqn:E; [| reflexivity].
  apply same_renderer_eq in E. contradiction.
Qed.

(** A [bind] that completes for a renderer that was not bound went through
    all of its steps. *)
Lemma bind_normal_shape (w w1 : World) (p : RendererRef) :
  renderer_get w <> Some p ->
  bind (Some p) w = Normal w1 ->
  w1 = bind_configure p (attached p (unbind w))
  /\ blocked (_controller (canvas (unbind w))) = true
  /\ r_initialized (renderers w p) = false.
Proof.
  unfold renderer_get. intros Hne H. rewrite bind_cases in H.
  rewrite (same_renderer_false _ _ Hne) in H.
  destruct (blocked (_controller (canvas (unbind w)))) eqn:Hb; cbn [negb] in H;
    [| discriminate H].
  rewrite unbind_renderers in H.
  destruct (r_initialized (renderers w p)) eqn:Hi; [discriminate H |].
  injection H as <-. repeat split.
Qed.

Lemma unbind_settings (w : World) : settings (canvas (unbind w)) = settings (canvas w).
Proof. rewrite unbind_canvas. now destruct (_renderer (canvas w)). Qed.

(** The state a completed [bind] of a renderer that was not bound leaves:
    the canvas, the renderer, the other renderers. *)
Lemma bind_new_state (w w1 : World) (p : RendererRef) :
  renderer_get w <> Some p ->
  bind (Some p) w = Normal w1 ->
  canvas w1
  = set_controller (mkController false (Some p)
                      (multiFrameNumber (_controller (canvas (unbind w))))
                      (debugFrameNumber (_controller (canvas (unbind w)))))
                   (set_renderer (Some p) (canvas (unbind w)))
  /\ renderers w1 p
     = mkRenderer (r_onInitialize (renderers w p)) (r_onInitialize (renderers w p))
                  (Some (_context (canvas w))) (_frameSize (canvas w))
                  (rgba (_clearColor (canvas w)))
                  (supportedPrecision (renderers w p) (_framePrecision (canvas w)))
                  (-1)%Z (supportedPrecision (renderers w p))
  /\ (forall q, q <> p -> renderers w1 q = renderers w q).
Proof.
  intros Hne H.
  destruct (bind_normal_shape w w1 p Hne H) as (-> & _ & _).
  pose proof (unbind_settings w) as Hset.
  pose proof (unbind_renderers w) as Hrs.
  generalize dependent (unbind w). intros u _ Hset Hrs.
  unfold settings in Hset. injection Hset as Hctx Hcc Hfp HS Hsc Hsz Hfav Hel.
  split; [now rewrite bind_configure_canvas, attached_canvas |].
  split.
  - rewrite bind_configure_same, attached_canvas, attached_same, Hrs.
    cbv zeta. unfold initialized_with.
    cbn [r_initialized r_onInitialize r_context supportedPrecision
         set_renderer _frameSize _clearColor _framePrecision].
    now rewrite Hctx, Hcc, Hfp, Hsz.
  - intros q Hq. now rewrite bind_configure_other, attached_other, Hrs.
Qed.

(** X1.  A [bind] that completes for a renderer [p] that was not bound
    leaves [p] bound, controlled and the controller unblocked; [p] has the
    context, the frame size and the clear colour of the canvas, the
    precision it honours for the one the canvas asks for, and no debug
    texture; [bind] goes on whatever [initialize] answered; no other
    renderer object is touched, not even the one that was bound before; the
    settings of the canvas are as they were. *)
Theorem bind_configures_renderer (w w1 : World) (p : RendererRef) :
  renderer_get w <> Some p ->
  bind (Some p) w = Normal w1 ->
  renderer_get w1 = Some p
  /\ controllable (_controller (canvas w1)) = Some p
  /\ blocked (_controller (canvas w1)) = false
  /\ r_context (renderers w1 p) = Some (_context (canvas w))
  /\ r_frameSize (renderers w1 p) = frameSize_get w
  /\ r_clearColor (renderers w1 p) = rgba (_clearColor (canvas w))
  /\ r_framePrecision (renderers w1 p)
     = supportedPrecision (renderers w p) (framePrecision_get w)
  /\ r_debugTexture (renderers w1 p) = (-1)%Z
  /\ r_initialized (renderers w1 p) = r_onInitialize (renderers w p)
  /\ (forall q, q <> p -> renderers w1 q = renderers w q)
  /\ settings (canvas w1) = settings (canvas w).
Proof.
  intros Hne H.
  destruct (bind_new_state w w1 p Hne H) as (Hc & Hp & Ho).
  pose proof (unbind_settings w) as Hset.
  unfold renderer_get, frameSize_get, framePrecision_get.
  rewrite Hc, Hp. clear Hc Hp.
  generalize dependent (unbind w). intros u Hset.
  repeat split; try reflexivity; [exact Ho | exact Hset].
Qed.

Lemma bind_configures_renderer_witness :
  renderer_get Examples.surface800x600 <> Some 0%nat
  /\ r_frameSize (renderers Examples.bound800x600 0%nat)
     = frameSize_get Examples.surface800x600.
Proof.
  assert (renderer_get Examples.surface800x600 <> Some 0%nat) as H0
    by (vm_compute; discriminate).
  assert (bind (Some 0%nat) Examples.surface800x600 = Normal Examples.bound800x600) as H1
    by (vm_compute; reflexivity).
  split; [exact H0 |].
  exact (proj1 (proj2 (proj2 (proj2 (proj2
    (bind_configures_renderer Examples.surface800x600 Examples.bound800x600 0%nat H0 H1)))))).
Defined.

(** ** What the methods do to the binding *)

Lemma bind_none (w : World) : bind None w = Normal (unbind w).
Proof.
  unfold bind, unbind. destruct (_renderer (canvas w)); reflexivity.
Qed.

Lemma frameScale_set_renderers (s : vec2) (w : World) :
  renderers (frameScale_set s w)
  = match _renderer (canvas w) with
    | Some r => renderers (renderer_set_frameSize r (frameSize_get (frameScale_set s w)) w)
    | None => renderers w
    end.
Proof.
  unfold frameSize_get. rewrite frameScale_set_canvas. cbn [set_frame _frameSize].
  unfold frameScale_set, log_if. cbv zeta.
  repeat match goal with
         | |- context [if ?b then _ else _] => destruct b
         end;
    cbn [canvas with_canvas emit frameScaleNext frameSizeNext set_frame _renderer];
    destruct (_renderer (canvas w)); reflexivity.
Qed.

Lemma frameSize_set_renderers (sz : vec2) (w : World) :
  renderers (frameSize_set sz w)
  = match _renderer (canvas w) with
    | Some r => renderers (renderer_set_frameSize r (frameSize_get (frameSize_set sz w)) w)
    | None => renderers w
    end.
Proof.
  unfold frameSize_get. rewrite frameSize_set_canvas. cbn [set_frame _frameSize].
  unfold frameSize_set, log_if. cbv zeta.
  repeat match goal with
         | |- context [if ?b then _ else _] => destruct b
         end;
    cbn [canvas with_canvas emit frameScaleNext frameSizeNext set_frame _renderer];
    destruct (_renderer (canvas w)); reflexivity.
Qed.

(** The world in which the setter of a resize runs. *)
Lemma onResize_shape (w : World) :
  exists w1 : World,
    renderers w1 = renderers w
    /\ _renderer (canvas w1) = _renderer (canvas w)
    /\ _clearColor (canvas w1) = _clearColor (canvas w)
    /\ _framePrecision (canvas w1) = _framePrecision (canvas w)
    /\ controllable (_controller (canvas w1)) = controllable (_controller (canvas w))
    /\ _size (canvas w1) = clientSize (_element (canvas w))
    /\ clientSize (_element (canvas w1)) = clientSize (_element (canvas w))
    /\ (let w2 := if _favorSizeOverScale (canvas w)
                  then frameSize_set (_frameSize (canvas w)) w1
                  else frameScale_set (_frameScale (canvas w)) w1 in
        match _renderer (canvas w) with
        | Some _ => onResize w = controller_unblock w2
        | None => onResize w = w2
                  /\ blocked (_controller (canvas w1)) = blocked (_controller (canvas w))
        end).
Proof.
  assert (forall v : vec2, (fst v, snd v) = v) as Hpair by (now intros [a b]).
  set (w0 := with_canvas (fun c => set_element
               (mkElement (clientSize (_element c)) (fst (_size c)) (snd (_size c))) c)
               (retrieveSize w)).
  assert (_size (canvas w0) = clientSize (_element (canvas w))) as HS
    by (cbn; apply Hpair).
  destruct (_renderer (canvas w)) as [r |] eqn:Hr.
  - exists (controller_block w0).
    split; [reflexivity |]. split; [exact Hr |]. split; [reflexivity |].
    split; [reflexivity |]. split; [reflexivity |]. split; [exact HS |].
    split; [reflexivity |]. exact (onResize_bound w r Hr).
  - exists w0.
    split; [reflexivity |]. split; [exact Hr |]. split; [reflexivity |].
    split; [reflexivity |]. split; [reflexivity |]. split; [exact HS |].
    split; [reflexivity |]. split; [exact (onResize_unbound w Hr) | reflexivity].
Qed.

(** What a resize leaves of the binding and of the settings it does not
    compute. *)
Lemma onResize_binding (w : World) :
  _renderer (canvas (onResize w)) = _renderer (canvas w)
  /\ controllable (_controller (canvas (onResize w))) = controllable (_controller (canvas w))
  /\ blocked (_controller (canvas (onResize w)))
     = (if isSome (_renderer (canvas w)) then false else blocked (_controller (canvas w)))
  /\ _clearColor (canvas (onResize w)) = _clearColor (canvas w)
  /\ _framePrecision (canvas (onResize w)) = _framePrecision (canvas w)
  /\ _size (canvas (onResize w)) = clientSize (_element (canvas w))
  /\ clientSize (_element (canvas (onResize w))) = clientSize (_element (canvas w)).
Proof.
  destruct (onResize_shape w) as [w1 (_ & Hr & Hcc & Hfp & Hct & HS & Hel & Hw)].
  cbv zeta in Hw.
  assert (forall x, canvas (controller_unblock x)
                    = set_controller (mkController false (controllable (_controller (canvas x)))
                                        (multiFrameNumber (_controller (canvas x)))
                                        (debugFrameNumber (_controller (canvas x))))
                                     (canvas x)) as Hun by reflexivity.
  destruct (_renderer (canvas w)) as [r |].
  - rewrite Hw, Hun. clear Hw.
    destruct (_favorSizeOverScale (canvas w));
      rewrite ?frameSize_set_canvas, ?frameScale_set_canvas; cbv zeta;
      cbn [set_controller set_frame _renderer _controller controllable blocked
           _clearColor _framePrecision _size _element isSome];
      repeat split; assumption.
  - destruct Hw as [-> Hb].
    destruct (_favorSizeOverScale (canvas w));
      rewrite ?frameSize_set_canvas, ?frameScale_set_canvas; cbv zeta;
      cbn [set_frame _renderer _controller _clearColor _framePrecision _size _element isSome];
      repeat split; try assumption; now rewrite Hct.
Qed.

Lemma clearColor_set_canvas (c : Color) (w : World) :
  canvas (clearColor_set c w) = set_clearColor c (canvas w).
Proof.
  unfold clearColor_set. cbv zeta. cbn [with_canvas canvas set_clearColor _renderer].
  now destruct (_renderer (canvas w)).
Qed.

Lemma framePrecision_set_canvas (p : FramePrecisionString) (w : World) :
  canvas (framePrecision_set p w)
  = set_framePrecision
      (match _renderer (canvas w) with
       | Some r => supportedPrecision (renderers w r) p
       | None => p
       end) (canvas w).
Proof.
  unfold framePrecision_set. cbv zeta.
  cbn [with_canvas canvas set_framePrecision _renderer _framePrecision].
  destruct (_renderer (canvas w)) as [r |]; [| reflexivity].
  cbn [framePrecisionNext emit canvas with_canvas].
  rewrite renderer_set_framePrecision_same. reflexivity.
Qed.

Lemma dispose_canvas (w : World) :
  canvas (dispose w) = canvas (unbind w).
Proof.
  unfold dispose, unbind.
  destruct (_renderer (canvas w)) as [r |] eqn:E; [| reflexivity].
  change (_renderer (canvas (renderer_uninitialize r w))) with (_renderer (canvas w)).
  now rewrite E.
Qed.

(** X2.  A canvas without a renderer has its controller blocked: every
    method of the canvas keeps this, [bind] also when it throws, and while it
    holds the assertion of [bind] on the controller cannot fail. *)
Theorem gated_invariant (w : World) :
  gated w ->
  (forall v, gated (frameScale_set v w))
  /\ (forall v, gated (frameSize_set v w))
  /\ gated (onResize w)
  /\ (forall c, gated (clearColor_set c w))
  /\ (forall p, gated (framePrecision_set p w))
  /\ gated (unbind w)
  /\ gated (dispose w)
  /\ (forall o, gated (stateOf (bind o w)))
  /\ (forall o msg u, bind o w <> Throws (AssertionFailed msg) u).
Proof.
  unfold gated, renderer_get. intros G.
  assert (blocked (_controller (canvas (unbind w))) = true) as Hub
    by (apply unbind_blocked; exact G).
  split; [intros v; now rewrite frameScale_set_canvas |].
  split; [intros v; now rewrite frameSize_set_canvas |].
  split.
  { destruct (onResize_binding w) as (Hr & _ & Hb & _). rewrite Hr, Hb.
    intros E. rewrite E. now apply G. }
  split; [intros c; now rewrite clearColor_set_canvas |].
  split; [intros p; now rewrite framePrecision_set_canvas |].
  split; [intros _; exact Hub |].
  split; [rewrite dispose_canvas; intros _; exact Hub |].
  split.
  - intros [p |].
    + rewrite bind_cases.
      destruct (same_renderer _ _); [exact G |].
      rewrite Hub. cbn [negb].
      destruct (r_initialized _); cbn [stateOf].
      * discriminate.
      * rewrite bind_configure_canvas, attached_canvas. discriminate.
    + rewrite bind_none. intros _. exact Hub.
  - intros [p |] msg u.
    + rewrite bind_cases.
      destruct (same_renderer _ _); [discriminate |].
      rewrite Hub. cbn [negb]. destruct (r_initialized _); discriminate.
    + rewrite bind_none. discriminate.
Qed.

Lemma gated_invariant_witness :
  gated Examples.surface800x600 /\ gated (onResize Examples.surface800x600).
Proof.
  assert (gated Examples.surface800x600) as H by (intros _; reflexivity).
  split; [exact H |].
  exact (proj1 (proj2 (proj2 (gated_invariant Examples.surface800x600 H)))).
Defined.

(** X3.  The controller controls the renderer that is bound, or nothing:
    every method of the canvas keeps this when it completes. *)
Theorem coupled_invariant (w : World) :
  coupled w ->
  (forall v, coupled (frameScale_set v w))
  /\ (forall v, coupled (frameSize_set v w))
  /\ coupled (onResize w)
  /\ (forall c, coupled (clearColor_set c w))
  /\ (forall p, coupled (framePrecision_set p w))
  /\ coupled (unbind w)
  /\ coupled (dispose w)
  /\ (forall o w1, bind o w = Normal w1 -> coupled w1).
Proof.
  unfold coupled, renderer_get. intros C.
  assert (controllable (_controller (canvas (unbind w))) = _renderer (canvas (unbind w)))
    as Hub.
  { rewrite unbind_canvas.
    destruct (_renderer (canvas w)) eqn:E; [reflexivity | now rewrite C]. }
  split; [intros v; rewrite frameScale_set_canvas; exact C |].
  split; [intros v; rewrite frameSize_set_canvas; exact C |].
  split.
  { destruct (onResize_binding w) as (Hr & Hc & _). now rewrite Hr, Hc. }
  split; [intros c; rewrite clearColor_set_canvas; exact C |].
  split; [intros p; rewrite framePrecision_set_canvas; exact C |].
  split; [exact Hub |].
  split; [now rewrite dispose_canvas |].
  intros [p |] w1.
  - rewrite bind_cases.
    destruct (same_renderer _ _); [intros H; now injection H as <- |].
    destruct (negb _); [discriminate |].
    destruct (r_initialized _); [discriminate |].
    intros H. injection H as <-.
    now rewrite bind_configure_canvas, attached_canvas.
  - rewrite bind_none. intros H. now injection H as <-.
Qed.

Lemma coupled_invariant_witness :
  coupled Examples.bound800x600 /\ coupled (dispose Examples.bound800x600).
Proof.
  assert (coupled Examples.bound800x600) as H by (vm_compute; reflexivity).
  split; [exact H |].
  exact (proj1 (proj2 (proj2 (proj2 (proj2 (proj2 (proj2
    (coupled_invariant Examples.bound800x600 H)))))))).
Defined.

(** ** Failing binds *)

(** X4.  [bind] of a renderer on a canvas that has none and whose
    controller is not blocked throws at the assertion and leaves the world as
    it was. *)
Theorem bind_needs_blocked_controller (w : World) (p : RendererRef) :
  renderer_get w = None ->
  blocked (_controller (canvas w)) = false ->
  bind (Some p) w = Throws (AssertionFailed "expected controller to be blocked") w.
Proof.
  unfold renderer_get. intros Hr Hb.
  assert (unbind w = w) as Hu by (unfold unbind; now rewrite Hr).
  rewrite bind_cases, Hu, Hr, Hb. reflexivity.
Qed.

Lemma bind_needs_blocked_controller_witness :
  renderer_get MoreExamples.unblocked800x600 = None
  /\ bind (Some 0%nat) MoreExamples.unblocked800x600
     = Throws (AssertionFailed "expected controller to be blocked")
              MoreExamples.unblocked800x600.
Proof.
  assert (renderer_get MoreExamples.unblocked800x600 = None) as H0 by reflexivity.
  assert (blocked (_controller (canvas MoreExamples.unblocked800x600)) = false) as H1
    by reflexivity.
  split; [exact H0 |].
  exact (bind_needs_blocked_controller MoreExamples.unblocked800x600 0%nat H0 H1).
Defined.

(** X5.  [bind] of an initialised renderer [p] throws in [initialize],
    after the reference was stored: the canvas is left with [p] as its
    renderer, the controller blocked and controlling nothing, the renderer
    objects and the settings untouched; a second [bind] of [p] is then a
    no-op, so [p] stays bound without ever being configured. *)
Theorem bind_initialized_renderer (w : World) (p : RendererRef) :
  gated w ->
  coupled w ->
  renderer_get w <> Some p ->
  r_initialized (renderers w p) = true ->
  exists u : World,
    bind (Some p) w = Throws (AlreadyInitialized p) u
    /\ renderer_get u = Some p
    /\ controllable (_controller (canvas u)) = None
    /\ blocked (_controller (canvas u)) = true
    /\ renderers u = renderers w
    /\ settings (canvas u) = settings (canvas w)
    /\ bind (Some p) u = Normal u.
Proof.
  unfold gated, coupled, renderer_get. intros G C Hne Hi.
  exists (with_canvas (set_renderer (Some p)) (unbind w)).
  assert (blocked (_controller (canvas (unbind w))) = true) as Hb
    by (apply unbind_blocked; exact G).
  assert (controllable (_controller (canvas (unbind w))) = None) as Hc.
  { rewrite unbind_canvas.
    destruct (_renderer (canvas w)) eqn:E; [reflexivity | now rewrite C]. }
  split.
  { rewrite bind_cases, (same_renderer_false _ _ Hne), Hb, unbind_renderers, Hi.
    reflexivity. }
  split; [reflexivity |].
  split; [exact Hc |].
  split; [exact Hb |].
  split; [apply unbind_renderers |].
  split; [apply unbind_settings |].
  apply bind_same. reflexivity.
Qed.

Lemma bind_initialized_renderer_witness :
  gated MoreExamples.released800x600
  /\ coupled MoreExamples.released800x600
  /\ renderer_get MoreExamples.released800x600 <> Some 0%nat
  /\ r_initialized (renderers MoreExamples.released800x600 0%nat) = true
  /\ exists u : World,
       bind (Some 0%nat) MoreExamples.released800x600 = Throws (AlreadyInitialized 0%nat) u
       /\ renderer_get u = Some 0%nat.
Proof.
  assert (gated MoreExamples.released800x600) as H0 by (intros _; vm_compute; reflexivity).
  assert (coupled MoreExamples.released800x600) as H1 by (vm_compute; reflexivity).
  assert (renderer_get MoreExamples.released800x600 <> Some 0%nat) as H2
    by (vm_compute; discriminate).
  assert (r_initialized (renderers MoreExamples.released800x600 0%nat) = true) as H3
    by (vm_compute; reflexivity).
  split; [exact H0 |]. split; [exact H1 |]. split; [exact H2 |]. split; [exact H3 |].
  destruct (bind_initialized_renderer MoreExamples.released800x600 0%nat H0 H1 H2 H3)
    as [u (Hu & Hr & _)].
  exists u. split; [exact Hu | exact Hr].
Defined.

(** ** Disposal *)

(** X6.  [dispose] of a canvas without a renderer does nothing.  Otherwise
    it uninitialises the renderer, then blocks the controller and detaches
    the renderer, in this order, and touches no other renderer object.  A
    second [dispose] changes nothing. *)
Theorem dispose_releases (w : World) :
  dispose (dispose w) = dispose w
  /\ (renderer_get w = None -> dispose w = w)
  /\ (forall r : RendererRef,
        renderer_get w = Some r ->
        renderer_get (dispose w) = None
        /\ controllable (_controller (canvas (dispose w))) = None
        /\ blocked (_controller (canvas (dispose w))) = true
        /\ r_initialized (renderers (dispose w) r) = false
        /\ (forall q, q <> r -> renderers (dispose w) q = renderers w q)
        /\ settings (canvas (dispose w)) = settings (canvas w)
        /\ trace (dispose w) = trace w ++ [RUninitialize r; CtlBlock; CtlControllable None]).
Proof.
  unfold renderer_get.
  assert (_renderer (canvas w) = None -> dispose w = w) as Hnone
    by (intros H; unfold dispose; now rewrite H).
  assert (_renderer (canvas (dispose w)) = None) as Hafter.
  { rewrite dispose_canvas, unbind_canvas. now destruct (_renderer (canvas w)) eqn:E. }
  split.
  { unfold dispose at 1. now rewrite Hafter. }
  split; [exact Hnone |].
  intros r Hr.
  split; [exact Hafter |].
  rewrite dispose_canvas, unbind_canvas, Hr.
  split; [reflexivity |]. split; [reflexivity |].
  unfold dispose. rewrite Hr.
  set (u := renderer_uninitialize r w).
  assert (_renderer (canvas u) = Some r) as Hur by exact Hr.
  assert (renderers (unbind u) = renderers u) as Hrs by apply unbind_renderers.
  assert (trace (unbind u) = trace u ++ [CtlBlock; CtlControllable None]) as Htr.
  { unfold unbind. rewrite Hur. cbn. now rewrite <- app_assoc. }
  rewrite Hrs, Htr.
  split; [unfold u, renderer_uninitialize; cbn [renderers emit];
          now rewrite update_renderer_same |].
  split.
  { intros q Hq. unfold u, renderer_uninitialize. cbn [renderers emit].
    now apply update_renderer_other. }
  split; [reflexivity |].
  unfold u, renderer_uninitialize. cbn [trace emit update_renderer].
  now rewrite <- app_assoc.
Qed.

Lemma dispose_releases_witness :
  renderer_get Examples.bound800x600 = Some 0%nat
  /\ r_initialized (renderers (dispose Examples.bound800x600) 0%nat) = false.
Proof.
  assert (renderer_get Examples.bound800x600 = Some 0%nat) as H
    by (vm_compute; reflexivity).
  split; [exact H |].
  exact (proj1 (proj2 (proj2 (proj2
    (proj2 (proj2 (dispose_releases Examples.bound800x600)) 0%nat H))))).
Defined.

(** ** Frame precision and clear colour *)

Lemma lastEvent_snoc (t : list Event) (e : Event) : lastEvent (t ++ [e]) = Some e.
Proof. unfold lastEvent. rewrite map_app. cbn [map]. apply last_last. Qed.

(** X7.  The setter of the frame precision stores what the renderer that
    is bound honours for the precision asked for, and the precision asked
    for when there is none; the renderer holds the same value; the value
    published to the observers is the stored one and its publication is the
    last thing the setter does. *)
Theorem framePrecision_set_negotiates (w : World) (p : FramePrecisionString) :
  framePrecision_get (framePrecision_set p w)
  = match renderer_get w with
    | Some r => supportedPrecision (renderers w r) p
    | None => p
    end
  /\ (forall r, renderer_get w = Some r ->
                r_framePrecision (renderers (framePrecision_set p w) r)
                = framePrecision_get (framePrecision_set p w))
  /\ lastEvent (trace (framePrecision_set p w))
     = Some (FramePrecisionNext (framePrecision_get (framePrecision_set p w)))
  /\ renderer_get (framePrecision_set p w) = renderer_get w.
Proof.
  unfold framePrecision_get, renderer_get.
  rewrite framePrecision_set_canvas. cbn [set_framePrecision _framePrecision _renderer].
  split; [reflexivity |].
  split.
  { intros r Hr. rewrite Hr. unfold framePrecision_set. cbv zeta.
    change (_renderer (canvas (with_canvas (set_framePrecision p) w)))
      with (_renderer (canvas w)).
    rewrite Hr. cbn [framePrecisionNext emit renderers with_canvas].
    now rewrite renderer_set_framePrecision_same. }
  split; [| reflexivity].
  unfold framePrecision_set. cbv zeta.
  change (_renderer (canvas (with_canvas (set_framePrecision p) w)))
    with (_renderer (canvas w)).
  destruct (_renderer (canvas w)) as [r |].
  - unfold framePrecisionNext. cbn [emit trace canvas with_canvas set_framePrecision
                                    _framePrecision].
    rewrite lastEvent_snoc, renderer_set_framePrecision_same. reflexivity.
  - unfold framePrecisionNext. cbn [emit trace canvas with_canvas set_framePrecision
                                    _framePrecision].
    now rewrite lastEvent_snoc.
Qed.

Lemma framePrecision_set_negotiates_witness :
  renderer_get MoreExamples.byteBound800x600 = Some 1%nat
  /\ r_framePrecision (renderers (framePrecision_set Pfloat MoreExamples.byteBound800x600) 1%nat)
     = framePrecision_get (framePrecision_set Pfloat MoreExamples.byteBound800x600).
Proof.
  assert (renderer_get MoreExamples.byteBound800x600 = Some 1%nat) as H by (vm_compute; reflexivity).
  split; [exact H |].
  exact (proj1 (proj2 (framePrecision_set_negotiates MoreExamples.byteBound800x600 Pfloat)) 1%nat H).
Defined.

(** ** The renderer follows the canvas *)

Lemma clearColor_set_renderers (c : Color) (w : World) :
  renderers (clearColor_set c w)
  = match _renderer (canvas w) with
    | Some r => renderers (renderer_set_clearColor r (rgba c) w)
    | None => renderers w
    end.
Proof.
  unfold clearColor_set. cbv zeta.
  cbn [with_canvas canvas set_clearColor _renderer _clearColor].
  now destruct (_renderer (canvas w)).
Qed.

Lemma framePrecision_set_renderers (p : FramePrecisionString) (w : World) :
  renderers (framePrecision_set p w)
  = match _renderer (canvas w) with
    | Some r => renderers (renderer_set_framePrecision r p w)
    | None => renderers w
    end.
Proof.
  unfold framePrecision_set. cbv zeta.
  cbn [with_canvas canvas set_framePrecision _renderer _framePrecision].
  now destruct (_renderer (canvas w)).
Qed.

Lemma onResize_renderers (w : World) :
  renderers (onResize w)
  = match _renderer (canvas w) with
    | Some r => renderers (renderer_set_frameSize r (frameSize_get (onResize w)) w)
    | None => renderers w
    end.
Proof.
  destruct (onResize_shape w) as [w1 (Hrs & Hr & _ & _ & _ & _ & _ & Hw)].
  cbv zeta in Hw.
  assert (forall r v, renderers (renderer_set_frameSize r v w1)
                      = renderers (renderer_set_frameSize r v w)) as Hset.
  { intros r v. unfold renderer_set_frameSize, update_renderer. cbn [renderers emit].
    now rewrite Hrs. }
  destruct (_renderer (canvas w)) as [r |].
  - rewrite Hw.
    change (renderers (controller_unblock ?x)) with (renderers x).
    change (frameSize_get (controller_unblock ?x)) with (frameSize_get x).
    destruct (_favorSizeOverScale (canvas w)).
    + now rewrite frameSize_set_renderers, Hr, Hset.
    + now rewrite frameScale_set_renderers, Hr, Hset.
  - destruct Hw as [-> _].
    destruct (_favorSizeOverScale (canvas w)).
    + now rewrite frameSize_set_renderers, Hr.
    + now rewrite frameScale_set_renderers, Hr.
Qed.

(** X8.  The renderer that is bound has the frame size and the clear colour
    of the canvas: a completed [bind] makes it so, and every other method of
    the canvas keeps it so. *)
Theorem inSync_invariant (w : World) :
  (forall o w1, (renderer_get w = o -> inSync w) -> bind o w = Normal w1 -> inSync w1)
  /\ (inSync w ->
      (forall v, inSync (frameScale_set v w))
      /\ (forall v, inSync (frameSize_set v w))
      /\ inSync (onResize w)
      /\ (forall c, inSync (clearColor_set c w))
      /\ (forall p, inSync (framePrecision_set p w))
      /\ inSync (unbind w)
      /\ inSync (dispose w)).
Proof.
  assert (_renderer (canvas (unbind w)) = None) as Hun.
  { rewrite unbind_canvas. now destruct (_renderer (canvas w)) eqn:E. }
  split.
  - intros [p |] w1 Hsame H.
    + destruct (same_renderer (renderer_get w) (Some p)) eqn:Es;
        [apply same_renderer_eq in Es; rename Es into E
        | assert (renderer_get w <> Some p) as Hne
            by (intros E; apply same_renderer_eq in E; congruence)].
      * rewrite (bind_same w (Some p) E) in H. injection H as <-. now apply Hsame.
      * destruct (bind_new_state w w1 p Hne H) as (Hc & Hp & _).
        pose proof (unbind_settings w) as Hset.
        unfold inSync, renderer_get, frameSize_get. rewrite Hc.
        cbn [set_controller set_renderer _renderer _frameSize _clearColor].
        intros r Hr. injection Hr as <-. rewrite Hp.
        cbn [r_frameSize r_clearColor].
        unfold settings in Hset. injection Hset as _ Hcc _ _ _ Hsz _ _.
        now rewrite Hcc, Hsz.
    + rewrite bind_none in H. injection H as <-.
      unfold inSync, renderer_get. rewrite Hun. discriminate.
  - unfold inSync, renderer_get, frameSize_get. intros I.
    split.
    { intros v r. rewrite frameScale_set_renderers. unfold frameSize_get.
      rewrite !frameScale_set_canvas. cbv zeta.
      cbn [set_frame _renderer _frameSize _clearColor].
      intros Hr. rewrite Hr, renderer_set_frameSize_same. cbv zeta.
      cbn [r_frameSize r_clearColor]. split; [reflexivity | now apply I]. }
    split.
    { intros v r. rewrite frameSize_set_renderers. unfold frameSize_get.
      rewrite !frameSize_set_canvas. cbv zeta.
      cbn [set_frame _renderer _frameSize _clearColor].
      intros Hr. rewrite Hr, renderer_set_frameSize_same. cbv zeta.
      cbn [r_frameSize r_clearColor]. split; [reflexivity | now apply I]. }
    split.
    { intros r. destruct (onResize_binding w) as (Hr & _ & _ & Hcc & _).
      rewrite onResize_renderers, Hr, Hcc. intros E. rewrite E.
      rewrite renderer_set_frameSize_same. cbv zeta. cbn [r_frameSize r_clearColor].
      split; [reflexivity | now apply I]. }
    split.
    { intros c r. rewrite clearColor_set_renderers, clearColor_set_canvas.
      cbn [set_clearColor _renderer _frameSize _clearColor].
      intros Hr. rewrite Hr, renderer_set_clearColor_same. cbv zeta.
      cbn [r_frameSize r_clearColor]. split; [now apply I | reflexivity]. }
    split.
    { intros p r. rewrite framePrecision_set_renderers, framePrecision_set_canvas.
      cbn [set_framePrecision _renderer _frameSize _clearColor].
      intros Hr. rewrite Hr, renderer_set_framePrecision_same. cbv zeta.
      cbn [r_frameSize r_clearColor]. now apply I. }
    split.
    { intros r. rewrite Hun. discriminate. }
    intros r. rewrite dispose_canvas, Hun. discriminate.
Qed.

Lemma inSync_invariant_witness :
  inSync Examples.bound800x600
  /\ inSync (onResize Examples.bound800x600).
Proof.
  assert (inSync Examples.bound800x600) as H.
  { intros r Hr. vm_compute in Hr. injection Hr as <-. split; vm_compute; reflexivity. }
  split; [exact H |].
  exact (proj1 (proj2 (proj2 (proj2 (inSync_invariant Examples.bound800x600) H)))).
Defined.

(** ** The frame on its surface *)









(** The frame a resize leaves, field by field. *)
Lemma onResize_frame (w : World) :
  let S := clientSize (_element (canvas w)) in
  frameSize_get (onResize w)
  = (if _favorSizeOverScale (canvas w)
     then round (clamp2 (_frameSize (canvas w)) (1, 1) S)
     else round (max (1, 1) (mul S (clamp2 (_frameScale (canvas w)) (0, 0) (1, 1)))))
  /\ frameScale_get (onResize w) = div (frameSize_get (onResize w)) S
  /\ _favorSizeOverScale (canvas (onResize w))
     = (if _favorSizeOverScale (canvas w)
        then negb (exactEquals (frameSize_get (onResize w)) S)
        else false)
  /\ _size (canvas (onResize w)) = S.
Proof.
  cbv zeta. unfold frameSize_get, frameScale_get.
  destruct (onResize_shape w) as [w1 (_ & _ & _ & _ & _ & HS & _ & Hw)].
  cbv zeta in Hw.
  assert (forall x, canvas (controller_unblock x)
                    = set_controller (mkController false (controllable (_controller (canvas x)))
                                        (multiFrameNumber (_controller (canvas x)))
                                        (debugFrameNumber (_controller (canvas x))))
                                     (canvas x)) as Hun by reflexivity.
  destruct (_renderer (canvas w)) as [r |].
  - rewrite Hw, Hun. clear Hw.
    destruct (_favorSizeOverScale (canvas w));
      rewrite ?frameSize_set_canvas, ?frameScale_set_canvas; cbv zeta;
      cbn [set_controller set_frame _frameSize _frameScale _favorSizeOverScale _size];
      rewrite HS; repeat split.
  - destruct Hw as [-> _].
    destruct (_favorSizeOverScale (canvas w));
      rewrite ?frameSize_set_canvas, ?frameScale_set_canvas; cbv zeta;
      cbn [set_frame _frameSize _frameScale _favorSizeOverScale _size];
      rewrite HS; repeat split.
Qed.

(** ** Resizes of the surface *)

Lemma hostResize_frame (newSize : vec2) (w : World) :
  frameSize_get (hostResize newSize w)
  = (if _favorSizeOverScale (canvas w)
     then round (clamp2 (_frameSize (canvas w)) (1, 1) newSize)
     else round (max (1, 1) (mul newSize (clamp2 (_frameScale (canvas w)) (0, 0) (1, 1)))))
  /\ frameScale_get (hostResize newSize w) = div (frameSize_get (hostResize newSize w)) newSize
  /\ _favorSizeOverScale (canvas (hostResize newSize w))
     = (if _favorSizeOverScale (canvas w)
        then negb (exactEquals (frameSize_get (hostResize newSize w)) newSize)
        else false)
  /\ _size (canvas (hostResize newSize w)) = newSize.
Proof.
  unfold hostResize.
  exact (onResize_frame (with_canvas (fun c => set_element
           (mkElement newSize (width (_element c)) (height (_element c))) c) w)).
Qed.

Lemma exactEquals_refl (v : vec2) : exactEquals v v = true.
Proof. unfold exactEquals. now rewrite !Qeq_bool_refl. Qed.

Lemma whole_pair (f : vec2) :
  round f = f -> Math_round (fst f) = fst f /\ Math_round (snd f) = snd f.
Proof. destruct f as [a b]. unfold round. cbn [fst snd]. intros H. now injection H. Qed.

(** X11.  While the size is in charge, a frame of a whole number of pixels
    that fits into the new surface survives a resize of the surface as it
    is; the size stays in charge unless the frame is now the full
    surface. *)
Theorem explicit_size_survives_resize (w : World) (newSize : vec2) :
  _favorSizeOverScale (canvas w) = true ->
  round (frameSize_get w) = frameSize_get w ->
  1 <= fst (frameSize_get w) <= fst newSize ->
  1 <= snd (frameSize_get w) <= snd newSize ->
  frameSize_get (hostResize newSize w) = frameSize_get w
  /\ _favorSizeOverScale (canvas (hostResize newSize w))
     = negb (exactEquals (frameSize_get w) newSize).
Proof.
  intros Hfav Hint Hx Hy.
  destruct (hostResize_frame newSize w) as (Hsz & _ & Hf & _).
  rewrite Hfav in Hsz, Hf.
  assert (frameSize_get (hostResize newSize w) = frameSize_get w) as E.
  { rewrite Hsz. fold (frameSize_get w).
    destruct (whole_pair _ Hint) as [Ia Ib].
    destruct (frameSize_get w) as [a b]. cbn [fst snd] in *.
    unfold round, clamp2. cbn [fst snd].
    rewrite (Math_round_comp (clamp a 1 (fst newSize)) a) by (apply clamp_inside; lra).
    rewrite (Math_round_comp (clamp b 1 (snd newSize)) b) by (apply clamp_inside; lra).
    now rewrite Ia, Ib. }
  split; [exact E | now rewrite Hf, E].
Qed.

Lemma explicit_size_survives_resize_witness :
  _favorSizeOverScale (canvas MoreExamples.sized640x480) = true
  /\ frameSize_get (hostResize (1024, 768) MoreExamples.sized640x480)
     = frameSize_get MoreExamples.sized640x480.
Proof.
  assert (_favorSizeOverScale (canvas MoreExamples.sized640x480) = true) as H0
    by (vm_compute; reflexivity).
  split; [exact H0 |].
  refine (proj1 (explicit_size_survives_resize MoreExamples.sized640x480 (1024, 768)
                   H0 _ _ _)).
  - vm_compute. reflexivity.
  - split; vm_compute; discriminate.
  - split; vm_compute; discriminate.
Defined.

(** The frame is the full surface, at the scale that goes with it, and
    the scale is in charge. *)
Lemma full_frame_step (w : World) (S newSize : vec2) :
  1 <= fst S -> 1 <= snd S ->
  frameScale_get w = div (frameSize_get w) S ->
  frameSize_get w = S ->
  _favorSizeOverScale (canvas w) = false ->
  wholeSurface newSize ->
  frameScale_get (hostResize newSize w) = div (frameSize_get (hostResize newSize w)) newSize
  /\ frameSize_get (hostResize newSize w) = newSize
  /\ _favorSizeOverScale (canvas (hostResize newSize w)) = false.
Proof.
  intros H0 H1 Hsc Hsz Hf (Hint & [Hn0 _] & [Hn1 _]).
  destruct (hostResize_frame newSize w) as (_ & Hsc' & Hf' & _).
  rewrite Hf in Hf'.
  split; [exact Hsc' |]. split; [| exact Hf'].
  rewrite (full_size_follows_surface w S newSize H0 H1 Hsc) by
    (first [assumption | rewrite Hsz; apply exactEquals_refl]).
  exact Hint.
Qed.

Lemma last_of_cons {A : Type} (l : list A) :
  forall a d d' : A, List.last (a :: l) d = List.last (a :: l) d'.
Proof.
  induction l as [| b l IH]; intros a d d'; [reflexivity |].
  change (List.last (b :: l) d = List.last (b :: l) d'). apply IH.
Qed.

Lemma full_frame_follows (later : list vec2) :
  forall (w : World) (S : vec2),
    1 <= fst S -> 1 <= snd S ->
    frameScale_get w = div (frameSize_get w) S ->
    frameSize_get w = S ->
    _favorSizeOverScale (canvas w) = false ->
    Forall wholeSurface later ->
    frameSize_get (hostResizes later w) = List.last later S
    /\ _favorSizeOverScale (canvas (hostResizes later w)) = false.
Proof.
  induction later as [| s rest IH]; intros w S H0 H1 Hsc Hsz Hf Hall.
  - split; assumption.
  - apply Forall_cons_iff in Hall. destruct Hall as [Hs Hrest].
    destruct (full_frame_step w S s H0 H1 Hsc Hsz Hf Hs) as (Hsc' & Hsz' & Hf').
    destruct Hs as (_ & [Hs0 _] & [Hs1 _]).
    destruct (IH (hostResize s w) s Hs0 Hs1 Hsc' Hsz' Hf' Hrest) as [A B].
    change (hostResizes (s :: rest) w) with (hostResizes rest (hostResize s w)).
    split; [| exact B].
    rewrite A. destruct rest as [| v rest]; [reflexivity |].
    change (List.last (s :: v :: rest) S) with (List.last (v :: rest) S).
    apply last_of_cons.
Qed.

(** X12.  While the size is in charge, a resize to a surface of a whole
    number of pixels that is no larger than the frame on either axis makes
    the frame the full surface and puts the scale in charge: the size that
    was set is forgotten.  From then on, through any sequence of resizes to
    surfaces of whole pixels, the frame is the full surface and the scale
    stays in charge. *)
Theorem explicit_size_lost_on_shrink (w : World) (newSize : vec2) :
  _favorSizeOverScale (canvas w) = true ->
  wholeSurface newSize ->
  fst newSize <= fst (frameSize_get w) ->
  snd newSize <= snd (frameSize_get w) ->
  frameSize_get (hostResize newSize w) = newSize
  /\ _favorSizeOverScale (canvas (hostResize newSize w)) = false
  /\ (forall later : list vec2,
        Forall wholeSurface later ->
        frameSize_get (hostResizes later (hostResize newSize w)) = List.last later newSize
        /\ _favorSizeOverScale (canvas (hostResizes later (hostResize newSize w))) = false).
Proof.
  intros Hfav (Hint & [Hx0 _] & [Hy0 _]) Hx Hy.
  destruct (hostResize_frame newSize w) as (Hsz & Hsc & Hf & _).
  rewrite Hfav in Hsz, Hf.
  assert (frameSize_get (hostResize newSize w) = newSize) as E.
  { rewrite Hsz. fold (frameSize_get w).
    destruct (whole_pair _ Hint) as [Ia Ib].
    destruct (frameSize_get w) as [a b], newSize as [m n]. cbn [fst snd] in *.
    unfold round, clamp2. cbn [fst snd].
    rewrite (Math_round_comp (clamp a 1 m) m) by (apply clamp_above; lra).
    rewrite (Math_round_comp (clamp b 1 n) n) by (apply clamp_above; lra).
    now rewrite Ia, Ib. }
  assert (_favorSizeOverScale (canvas (hostResize newSize w)) = false) as F
    by (now rewrite Hf, E, exactEquals_refl).
  split; [exact E |]. split; [exact F |].
  intros later Hall.
  apply (full_frame_follows later (hostResize newSize w) newSize Hx0 Hy0); assumption.
Qed.

Lemma explicit_size_lost_on_shrink_witness :
  _favorSizeOverScale (canvas MoreExamples.sized640x480) = true
  /\ frameSize_get (hostResizes [(1024, 768); (400, 300)]
                      (hostResize (320, 240) MoreExamples.sized640x480))
     = (400, 300).
Proof.
  assert (_favorSizeOverScale (canvas MoreExamples.sized640x480) = true) as H0
    by (vm_compute; reflexivity).
  assert (forall a b : Z, (1 <= a < 16777216)%Z -> (1 <= b < 16777216)%Z ->
            wholeSurface (inject_Z a, inject_Z b)) as W.
  { intros a b [A1 A2] [B1 B2]. unfold wholeSurface, round. cbn [fst snd].
    rewrite !Math_round_inject_Z. split; [reflexivity |].
    change 1 with (inject_Z 1). change 16777216 with (inject_Z 16777216).
    rewrite <- !Zle_Qle, <- !Zlt_Qlt. lia. }
  assert (fst (320, 240) <= fst (frameSize_get MoreExamples.sized640x480)) as H2
    by (vm_compute; discriminate).
  assert (snd (320, 240) <= snd (frameSize_get MoreExamples.sized640x480)) as H3
    by (vm_compute; discriminate).
  split; [exact H0 |].
  refine (proj1 (proj2 (proj2 (explicit_size_lost_on_shrink MoreExamples.sized640x480 (320, 240)
                         H0 (W 320%Z 240%Z _ _) H2 H3)) [(1024, 768); (400, 300)] _)).
  - lia.
  - lia.
  - apply Forall_cons; [exact (W 1024%Z 768%Z ltac:(lia) ltac:(lia)) |].
    apply Forall_cons; [exact (W 400%Z 300%Z ltac:(lia) ltac:(lia)) |].
    apply Forall_nil.
Defined.



(** ** Initial configuration *)

Section SetupProperties.

Variable parseVec2 : string -> option vec2.




End SetupProperties.


(** With both attributes given the frame is 640 x 480; with a frame size
    that cannot be parsed the scale of one half is used and the diagnostic
    names the text. *)
Example configureSizeAndScale_on_800x600 :
  frameSize_get (fst (Setup.configureSizeAndScale MoreExamples.toyParse
                        (Setup.mkDataset (Some "0.5,0.5"%string) (Some "640,480"%string))
                        Examples.surface800x600)) = (640, 480)
  /\ Setup.configureSizeAndScale MoreExamples.toyParse
       (Setup.mkDataset (Some "0.5,0.5"%string) (Some "wide"%string))
       Examples.surface800x600
     = (onResize (with_canvas (set_frame (1 # 2, 1 # 2) (800, 600) false)
                    Examples.surface800x600),
        [Setup.frame_size_not_parsed "wide"])
  /\ frameSize_get (fst (Setup.configureSizeAndScale MoreExamples.toyParse
                           (Setup.mkDataset (Some "0.5,0.5"%string) (Some "wide"%string))
                           Examples.surface800x600)) = (400, 300).
Proof. repeat split; vm_compute; reflexivity. Qed.

(** ** The demos *)



Lemma uninitializations_app (r : RendererRef) (a b : list Event) :
  uninitializations r (a ++ b) = (uninitializations r a + uninitializations r b)%nat.
Proof. unfold uninitializations. now rewrite filter_app, length_app. Qed.

(** X16.  [uninitialize] of [GltfDemo], with the renderer of the demo
    bound: the canvas ends without a renderer and with its controller blocked
    and controlling nothing, and [uninitialize] has been called on the
    renderer twice, once by [dispose] before the renderer is detached and
    once by the demo afterwards. *)
Theorem demo_uninitialize_twice (w : World) (p : RendererRef) :
  renderer_get w = Some p ->
  renderer_get (Demo.uninitialize p w) = None
  /\ blocked (_controller (canvas (Demo.uninitialize p w))) = true
  /\ controllable (_controller (canvas (Demo.uninitialize p w))) = None
  /\ trace (Demo.uninitialize p w)
     = trace w ++ [RUninitialize p; CtlBlock; CtlControllable None; RUninitialize p]
  /\ uninitializations p (trace (Demo.uninitialize p w))
     = (uninitializations p (trace w) + 2)%nat.
Proof.
  unfold renderer_get. intros Hr.
  unfold Demo.uninitialize. cbv zeta.
  assert (canvas (renderer_uninitialize p (dispose w)) = canvas (dispose w)) as Hc
    by reflexivity.
  assert (trace (renderer_uninitialize p (dispose w))
          = trace (dispose w) ++ [RUninitialize p]) as Ht by reflexivity.
  assert (trace (dispose w) = trace w ++ [RUninitialize p; CtlBlock; CtlControllable None])
    as Hd.
  { unfold dispose. rewrite Hr. unfold unbind.
    change (_renderer (canvas (renderer_uninitialize p w))) with (_renderer (canvas w)).
    rewrite Hr. cbn [trace emit with_canvas controller_set_controllable controller_block
                     renderer_uninitialize update_renderer].
    now rewrite <- !app_assoc. }
  rewrite Hc, Ht, Hd, dispose_canvas, unbind_canvas, Hr, <- app_assoc.
  cbn [set_renderer set_controller _renderer _controller blocked controllable app].
  repeat split.
  rewrite uninitializations_app. unfold uninitializations at 2.
  cbn [filter List.length]. rewrite Nat.eqb_refl. cbn [List.length]. lia.
Qed.

Lemma demo_uninitialize_twice_witness :
  renderer_get Examples.bound800x600 = Some 0%nat
  /\ renderer_get (Demo.uninitialize 0%nat Examples.bound800x600) = None.
Proof.
  assert (renderer_get Examples.bound800x600 = Some 0%nat) as H
    by (vm_compute; reflexivity).
  split; [exact H |].
  exact (proj1 (demo_uninitialize_twice Examples.bound800x600 0%nat H)).
Defined.

(** ** The order of a binding *)

(** X22.  A [bind] that completes for a renderer that was not bound runs
    with the controller blocked from the moment the old renderer is gone:
    the renderer is initialised, given frame size, clear colour, precision
    and debug texture and made the controllable, in this order, and the
    unblocking of the controller is the last thing that happens. *)
Theorem bind_configures_while_blocked (w w1 : World) (p : RendererRef) :
  renderer_get w <> Some p ->
  bind (Some p) w = Normal w1 ->
  blocked (_controller (canvas (unbind w))) = true
  /\ trace w1
     = trace (unbind w)
       ++ [RInitialize p;
           RFrameSize p (frameSize_get w);
           RClearColor p (rgba (_clearColor (canvas w)));
           RFramePrecision p (framePrecision_get w);
           RDebugTexture p (-1)%Z;
           CtlControllable (Some p);
           CtlUnblock]
  /\ lastEvent (trace w1) = Some CtlUnblock.
Proof.
  intros Hne H.
  destruct (bind_normal_shape w w1 p Hne H) as (-> & Hb & _).
  pose proof (unbind_settings w) as Hset.
  generalize dependent (unbind w). intros u _ Hb Hset.
  unfold settings in Hset. injection Hset as _ Hcc Hfp _ _ Hsz _ _.
  assert (trace (bind_configure p (attached p u))
          = trace u
            ++ [RInitialize p;
                RFrameSize p (frameSize_get w);
                RClearColor p (rgba (_clearColor (canvas w)));
                RFramePrecision p (framePrecision_get w);
                RDebugTexture p (-1)%Z;
                CtlControllable (Some p);
                CtlUnblock]) as Ht.
  { rewrite bind_configure_trace, attached_canvas.
    cbn [set_renderer _frameSize _clearColor _framePrecision].
    unfold frameSize_get, framePrecision_get. rewrite Hcc, Hfp, Hsz.
    unfold attached. cbn [trace emit update_renderer with_canvas].
    now rewrite <- app_assoc. }
  split; [exact Hb |]. split; [exact Ht |].
  rewrite Ht.
  change [RInitialize p; RFrameSize p (frameSize_get w);
          RClearColor p (rgba (_clearColor (canvas w)));
          RFramePrecision p (framePrecision_get w);
          RDebugTexture p (-1)%Z; CtlControllable (Some p); CtlUnblock]
    with ([RInitialize p; RFrameSize p (frameSize_get w);
           RClearColor p (rgba (_clearColor (canvas w)));
           RFramePrecision p (framePrecision_get w);
           RDebugTexture p (-1)%Z; CtlControllable (Some p)] ++ [CtlUnblock]).
  rewrite app_assoc. apply lastEvent_snoc.
Qed.

Lemma bind_configures_while_blocked_witness :
  renderer_get Examples.surface800x600 <> Some 0%nat
  /\ lastEvent (trace Examples.bound800x600) = Some CtlUnblock.
Proof.
  assert (renderer_get Examples.surface800x600 <> Some 0%nat) as H0
    by (vm_compute; discriminate).
  assert (bind (Some 0%nat) Examples.surface800x600 = Normal Examples.bound800x600) as H1
    by (vm_compute; reflexivity).
  split; [exact H0 |].
  exact (proj2 (proj2
    (bind_configures_while_blocked Examples.surface800x600 Examples.bound800x600 0%nat
       H0 H1))).
Defined.

(** * Further properties of the label *)

Section LabelMoreProperties.

Import Label LabelMore.

(** ** Setters and getters *)

Lemma Alignment_eqb_eq (a b : Alignment.t) : Alignment.eqb a b = true -> a = b.
Proof. destruct a, b; cbn; intros H; try discriminate H; reflexivity. Qed.

Lemma LineAnchor_eqb_eq (a b : LineAnchor.t) : LineAnchor.eqb a b = true -> a = b.
Proof. destruct a, b; cbn; intros H; try discriminate H; reflexivity. Qed.

(** X17.  What a setter wrote, its getter returns: the very value for
    [text], [wordWrap], [alignment], [lineAnchor] and [fontFace], and a
    colour with the same components for [color] and [backgroundColor] (the
    stored object is kept when the components are the same).  [reset]
    changes none of the properties. *)
Theorem setters_and_getters (w : World) :
  (forall x, value text_get (after (text_set x) w) = x)
  /\ (forall b, value wordWrap_get (after (wordWrap_set b) w) = b)
  /\ (forall a, value alignment_get (after (alignment_set a) w) = a)
  /\ (forall a, value lineAnchor_get (after (lineAnchor_set a) w) = a)
  /\ (forall f, value fontFace_get (after (fontFace_set f) w) = f)
  /\ (forall c, Color_equals (value color_get (after (color_set c) w)) c = true)
  /\ (forall c, Color_equals (value backgroundColor_get (after (backgroundColor_set c) w)) c
                = true)
  /\ properties (label (after reset w)) = properties (label w).
Proof.
  unfold value, after.
  split; [intros x; reflexivity |].
  split.
  { intros b. unfold wordWrap_set, seq, this.
    destruct (Bool.eqb (_wordWrap (label w)) b) eqn:E; [| reflexivity].
    apply Bool.eqb_prop in E. now subst. }
  split.
  { intros a. unfold alignment_set, seq, this.
    destruct (Alignment.eqb (_alignment (label w)) a) eqn:E; [| reflexivity].
    apply Alignment_eqb_eq in E. now subst. }
  split.
  { intros a. unfold lineAnchor_set, seq, this.
    destruct (LineAnchor.eqb (_lineAnchor (label w)) a) eqn:E; [| reflexivity].
    apply LineAnchor_eqb_eq in E. now subst. }
  split.
  { intros f. unfold fontFace_set, seq, this.
    destruct (Nat.eqb (_fontFace (label w)) f) eqn:E; [| reflexivity].
    apply Nat.eqb_eq in E. now subst. }
  split.
  { intros c. unfold color_set, seq, this.
    destruct (Color_equals (_color (label w)) c) eqn:E; [exact E |].
    cbn. apply Color_equals_refl. }
  split.
  { intros c. unfold backgroundColor_set, seq, this.
    destruct (Color_equals (_backgroundColor (label w)) c) eqn:E; [exact E |].
    cbn. apply Color_equals_refl. }
  reflexivity.
Qed.

Lemma marked_alter (k : Category) (a : ChangeLookup) : marked [k] a (alter k a).
Proof.
  split; [now destruct k |].
  intros j. destruct k, j; cbn; rewrite ?orb_false_r, ?orb_true_r; reflexivity.
Qed.

(** X18.  A setter that is given a value other than the stored one marks
    its categories and [any], and leaves the other flags as they were:
    [typesetting] for [wordWrap], [alignment] and [lineAnchor];
    [typesetting] and [resources] for [fontFace]; [color] for [color] and
    [backgroundColor].  [text] marks [text] whatever it is given.  No setter
    touches a property other than its own or a shared object. *)
Theorem setters_mark_categories (w : World) :
  let a := _altered (label w) in
  (forall x, marked [cat_text] a (_altered (label (after (text_set x) w))))
  /\ (forall b, b <> _wordWrap (label w) ->
        marked [cat_typesetting] a (_altered (label (after (wordWrap_set b) w))))
  /\ (forall x, x <> _alignment (label w) ->
        marked [cat_typesetting] a (_altered (label (after (alignment_set x) w))))
  /\ (forall x, x <> _lineAnchor (label w) ->
        marked [cat_typesetting] a (_altered (label (after (lineAnchor_set x) w))))
  /\ (forall f, f <> _fontFace (label w) ->
        marked [cat_typesetting; cat_resources] a
               (_altered (label (after (fontFace_set f) w))))
  /\ (forall c, Color_equals (_color (label w)) c = false ->
        marked [cat_color] a (_altered (label (after (color_set c) w))))
  /\ (forall c, Color_equals (_backgroundColor (label w)) c = false ->
        marked [cat_color] a (_altered (label (after (backgroundColor_set c) w))))
  /\ (forall x b al an f c c',
        let ws := [after (text_set x) w; after (wordWrap_set b) w;
                   after (alignment_set al) w; after (lineAnchor_set an) w;
                   after (fontFace_set f) w; after (color_set c) w;
                   after (backgroundColor_set c') w] in
        Forall (fun w' => texts w' = texts w /\ fontFaces w' = fontFaces w
                          /\ _lineWidth (label w') = _lineWidth (label w)) ws).
Proof.
  cbv zeta. unfold after.
  split; [intros x; apply marked_alter |].
  split.
  { intros b Hb. unfold wordWrap_set, seq, this.
    destruct (Bool.eqb (_wordWrap (label w)) b) eqn:E.
    - apply Bool.eqb_prop in E. congruence.
    - apply marked_alter. }
  split.
  { intros x Hx. unfold alignment_set, seq, this.
    destruct (Alignment.eqb (_alignment (label w)) x) eqn:E.
    - apply Alignment_eqb_eq in E. congruence.
    - apply marked_alter. }
  split.
  { intros x Hx. unfold lineAnchor_set, seq, this.
    destruct (LineAnchor.eqb (_lineAnchor (label w)) x) eqn:E.
    - apply LineAnchor_eqb_eq in E. congruence.
    - apply marked_alter. }
  split.
  { intros f Hf. unfold fontFace_set, seq, this.
    destruct (Nat.eqb (_fontFace (label w)) f) eqn:E.
    - apply Nat.eqb_eq in E. congruence.
    - cbn. split; [reflexivity |].
      intros j. destruct j; cbn; rewrite ?orb_false_r, ?orb_true_r; reflexivity. }
  split.
  { intros c Hc. unfold color_set, seq, this. rewrite Hc. apply marked_alter. }
  split.
  { intros c Hc. unfold backgroundColor_set, seq, this. rewrite Hc. apply marked_alter. }
  intros x b al an f c c'.
  unfold text_set, wordWrap_set, alignment_set, lineAnchor_set, fontFace_set, color_set,
    backgroundColor_set, seq, this.
  destruct (Bool.eqb _ _), (Alignment.eqb _ _), (LineAnchor.eqb _ _), (Nat.eqb _ _),
    (Color_equals (_color (label w)) c), (Color_equals (_backgroundColor (label w)) c');
    repeat constructor.
Qed.

Lemma setters_mark_categories_witness :
  true <> _wordWrap (label LabelExamples.plainWorld)
  /\ marked [cat_typesetting] (_altered (label LabelExamples.plainWorld))
            (_altered (label (after (wordWrap_set true) LabelExamples.plainWorld))).
Proof.
  assert (true <> _wordWrap (label LabelExamples.plainWorld)) as H
    by (vm_compute; discriminate).
  split; [exact H |].
  exact (proj1 (proj2 (setters_mark_categories LabelExamples.plainWorld)) true H).
Defined.

(** ** Characters and glyph metrics *)

Lemma toInteger_whole (i : Z) : toInteger (whole i) = i.
Proof. unfold toInteger, whole. cbn. apply Z.quot_1_r. Qed.

Lemma toInteger_whole_plus (i : Z) : toInteger (add (whole i) (Num 1)) = (i + 1)%Z.
Proof. unfold toInteger, whole, add. cbn. rewrite Z.quot_1_r. ring. Qed.

Lemma toInteger_whole_back (i : Z) :
  toInteger (sub (add (whole i) (Num 1)) (Num 1)) = i.
Proof. unfold toInteger, whole, add, sub. cbn. rewrite Z.quot_1_r. ring. Qed.

(** The character code depends on the index through the whole number it is
    converted to. *)
Lemma charCodeAt_toInteger (i j : number) (w : World) :
  toInteger i = toInteger j -> charCodeAt i w = charCodeAt j w.
Proof.
  intros H. unfold charCodeAt, seq, this, theText, ret, String_charCodeAt.
  destruct (_text (label w)); now rewrite H.
Qed.

Lemma charCodeAt_reads (i : number) (w : World) :
  charCodeAt i w = (value (charCodeAt i) w, w).
Proof.
  unfold value, charCodeAt, seq, this, theText, ret. now destruct (_text (label w)).
Qed.

Lemma Qle_bool_ext (a b c d : Q) : (a <= b <-> c <= d)%Q -> Qle_bool a b = Qle_bool c d.
Proof.
  intros H. destruct (Qle_bool a b) eqn:E1, (Qle_bool c d) eqn:E2; try reflexivity.
  - apply Qle_bool_iff in E1. apply H in E1. apply Qle_bool_iff in E1. congruence.
  - apply Qle_bool_iff in E2. apply H in E2. apply Qle_bool_iff in E2. congruence.
Qed.

Lemma length_is_number (w : World) :
  exists n : nat, value length w = of_nat n /\ n = String.length (value toString w).
Proof.
  unfold value, length, toString, seq, this, theText, ret.
  destruct (_text (label w)); eexists; split; reflexivity.
Qed.

(** X19.  For every whole index, the kerning after the glyph at the index
    is the kerning before the glyph at the next index: both queries have
    the same guard and ask the face about the same pair. *)
Theorem kerningAfter_is_kerningBefore_next (w : World) (i : Z) :
  kerningAfter (whole i) w = kerningBefore (add (whole i) (Num 1)) w.
Proof.
  unfold kerningAfter, kerningBefore. rewrite !length_first.
  destruct (length_is_number w) as [n [-> _]].
  assert (lt (add (whole i) (Num 1)) (Num 1) = lt (whole i) (Num 0)) as ->.
  { unfold lt, add, whole, Core.Qlt_bool. f_equal. apply Qle_bool_ext.
    split; intros H; lra. }
  assert (gt (add (whole i) (Num 1)) (of_nat n) = gt (whole i) (sub (of_nat n) (Num 1))) as ->.
  { unfold gt, lt, add, sub, whole, of_nat, Core.Qlt_bool. f_equal. apply Qle_bool_ext.
    split; intros H; lra. }
  destruct (lt (whole i) (Num 0) || gt (whole i) (sub (of_nat n) (Num 1)))%bool;
    [reflexivity |].
  unfold seq at 1 2 5 6. unfold this, theFontFace.
  unfold seq.
  rewrite (charCodeAt_toInteger (sub (add (whole i) (Num 1)) (Num 1)) (whole i) w)
    by (now rewrite toInteger_whole_back, toInteger_whole).
  reflexivity.
Qed.

(** The values of the queries, in terms of the string and the face of the
    label. *)
Lemma charCodeAt_value (i : number) (w : World) :
  value (charCodeAt i) w = String_charCodeAt (value toString w) i.
Proof.
  unfold value, charCodeAt, toString, seq, this, theText, ret.
  now destruct (_text (label w)).
Qed.

Lemma charAt_value (i : number) (w : World) :
  value (charAt i) w = String_charAt (value toString w) i.
Proof.
  unfold value, charAt, toString, seq, this, theText, ret.
  now destruct (_text (label w)).
Qed.

Lemma length_value (w : World) :
  value length w = of_nat (String.length (value toString w)).
Proof.
  unfold value, length, toString, seq, this, theText, ret.
  now destruct (_text (label w)).
Qed.

Lemma kerningBefore_value (i : number) (w : World) :
  value (kerningBefore i) w
  = if (lt i (Num 1) || gt i (value length w))%bool then NaN
    else kerning (fontFaces w (_fontFace (label w)))
                 (value (charCodeAt (sub i (Num 1))) w) (value (charCodeAt i) w).
Proof.
  unfold value at 1. unfold kerningBefore. rewrite length_first.
  destruct (lt i (Num 1) || gt i (value length w))%bool; [reflexivity |].
  unfold seq, this, theFontFace. now rewrite !charCodeAt_reads.
Qed.

Lemma kerningAfter_value (i : number) (w : World) :
  value (kerningAfter i) w
  = if (lt i (Num 0) || gt i (sub (value length w) (Num 1)))%bool then NaN
    else kerning (fontFaces w (_fontFace (label w)))
                 (value (charCodeAt i) w) (value (charCodeAt (add i (Num 1))) w).
Proof.
  unfold value at 1. unfold kerningAfter. rewrite length_first.
  destruct (lt i (Num 0) || gt i (sub (value length w) (Num 1)))%bool; [reflexivity |].
  unfold seq, this, theFontFace. now rewrite !charCodeAt_reads.
Qed.

Lemma advance_value (i : number) (w : World) :
  value (advance i) w
  = if (lt i (Num 0) || gt i (value length w))%bool then NaN
    else glyph_advance (fontFaces w (_fontFace (label w))) (value (charCodeAt i) w).
Proof.
  unfold value at 1. unfold advance. rewrite length_first.
  destruct (lt i (Num 0) || gt i (value length w))%bool; [reflexivity |].
  unfold seq, this, theFontFace. now rewrite !charCodeAt_reads.
Qed.

(** X20.  A label on a shared [Text] answers like the label on the string
    of the text: the characters, the character codes, the length, the
    string and the glyph metrics are the same; only the line feed is the
    one of the text. *)
Theorem text_object_reads_like_its_string (w : World) (r : TextRef) (index : number) :
  _text (label w) = IsText r ->
  let w' := withString (t_text (texts w r)) w in
  value (charAt index) w = value (charAt index) w'
  /\ value (charCodeAt index) w = value (charCodeAt index) w'
  /\ value length w = value length w'
  /\ value toString w = value toString w'
  /\ value (kerningBefore index) w = value (kerningBefore index) w'
  /\ value (kerningAfter index) w = value (kerningAfter index) w'
  /\ value (advance index) w = value (advance index) w'
  /\ value lineFeed w = t_lineFeed (texts w r)
  /\ value lineFeed w' = DEFAULT_LINEFEED.
Proof.
  intros H. cbv zeta.
  set (w' := withString (t_text (texts w r)) w).
  assert (value toString w = value toString w') as Hs.
  { unfold value, toString, seq, this, theText, ret. rewrite H. reflexivity. }
  assert (fontFaces w (_fontFace (label w)) = fontFaces w' (_fontFace (label w'))) as Hf
    by reflexivity.
  assert (value lineFeed w = t_lineFeed (texts w r)) as Hl.
  { unfold value, lineFeed, seq, this, theText, ret. rewrite H. reflexivity. }
  assert (value lineFeed w' = DEFAULT_LINEFEED) as Hl' by reflexivity.
  clearbody w'.
  rewrite !kerningBefore_value, !kerningAfter_value, !advance_value, !length_value,
    !charCodeAt_value, !charAt_value, <- Hs, <- Hf.
  repeat split; assumption.
Qed.

Lemma text_object_reads_like_its_string_witness :
  _text (label LabelExamples.sharingWorld) = IsText 0%nat
  /\ value (advance (Num 1)) LabelExamples.sharingWorld
     = value (advance (Num 1))
             (withString (t_text (texts LabelExamples.sharingWorld 0%nat))
                         LabelExamples.sharingWorld).
Proof.
  assert (_text (label LabelExamples.sharingWorld) = IsText 0%nat) as H by reflexivity.
  split; [exact H |].
  exact (proj1 (proj2 (proj2 (proj2 (proj2 (proj2 (proj2
    (text_object_reads_like_its_string LabelExamples.sharingWorld 0%nat (Num 1) H)))))))).
Defined.

Lemma get_at_length (s : string) : String.get (String.length s) s = None.
Proof. induction s as [| c s IH]; [reflexivity | exact IH]. Qed.

Lemma lt_of_nat (i j : nat) : lt (of_nat i) (of_nat j) = (i <? j)%nat.
Proof.
  unfold lt, of_nat, Core.Qlt_bool.
  destruct (Nat.ltb_spec i j) as [H | H].
  - apply negb_true_iff. destruct (Qle_bool _ _) eqn:E; [| reflexivity].
    apply Qle_bool_iff in E. rewrite <- Zle_Qle in E. lia.
  - apply negb_false_iff. apply Qle_bool_iff. rewrite <- Zle_Qle. lia.
Qed.

Lemma toInteger_of_nat (i : nat) : toInteger (of_nat i) = Z.of_nat i.
Proof. unfold toInteger, of_nat. cbn. apply Z.quot_1_r. Qed.

(** X21.  The guards of [advance] and [kerningBefore] let the index that
    equals the length through, where there is no character: the character
    code there is [NaN], and the face is asked for the advance of the glyph
    of [NaN] and, for a text that is not empty, for the kerning between the
    last character and [NaN]; [kerningAfter] asks the same at the last
    index. *)
Theorem glyph_queries_at_the_end (w : World) :
  let n := String.length (value toString w) in
  let face := fontFaces w (_fontFace (label w)) in
  value (charCodeAt (of_nat n)) w = NaN
  /\ value (advance (of_nat n)) w = glyph_advance face NaN
  /\ ((1 <= n)%nat ->
      value (kerningBefore (of_nat n)) w
      = kerning face (value (charCodeAt (of_nat (n - 1))) w) NaN
      /\ value (kerningAfter (of_nat (n - 1))) w
         = kerning face (value (charCodeAt (of_nat (n - 1))) w) NaN).
Proof.
  cbv zeta.
  pose proof (length_value w) as Hlen.
  set (n := String.length (value toString w)) in *.
  assert (forall i j, toInteger i = toInteger j ->
                      value (charCodeAt i) w = value (charCodeAt j) w) as Hsame.
  { intros i j E. unfold value. now rewrite (charCodeAt_toInteger i j w E). }
  assert (value (charCodeAt (of_nat n)) w = NaN) as Hend.
  { rewrite charCodeAt_value. unfold String_charCodeAt.
    rewrite toInteger_of_nat, Nat2Z.id. unfold n. rewrite get_at_length.
    now destruct (Z.of_nat _ <? 0)%Z. }
  split; [exact Hend |].
  split.
  { rewrite advance_value, Hlen, Hend.
    change (Num 0) with (of_nat 0). unfold gt. rewrite !lt_of_nat.
    now rewrite Nat.ltb_irrefl. }
  intros Hpos.
  split.
  - rewrite kerningBefore_value, Hlen, Hend.
    change (Num 1) with (of_nat 1). unfold gt. rewrite !lt_of_nat.
    rewrite Nat.ltb_irrefl.
    destruct (Nat.ltb_spec n 1) as [H | _]; [lia |]. cbn [orb].
    f_equal. apply Hsame.
    rewrite toInteger_of_nat. unfold toInteger, sub, of_nat. cbn.
    rewrite Z.quot_1_r. lia.
  - rewrite kerningAfter_value, Hlen.
    assert (lt (of_nat (n - 1)) (Num 0) = false) as ->.
    { change (Num 0) with (of_nat 0). rewrite lt_of_nat. reflexivity. }
    assert (gt (of_nat (n - 1)) (sub (of_nat n) (Num 1)) = false) as ->.
    { unfold gt, lt, sub, of_nat, Core.Qlt_bool. apply negb_false_iff.
      apply Qle_bool_iff. unfold Qle. cbn. lia. }
    cbn [orb]. f_equal. rewrite <- Hend. apply Hsame.
    rewrite toInteger_of_nat. unfold toInteger, add, of_nat. cbn.
    rewrite Z.quot_1_r. lia.
Qed.

Lemma glyph_queries_at_the_end_witness :
  (1 <= String.length (value toString LabelExamples.plainWorld))%nat
  /\ value (kerningBefore (of_nat 3)) LabelExamples.plainWorld
     = kerning LabelExamples.monospace
               (value (charCodeAt (of_nat 2)) LabelExamples.plainWorld) NaN.
Proof.
  assert (1 <= String.length (value toString LabelExamples.plainWorld))%nat as H
    by (vm_compute; lia).
  split; [exact H |].
  exact (proj1 (proj2 (proj2 (glyph_queries_at_the_end LabelExamples.plainWorld)) H)).
Defined.

End LabelMoreProperties.
